(** * oto2seg (CVVC mode): alias classification, boundary derivation,
      quantization and coverage completion

    A shallow embedding of [functions.py] and [oto2seg_cvvc.py].

    Conventions of the embedding.
    - A Python [str] is a list of Unicode code points ([str := list N]); the
      alias grammar tests code-point ranges of the kana blocks, so bytes would
      not do.  ASCII literals are written [lit "..."].
    - Times are Python floats in the source.  They are idealised here as exact
      rationals ([Q]): [+], [-], [*], [/], [math.floor], [math.ceil] and the
      comparisons are the exact ones.  Rounding error of IEEE doubles is not
      modelled.  It matters in one place, the rounding to the sample grid of
      [quantize_boundary]: for a time that already lies on the grid the
      product [b / 1000 * sample_rate] of the source can fall a last bit
      below or above the whole number, and the source then lands one sample
      lower (floor) or higher (ceil) than the exact value, e.g. at 350 ms,
      where it returns 349.977...  The concrete values stated below are
      stated at inputs where the doubles and the exact values agree; the
      general statements are bounds and orderings that such a step does not
      break.
    - Mutable objects that the source copies or updates in place (the
      [SegmentInfo] graph) live in an explicit heap of cells addressed by
      natural numbers; allocation appends a cell.
    - The tables of [phoneme.py] and [hiragana.json] are not part of the
      sources at hand; every function that reads one takes it as a parameter. *)

From Stdlib Require Import QArith Qround Qabs Qminmax Lqa ZArith Lia List Ascii String.
From stdpp Require Import gmap list.
Import ListNotations.

Local Open Scope Q_scope.

(* ===================================================================== *)
(** * Python strings *)
(* ===================================================================== *)

Abbreviation char := N (only parsing).
Abbreviation str := (list N) (only parsing).

(** An ASCII literal as a Python string. *)
Definition lit (s : string) : str :=
  List.map N_of_ascii (list_ascii_of_string s).

Definition str_eqb (a b : str) : bool := bool_decide (a = b).

(** [x in xs] on a list of strings. *)
Definition py_in (x : str) (xs : list str) : bool := existsb (str_eqb x) xs.

(** [xs.index(x)]: the first position of [x]; [None] stands for the
    [ValueError] of Python. *)
Fixpoint py_index (x : str) (xs : list str) : option nat :=
  match xs with
  | [] => None
  | y :: ys => if str_eqb x y then Some 0%nat
               else option_map S (py_index x ys)
  end.

Definition SPACE : char := 32%N.
Definition NEWLINE : char := 10%N.
Definition HYPHEN : char := 45%N.

(** [c.isspace()] *)
Definition py_isspace (c : char) : bool :=
  ((9 <=? c) && (c <=? 13) || (28 <=? c) && (c <=? 32) || (c =? 133)
   || (c =? 160) || (c =? 5760) || (8192 <=? c) && (c <=? 8202)
   || (c =? 8232) || (c =? 8233) || (c =? 8239) || (c =? 8287)
   || (c =? 12288))%N.

Fixpoint lstrip (s : str) : str :=
  match s with
  | c :: s' => if py_isspace c then lstrip s' else s
  | [] => []
  end.

(** [s.strip()] *)
Definition strip (s : str) : str := rev (lstrip (rev (lstrip s))).

(** [s.replace(" ", "")] *)
Definition remove_spaces (s : str) : str :=
  List.filter (fun c => negb (c =? SPACE)%N) s.

(** [s.split(" ", 1)] unpacked into two names: [None] stands for the
    [ValueError] raised when there is no space to split at. *)
Fixpoint split_space1 (s : str) : option (str * str) :=
  match s with
  | [] => None
  | c :: s' =>
      if (c =? SPACE)%N then Some ([], s')
      else match split_space1 s' with
           | Some (a, b) => Some (c :: a, b)
           | None => None
           end
  end.

(** [sep.join(xs)] *)
Fixpoint join (sep : str) (xs : list str) : str :=
  match xs with
  | [] => []
  | [x] => x
  | x :: xs' => x ++ sep ++ join sep xs'
  end.

(** The one-character string [s[i]], empty when out of range. *)
Definition char_at (s : str) (i : nat) : str :=
  match s !! i with
  | Some c => [c]
  | None => []
  end.

(* ===================================================================== *)
(** * Regular expressions, as far as the alias grammar uses them *)
(* ===================================================================== *)

(** A character class is a list of inclusive code-point ranges. *)
Definition charset := list (N * N).

Definition in_charset (c : char) (cs : charset) : bool :=
  existsb (fun r => (r.1 <=? c)%N && (c <=? r.2)%N) cs.

Definition chars (s : string) : charset :=
  List.map (fun c => (c, c)) (lit s).

Inductive regex :=
| Empty                     (* matches nothing *)
| Eps                       (* the empty string *)
| Cls (cs : charset)        (* [...] *)
| Cat (r1 r2 : regex)
| Alt (r1 r2 : regex)       (* r1|r2 *)
| Plus (r : regex)          (* r+ *)
| Opt (r : regex)           (* r? *)
| Eol.                      (* $ *)

(** Can [r] match the empty string when the rest of the subject is [rest]?
    [$] holds at the end and just before a final newline. *)
Fixpoint nullable_at (rest : str) (r : regex) : bool :=
  match r with
  | Empty => false
  | Eps => true
  | Cls _ => false
  | Cat r1 r2 => nullable_at rest r1 && nullable_at rest r2
  | Alt r1 r2 => nullable_at rest r1 || nullable_at rest r2
  | Plus r1 => nullable_at rest r1
  | Opt _ => true
  | Eol => match rest with
           | [] => true
           | [c] => (c =? NEWLINE)%N
           | _ => false
           end
  end.

(** The derivative of [r] by the character [c], the subject from the
    current position being [cur = c :: _]. *)
Fixpoint deriv (cur : str) (c : char) (r : regex) : regex :=
  match r with
  | Empty | Eps | Eol => Empty
  | Cls cs => if in_charset c cs then Eps else Empty
  | Cat r1 r2 =>
      Alt (Cat (deriv cur c r1) r2)
          (if nullable_at cur r1 then deriv cur c r2 else Empty)
  | Alt r1 r2 => Alt (deriv cur c r1) (deriv cur c r2)
  | Plus r1 => Cat (deriv cur c r1) (Opt (Plus r1))
  | Opt r1 => deriv cur c r1
  end.

(** [re.match(r, s)] as a truth value: [r] matches a prefix of [s]. The
    patterns of the source that begin with [^] are given without it, because
    [re.match] only tries the start of the subject. *)
Fixpoint re_match (r : regex) (s : str) : bool :=
  nullable_at s r ||
  match s with
  | [] => false
  | c :: s' => re_match (deriv s c r) s'
  end.

(** [s] without one final newline: what a pattern ending in [$] whose
    classes exclude the newline has consumed when it matches [s]. *)
Definition chomp (s : str) : str :=
  match rev s with
  | c :: s' => if (c =? NEWLINE)%N then rev s' else s
  | [] => []
  end.

Definition DIGIT : charset := [(48, 57)]%N.
Definition LATIN : charset := [(97, 122); (65, 90)]%N.              (* a-zA-Z *)
Definition LATIN_SPACE : charset := [(97, 122); (65, 90); (32, 32)]%N.
Definition KANA : charset := [(12353, 12436); (12449, 12539)]%N.    (* U+3041-3094, U+30A1-30FB *)
(** The twelve vowel and nasal kana, U+3042 3044 3046 3048 304A 3093 and
    U+30A2 30A4 30A6 30A8 30AA 30F3. *)
Definition KANA_VOWEL : charset :=
  [(12354, 12354); (12356, 12356); (12358, 12358); (12360, 12360);
   (12362, 12362); (12435, 12435); (12450, 12450); (12452, 12452);
   (12454, 12454); (12456, 12456); (12458, 12458); (12531, 12531)]%N.
Definition KANA_N : str := [12435%N].                               (* U+3093 *)

(** [[0-9]+$] *)
Definition re_digits : regex := Cat (Plus (Cls DIGIT)) Eol.
(** [^([kana]+)$] with [kana] the class U+3041-3094, U+30A1-30FB *)
Definition re_kana_word : regex := Cat (Plus (Cls KANA)) Eol.
(** [^([aiueonN])$] *)
Definition re_vr : regex := Cat (Cls (chars "aiueonN")) Eol.
(** [^([aiueoN]) ([aiueoN]|[vowel kana])$] *)
Definition re_vv : regex :=
  Cat (Cls (chars "aiueoN"))
   (Cat (Cls (chars " "))
    (Cat (Alt (Cls (chars "aiueoN")) (Cls KANA_VOWEL)) Eol)).
(** [[aiueoN]] *)
Definition re_latin_vowel : regex := Cls (chars "aiueoN").
(** [^n ([vowel kana])$] *)
Definition re_nv : regex :=
  Cat (Cls (chars "n")) (Cat (Cls (chars " ")) (Cat (Cls KANA_VOWEL) Eol)).
(** [^([aiueoN]) ([a-zA-Z]+[aiueo]|[kana])$] *)
Definition re_vcv : regex :=
  Cat (Cls (chars "aiueoN"))
   (Cat (Cls (chars " "))
    (Cat (Alt (Cat (Plus (Cls LATIN)) (Cls (chars "aiueo"))) (Cls KANA)) Eol)).
(** [^([aiueonN]) ([a-zA-Z]+)$] *)
Definition re_vc : regex :=
  Cat (Cls (chars "aiueonN")) (Cat (Cls (chars " ")) (Cat (Plus (Cls LATIN)) Eol)).
(** [^n ([aiueo])$] *)
Definition re_n_vowel : regex :=
  Cat (Cls (chars "n")) (Cat (Cls (chars " ")) (Cat (Cls (chars "aiueo")) Eol)).
(** [^([a-zA-Z ]+ ?[aiueonN]|[kana]+)$] *)
Definition re_cv : regex :=
  Cat (Alt (Cat (Plus (Cls LATIN_SPACE))
                (Cat (Opt (Cls (chars " "))) (Cls (chars "aiueonN"))))
           (Plus (Cls KANA))) Eol.
(** [^[a-zA-Z ]+$] *)
Definition re_latin_space_word : regex := Cat (Plus (Cls LATIN_SPACE)) Eol.

Fixpoint drop_digits (s : str) : str :=
  match s with
  | c :: s' => if in_charset c DIGIT then drop_digits s' else s
  | [] => []
  end.

(** [re.sub(r"[0-9]+$", "", s)]: the run of digits that ends the subject, or
    that ends just before its final newline, is removed. *)
Definition sub_trailing_digits (s : str) : str :=
  match rev s with
  | c :: s' =>
      if (c =? NEWLINE)%N then rev (drop_digits s') ++ [NEWLINE]
      else rev (drop_digits (rev s))
  | [] => []
  end.

(* ===================================================================== *)
(** * Python results *)
(* ===================================================================== *)

Inductive exn :=
| IndexError
| AttributeError
| KeyError
| ValueError
| TypeError
| Exception (msg : str).

(** The outcome of a call: a value, or a raised exception. *)
Inductive result (A : Type) :=
| Returns (a : A)
| Raises (e : exn).
Arguments Returns {A} a.
Arguments Raises {A} e.

Definition result_bind {A B} (f : A -> result B) (m : result A) : result B :=
  match m with
  | Returns a => f a
  | Raises e => Raises e
  end.

#[global] Instance result_mbind : MBind result := @result_bind.
#[global] Instance result_mret : MRet result := @Returns.

(** [xs[i]] on a list: [IndexError] out of range. *)
Definition py_nth {A} (xs : list A) (i : nat) : result A :=
  match xs !! i with
  | Some x => Returns x
  | None => Raises IndexError
  end.

(** Reading an attribute that may not have been assigned yet. *)
Definition getattr {A} (field : option A) : result A :=
  match field with
  | Some x => Returns x
  | None => Raises AttributeError
  end.

(* ===================================================================== *)
(** * Time arithmetic *)
(* ===================================================================== *)

(** [max(a, b)] and [min(a, b)] of Python on two arguments: the first
    argument is kept unless the second is strictly better. *)
Definition pymax (a b : Q) : Q := if Qlt_le_dec a b then b else a.
Definition pymin (a b : Q) : Q := if Qlt_le_dec b a then b else a.

(* ===================================================================== *)
(** * functions.py: the pronunciation index *)
(* ===================================================================== *)

Record OtoInfo := mkOtoInfo {
  wav_file : str;
  alias : str;
  offset : Q;
  consonant : Q;
  cutoff : Q;
  preutterance : Q;
  overlap : Q
}.

(** The body of the loop of [read_oto] from the point where the five numeric
    fields of a line have been parsed ([float(...)]) and the length of the
    referenced clip is known: lines 62 to 79. The arguments [offset0] ...
    [overlap0] are the stored (raw) values. *)
Definition read_oto_entry (wav_file_resolved alias0 : str)
    (wav_length offset0 consonant0 cutoff0 preutterance0 overlap0 : Q) : OtoInfo :=
  let consonant1 := pymax (offset0 + consonant0) 0 in
  let preutterance1 := pymax (offset0 + preutterance0) 0 in
  let overlap1 := pymax (offset0 + overlap0) 0 in
  let cutoff1 :=
    if Qlt_le_dec 0 cutoff0
    then pymax (consonant1 + 0.1) (wav_length - offset0)
    else pymin wav_length (offset0 + (-1 * cutoff0)) in
  {| wav_file := wav_file_resolved;
     alias := alias0;
     offset := offset0;
     consonant := consonant1;
     cutoff := cutoff1;
     preutterance := preutterance1;
     overlap := overlap1 |}.

(* ===================================================================== *)
(** * functions.py: the phoneme dictionary *)
(* ===================================================================== *)

(** An entry of [hiragana.json] after loading: the field [phoneme] has
    been split at spaces into a list of atoms. *)
Record JPhonemeMapItem := mkItem {
  kana : str;
  romaji : str;
  phoneme : list str;
  item_type : str
}.

Fixpoint get_hiragana_info (hiragana_map : list JPhonemeMapItem) (hiragana : str)
    : option JPhonemeMapItem :=
  match hiragana_map with
  | [] => None
  | item :: rest =>
      if str_eqb (kana item) hiragana then Some item
      else get_hiragana_info rest hiragana
  end.

Fixpoint get_romaji_info (hiragana_map : list JPhonemeMapItem) (romaji0 : str)
    : option JPhonemeMapItem :=
  match hiragana_map with
  | [] => None
  | item :: rest =>
      if str_eqb (romaji item) romaji0 then Some item
      else get_romaji_info rest romaji0
  end.

Definition romaji_is_vowel (romaji0 : str) : bool :=
  py_in romaji0 (List.map lit ["a"; "i"; "u"; "e"; "o"; "n"; "N"]%string).

Definition xsampa_is_vowel (xsampa : str) : bool :=
  py_in xsampa (List.map lit ["a"; "i"; "M"; "e"; "o"; "N\"]%string).

(* ===================================================================== *)
(** * functions.py: the alias classifier *)
(* ===================================================================== *)

(** [OtoEntryPhonemeInfo()] creates an object without attributes; each
    field is [None] until the classifier assigns it. *)
Record OtoEntryPhonemeInfo := mkEntry {
  ep_type : option str;
  ep_phoneme_info_list : option (list JPhonemeMapItem);
  ep_phoneme_list : option (list str);
  ep_is_alternative : option bool
}.

Definition new_entry : OtoEntryPhonemeInfo :=
  {| ep_type := None; ep_phoneme_info_list := None;
     ep_phoneme_list := None; ep_is_alternative := None |}.

(** The three assignments [ret.type = t], [ret.phoneme_info_list = infos],
    [ret.phoneme_list = atoms] that end every successful branch. *)
Definition classified (ret : OtoEntryPhonemeInfo) (t : string)
    (infos : list JPhonemeMapItem) (atoms : list str) : OtoEntryPhonemeInfo :=
  {| ep_type := Some (lit t); ep_phoneme_info_list := Some infos;
     ep_phoneme_list := Some atoms; ep_is_alternative := ep_is_alternative ret |}.

(** The consonant-to-nasal table of the V-C branch (lines 266 to 277): the
    four lists of consonant atoms that the source tests, and the test. *)
Definition NASAL_PLACEHOLDER : str := lit "N\".
Definition alveolar_consonants : list str :=
  List.map lit ["n"; "d"; "d'"; "t"; "t'"; "4"; "4'"; "dz"; "dZ"; "ts"; "tS"]%string.
Definition labial_consonants : list str :=
  List.map lit ["m"; "m'"; "p"; "p'"; "b"; "b'"]%string.
Definition velar_consonants : list str := List.map lit ["g"; "k"]%string.
Definition palatal_consonant : str := lit "J".
Definition palatalized_velar_consonants : list str := List.map lit ["g'"; "k'"]%string.

Definition nasal_variant (vowel_phoneme consonant_phoneme : str) : str :=
  if str_eqb vowel_phoneme NASAL_PLACEHOLDER then
    if py_in consonant_phoneme alveolar_consonants then lit "n"
    else if py_in consonant_phoneme labial_consonants then lit "m"
    else if py_in consonant_phoneme velar_consonants then lit "N"
    else if str_eqb consonant_phoneme palatal_consonant then lit "J"
    else if py_in consonant_phoneme palatalized_velar_consonants then lit "N'"
    else vowel_phoneme
  else vowel_phoneme.

(** The type tag of a one-entry R-x alias: lines 169 to 175 (syllabary; any
    length other than one is [rcv]) and 187 to 195 (Latin; a length other
    than one or two is an error). *)
Definition rx_type_kana (atoms : list str) : result string :=
  match atoms with
  | [a] => Returns (if xsampa_is_vowel a then "rv" else "rc")%string
  | _ => Returns "rcv"%string
  end.

Definition rx_type_romaji (romaji0 : str) (atoms : list str) : result string :=
  match atoms with
  | [a] => Returns (if xsampa_is_vowel a then "rv" else "rc")%string
  | [_; _] => Returns "rcv"%string
  | _ => Raises (Exception (lit "[Romaji R-C] Invalid phoneme info for " ++ romaji0))
  end.

(** The chain of branches of [get_oto_entry_phoneme_info] (from line 159
    on) for the object [ret] created at the start and the alias as it
    stands after the test for an alternative take. The value is
    [Returns (Some ret)] for [return ret], [Returns None] for
    [return None] and [Raises e] for an exception. *)
Definition classify_alias (hiragana_map : list JPhonemeMapItem)
    (ret : OtoEntryPhonemeInfo) (item_alias : str)
    : result (option OtoEntryPhonemeInfo) :=
  first_char ← py_nth item_alias 0;
  if (first_char =? HYPHEN)%N then
    (* R-C-V? *)
    let item_alias := strip (drop 1 item_alias) in
    if re_match re_kana_word item_alias then
      let hiragana := remove_spaces item_alias in
      match get_hiragana_info hiragana_map hiragana with
      | None => Raises (Exception
          (lit "[Hiragana R-C-V] Could not find phoneme info for " ++ hiragana))
      | Some phoneme_info =>
          t ← rx_type_kana (phoneme phoneme_info);
          Returns (Some (classified ret t [phoneme_info] (phoneme phoneme_info)))
      end
    else
      let romaji0 := remove_spaces item_alias in
      match get_romaji_info hiragana_map romaji0 with
      | None => Returns None
      | Some phoneme_info =>
          t ← rx_type_romaji romaji0 (phoneme phoneme_info);
          Returns (Some (classified ret t [phoneme_info] (phoneme phoneme_info)))
      end
  else if (List.last item_alias 0%N =? HYPHEN)%N then
    (* V-R *)
    let item_alias := strip (removelast item_alias) in
    if re_match re_vr item_alias then
      let romaji0 := remove_spaces item_alias in
      match get_romaji_info hiragana_map romaji0 with
      | None => Raises (Exception
          (lit "[Romaji VR] Could not find phoneme info for " ++ romaji0))
      | Some phoneme_info =>
          if (length (phoneme phoneme_info) =? 1)%nat
          then Returns (Some (classified ret "vr" [phoneme_info] (phoneme phoneme_info)))
          else Raises (Exception (lit "[Romaji VR] Invalid phoneme info for " ++ romaji0))
      end
    else Raises (Exception (lit "[Romaji VR] Invalid phoneme info for " ++ item_alias))
  else if re_match re_vv item_alias then
    (* V-V *)
    let first_vowel := char_at item_alias 0 in
    let second_vowel := char_at item_alias 2 in
    let first_vowel_info := get_romaji_info hiragana_map first_vowel in
    let second_vowel_info :=
      if re_match re_latin_vowel second_vowel
      then get_romaji_info hiragana_map second_vowel
      else get_hiragana_info hiragana_map second_vowel in
    match first_vowel_info, second_vowel_info with
    | Some i1, Some i2 =>
        Returns (Some (classified ret "vv" [i1; i2] (phoneme i1 ++ phoneme i2)))
    | _, _ => Raises (Exception
        (lit "[Romaji VV] Could not find phoneme info for " ++ item_alias))
    end
  else if re_match re_nv item_alias then
    (* N-V *)
    let vowel := char_at item_alias 2 in
    match get_hiragana_info hiragana_map KANA_N, get_hiragana_info hiragana_map vowel with
    | Some n_info, Some vowel_info =>
        Returns (Some (classified ret "vv" [n_info; vowel_info]
                         (phoneme n_info ++ phoneme vowel_info)))
    | _, _ => Raises (Exception
        (lit "[Romaji NV] Could not find phoneme info for " ++ item_alias))
    end
  else if re_match re_vcv item_alias then
    (* V-C-V: pass (TODO) *)
    Returns (Some ret)
  else if re_match re_vc item_alias && negb (re_match re_n_vowel item_alias) then
    (* V-C *)
    let vowel := char_at item_alias 0 in
    let consonant0 := drop 2 (chomp item_alias) in
    match get_romaji_info hiragana_map vowel, get_romaji_info hiragana_map consonant0 with
    | Some vowel_info, Some consonant_info =>
        vowel_phoneme ← py_nth (phoneme vowel_info) 0;
        consonant_phoneme ← py_nth (phoneme consonant_info) 0;
        let vowel_phoneme := nasal_variant vowel_phoneme consonant_phoneme in
        let vowel_info :=
          {| kana := kana vowel_info; romaji := romaji vowel_info;
             phoneme := [vowel_phoneme]; item_type := item_type vowel_info |} in
        Returns (Some (classified ret "vc" [vowel_info; consonant_info]
                         (phoneme vowel_info ++ phoneme consonant_info)))
    | _, _ => Raises (Exception
        (lit "[Romaji VC] Could not find phoneme info for " ++ item_alias))
    end
  else if re_match re_cv item_alias then
    (* C-V *)
    let phoneme_info :=
      if re_match re_latin_space_word item_alias
      then get_romaji_info hiragana_map (remove_spaces item_alias)
      else get_hiragana_info hiragana_map (remove_spaces item_alias) in
    match phoneme_info with
    | None => Raises (Exception
        (lit "[Romaji CV] Could not find phoneme info for " ++ item_alias))
    | Some phoneme_info =>
        Returns (Some (classified ret "cv" [phoneme_info] (phoneme phoneme_info)))
    end
  else Raises (Exception (lit "[Unknown Type] Invalid phoneme info for " ++ item_alias)).

(** [get_oto_entry_phoneme_info]: an alias that consists of digits is
    marked as an alternative take and loses them (lines 155 to 157); then
    the branches. *)
Definition get_oto_entry_phoneme_info (hiragana_map : list JPhonemeMapItem)
    (oto_entry : OtoInfo) : result (option OtoEntryPhonemeInfo) :=
  let item_alias := alias oto_entry in
  let ret := new_entry in
  if re_match re_digits item_alias
  then classify_alias hiragana_map
         {| ep_type := ep_type ret;
            ep_phoneme_info_list := ep_phoneme_info_list ret;
            ep_phoneme_list := ep_phoneme_list ret;
            ep_is_alternative := Some true |}
         (sub_trailing_digits item_alias)
  else classify_alias hiragana_map ret item_alias.

(** [get_vowel_variants] and [get_consonant_variants] over the variant
    tables of [phoneme.py]: the atom itself, then every group that holds
    it, without repetitions and in order of first occurrence. *)
Definition deduplicate (xs : list str) : list str :=
  fold_left (fun unique x => if py_in x unique then unique else unique ++ [x]) xs [].

Definition get_variants (variant_table : list (list str)) (atom : str) : list str :=
  deduplicate
    (fold_left (fun variants variant_list =>
                  if py_in atom variant_list then variants ++ variant_list else variants)
               variant_table [atom]).

Definition get_vowel_variants (vowel_variant_list : list (list str)) (vowel : str)
    : list str := get_variants vowel_variant_list vowel.

Definition get_consonant_variants (consonant_variant_list : list (list str))
    (consonant0 : str) : list str := get_variants consonant_variant_list consonant0.

(* ===================================================================== *)
(** * oto2seg_cvvc.py: quantization of boundaries *)
(* ===================================================================== *)

Definition sample_rate : Q := 44100.
Definition min_length : Q := 10.

(** [math.floor(b / 1000 * sample_rate) * 1000 / sample_rate], in exact
    arithmetic: the latest sample time that is not after [b]. (In doubles,
    a [b] on the sample grid can come out one sample earlier.) *)
Definition floor_to_sample (b : Q) : Q :=
  inject_Z (Qfloor (b / 1000 * sample_rate)) * 1000 / sample_rate.

(** [math.ceil(b / 1000 * sample_rate) * 1000 / sample_rate], in exact
    arithmetic: the earliest sample time that is not before [b]. (In
    doubles, a [b] on the sample grid can come out one sample later.) *)
Definition ceil_to_sample (b : Q) : Q :=
  inject_Z (Qceiling (b / 1000 * sample_rate)) * 1000 / sample_rate.

(** One iteration of the first loop of [quantize_boundary]; the list is
    updated in place at index [i]. *)
Definition round_step (n_boundary : nat) (boundaries : list Q) (i : nat) : list Q :=
  match boundaries !! i with
  | None => boundaries
  | Some b =>
      if (i =? 0)%nat then <[i := floor_to_sample b]> boundaries
      else if (i =? n_boundary - 1)%nat then <[i := ceil_to_sample b]> boundaries
      else <[i := floor_to_sample b]> boundaries
  end.

(** One iteration of the second loop: if [boundaries[i] - boundaries[i-1]]
    is below the minimum, [boundaries[i-1]] is overwritten. *)
Definition min_step (boundaries : list Q) (i : nat) : list Q :=
  match boundaries !! i, boundaries !! (i - 1)%nat with
  | Some bi, Some bp =>
      if Qlt_le_dec (bi - bp) min_length
      then <[(i - 1)%nat := bi - min_length]> boundaries
      else boundaries
  | _, _ => boundaries
  end.

Definition quantize_boundary (boundaries : list Q) : list Q :=
  let n_boundary := length boundaries in
  let rounded := fold_left (round_step n_boundary) (seq 0 n_boundary) boundaries in
  fold_left min_step (seq 1 (n_boundary - 1)) rounded.

(* ===================================================================== *)
(** * oto2seg_cvvc.py: segments and boundary derivation *)
(* ===================================================================== *)

(** The contents of the objects of the source, read as plain values. An
    entry of [phoneme_list] is the three-element list
    [[atom, begin, end]]. *)
Record ArticulationSegmentInfo := mkArtSeg {
  as_type : str;
  as_phonemes : list str;
  as_boundaries : list Q
}.

Record SegmentInfo := mkSeg {
  wav_offset : Q;
  wav_cutoff : Q;
  phoneme_list : list (str * Q * Q);
  art_seg_list : list ArticulationSegmentInfo
}.

Definition Sil : str := lit "Sil".

(** The body of the [try] block of [generate_articulation_segment_info]
    for one entry of the index. [plosive_consonant_list] is the table of
    [phoneme.py]. *)
Definition segment_of_entry (plosive_consonant_list : list str)
    (hiragana_map : list JPhonemeMapItem) (oto_item : OtoInfo) : result SegmentInfo :=
  entry ← get_oto_entry_phoneme_info hiragana_map oto_item;
  (* an attribute of [None] is read when the classifier returned [None] *)
  entry_phoneme_info ← getattr entry;
  type ← getattr (ep_type entry_phoneme_info);
  let atom (i : nat) : result str :=
    atoms ← getattr (ep_phoneme_list entry_phoneme_info); py_nth atoms i in
  if str_eqb type (lit "rcv") then
    a0 ← atom 0%nat;
    Returns
      {| wav_offset := offset oto_item;
         wav_cutoff := preutterance oto_item;
         phoneme_list :=
           [(Sil, offset oto_item - 20, offset oto_item);
            (a0, offset oto_item, preutterance oto_item)];
         art_seg_list :=
           [{| as_type := lit "rc"; as_phonemes := [Sil; a0];
               as_boundaries := quantize_boundary
                 [offset oto_item - 20; offset oto_item; overlap oto_item] |}] |}
  else if str_eqb type (lit "rv") then
    a0 ← atom 0%nat;
    Returns
      {| wav_offset := offset oto_item;
         wav_cutoff := cutoff oto_item;
         phoneme_list :=
           [(Sil, preutterance oto_item - 20, preutterance oto_item);
            (a0, preutterance oto_item, cutoff oto_item)];
         art_seg_list :=
           [{| as_type := lit "rv"; as_phonemes := [Sil; a0];
               as_boundaries := quantize_boundary
                 [preutterance oto_item - 20; preutterance oto_item;
                  consonant oto_item] |}] |}
  else if str_eqb type (lit "rc") then
    a0 ← atom 0%nat;
    let consonant_start :=
      if py_in a0 plosive_consonant_list then consonant oto_item
      else offset oto_item in
    Returns
      {| wav_offset := offset oto_item;
         wav_cutoff := cutoff oto_item;
         phoneme_list :=
           [(Sil, consonant_start - 20, consonant_start);
            (a0, consonant_start, cutoff oto_item)];
         art_seg_list :=
           [{| as_type := lit "rc"; as_phonemes := [Sil; a0];
               as_boundaries := quantize_boundary
                 [consonant_start - 20; consonant_start; cutoff oto_item] |}] |}
  else if str_eqb type (lit "vv") then
    a0 ← atom 0%nat;
    a1 ← atom 1%nat;
    Returns
      {| wav_offset := offset oto_item;
         wav_cutoff := cutoff oto_item;
         phoneme_list :=
           [(a0, offset oto_item, preutterance oto_item);
            (a1, preutterance oto_item, consonant oto_item)];
         art_seg_list :=
           [{| as_type := lit "vv"; as_phonemes := [a0; a1];
               as_boundaries := quantize_boundary
                 [offset oto_item; preutterance oto_item; consonant oto_item] |}] |}
  else if str_eqb type (lit "cv") then
    a0 ← atom 0%nat;
    let consonant_start :=
      if py_in a0 plosive_consonant_list then overlap oto_item
      else if Qlt_le_dec (offset oto_item) (overlap oto_item)
      then offset oto_item + ((overlap oto_item - offset oto_item) / 2)
      else offset oto_item in
    a1 ← atom 1%nat;
    Returns
      {| wav_offset := offset oto_item;
         wav_cutoff := cutoff oto_item;
         phoneme_list :=
           [(a0, consonant_start, preutterance oto_item);
            (a1, preutterance oto_item, consonant oto_item)];
         art_seg_list :=
           [{| as_type := lit "cv"; as_phonemes := [a0; a1];
               as_boundaries := quantize_boundary
                 [consonant_start; preutterance oto_item; consonant oto_item] |}] |}
  else if str_eqb type (lit "vc") then
    a1 ← atom 1%nat;
    let consonant_end :=
      consonant oto_item + ((cutoff oto_item - consonant oto_item) / 2) in
    a0 ← atom 0%nat;
    Returns
      {| wav_offset := offset oto_item;
         wav_cutoff := cutoff oto_item;
         phoneme_list :=
           [(a0, offset oto_item, preutterance oto_item);
            (a1, preutterance oto_item, consonant_end)];
         art_seg_list :=
           [{| as_type := lit "vc"; as_phonemes := [a0; a1];
               as_boundaries := quantize_boundary
                 [offset oto_item; preutterance oto_item; consonant_end] |}] |}
  else if str_eqb type (lit "vr") then
    a0 ← atom 0%nat;
    Returns
      {| wav_offset := offset oto_item;
         wav_cutoff := cutoff oto_item;
         phoneme_list :=
           [(a0, offset oto_item, preutterance oto_item);
            (Sil, preutterance oto_item, preutterance oto_item + 20)];
         art_seg_list :=
           [{| as_type := lit "vr"; as_phonemes := [a0; Sil];
               as_boundaries := quantize_boundary
                 [overlap oto_item; preutterance oto_item;
                  preutterance oto_item + 20] |}] |}
  else Raises (Exception (lit "Unknown phoneme type: " ++ type)).

(** [generate_articulation_segment_info]: an entry whose processing raises
    is reported and skipped. The parameters [cvvc_initial_mode] and
    [wav_length] of the source are not used by its body. *)
Definition generate_articulation_segment_info (plosive_consonant_list : list str)
    (hiragana_map : list JPhonemeMapItem) (oto_list : list OtoInfo)
    : list SegmentInfo :=
  fold_left
    (fun seg_info_list oto_item =>
       match segment_of_entry plosive_consonant_list hiragana_map oto_item with
       | Returns seg_info => seg_info_list ++ [seg_info]
       | Raises _ => seg_info_list
       end)
    oto_list [].

(* ===================================================================== *)
(** * oto2seg_cvvc.py: the emitter *)
(* ===================================================================== *)

(** [escape_xsampa] *)
Fixpoint replace_Sil (s : str) : str :=
  match s with
  | 83%N :: 105%N :: 108%N :: rest => 115%N :: 105%N :: 108%N :: replace_Sil rest
  | c :: rest => c :: replace_Sil rest
  | [] => []
  end.

Definition escape_char (c : char) : str :=
  let c1 :=
    if (c =? 92)%N then 45%N            (* \ to - *)
    else if (c =? 47)%N then 126%N      (* / to ~ *)
    else if (c =? 63)%N then 33%N       (* ? to ! *)
    else if (c =? 58)%N then 59%N       (* : to ; *)
    else if (c =? 60)%N then 40%N       (* < to ( *)
    else if (c =? 62)%N then 41%N       (* > to ) *)
    else c in
  if ((65 <=? c1) && (c1 <=? 90))%N then [(c1 + 32)%N; 35%N] else [c1].

Definition escape_xsampa (xsampa : str) : str :=
  flat_map escape_char (replace_Sil xsampa).

Definition get_segment_file_name (seg_info : SegmentInfo) : str :=
  let prefix :=
    match art_seg_list seg_info with
    | [a; b] =>
        if str_eqb (as_type a) (lit "rc") && str_eqb (as_type b) (lit "cv")
        then lit "rcv_" else lit "unknown_"
    | [a] => as_type a ++ lit "_"
    | _ => lit "unknown_"
    end in
  prefix ++ join (lit "_") (List.map (fun item => escape_xsampa item.1.1) (phoneme_list seg_info)).

(** The lines of the transition list: [content] of
    [generate_articulation_trans_file] before the final join. *)
Definition trans_pair_line (seg_info : list (str * Q * Q)) (i : nat) : str :=
  match seg_info !! i, seg_info !! (i + 1)%nat with
  | Some p, Some q => lit "[" ++ p.1.1 ++ lit " " ++ q.1.1 ++ lit "]"
  | _, _ => []
  end.

Definition trans_content (seg_info : list (str * Q * Q)) : list str :=
  let phoneme_list0 := List.map (fun p => p.1.1) seg_info in
  [join (lit " ") phoneme_list0]
  ++ List.map (trans_pair_line seg_info) (seq 0 (length seg_info - 1)).

Definition generate_articulation_trans_file (seg_info : list (str * Q * Q)) : str :=
  join [NEWLINE] (trans_content seg_info).

Definition bleed_time : Q := 100.

(** What [generate_articulation_files] computes for one segment before it
    hands over to the audio service and to the file system: the file name,
    the re-based times, the silence to add and the slice to cut. The length
    of the clip, which the source reads from the audio file, is the
    argument [wav_length]. *)
Record Emission := mkEmission {
  em_file_name : str;
  em_time_delta : Q;
  em_append_silent_start : Q;
  em_append_silent_end : Q;
  em_relative_wav_offset : Q;
  em_relative_wav_cutoff : Q;
  em_phoneme_list : list (str * Q * Q);
  em_art_seg_list : list ArticulationSegmentInfo;
  em_wav_start_time : Q;
  em_wav_end_time : Q;
  em_trans_content : str
}.

Definition generate_articulation_files (wav_length : Q) (seg_info : SegmentInfo)
    : Emission :=
  let file_name := get_segment_file_name seg_info in
  let append_silent_start :=
    if Qlt_le_dec (wav_offset seg_info) bleed_time
    then bleed_time - wav_offset seg_info else 0 in
  let time_delta :=
    if Qlt_le_dec (wav_offset seg_info) bleed_time
    then 0 + append_silent_start
    else -1 * (wav_offset seg_info - bleed_time) in
  let relative_wav_offset := wav_offset seg_info + time_delta in
  let relative_wav_cutoff := wav_cutoff seg_info + time_delta in
  let phoneme_list1 :=
    List.map (fun p : str * Q * Q => (p.1.1, p.1.2 + time_delta, p.2 + time_delta))
             (phoneme_list seg_info) in
  let art_seg_list1 :=
    List.map (fun art_seg =>
                {| as_type := as_type art_seg;
                   as_phonemes := as_phonemes art_seg;
                   as_boundaries :=
                     List.map (fun boundary => boundary + time_delta)
                              (as_boundaries art_seg) |})
             (art_seg_list seg_info) in
  let append_silent_end :=
    if Qlt_le_dec wav_length (wav_cutoff seg_info + bleed_time)
    then wav_cutoff seg_info + bleed_time - wav_length else 0 in
  {| em_file_name := file_name;
     em_time_delta := time_delta;
     em_append_silent_start := append_silent_start;
     em_append_silent_end := append_silent_end;
     em_relative_wav_offset := relative_wav_offset;
     em_relative_wav_cutoff := relative_wav_cutoff;
     em_phoneme_list := phoneme_list1;
     em_art_seg_list := art_seg_list1;
     em_wav_start_time := pymax 0 (wav_offset seg_info - bleed_time);
     em_wav_end_time := pymin wav_length (wav_cutoff seg_info + bleed_time);
     em_trans_content := generate_articulation_trans_file phoneme_list1 |}.

(* ===================================================================== *)
(** * The heap of mutable objects *)
(* ===================================================================== *)

Abbreviation loc := nat (only parsing).

(** One cell per mutable object of the [SegmentInfo] graph. Strings and
    numbers are immutable in Python and are stored by value. A field is
    [None] while the attribute, or the key of the dictionary, has not been
    assigned. *)
Inductive cell :=
| CPhoneme (atom : str) (t_begin t_end : Q)          (* [[atom, begin, end]] *)
| CAtoms (atoms : list str)                          (* [art_seg["phonemes"]] *)
| CTimes (times : list Q)                            (* [art_seg["boundaries"]] *)
| CRefs (refs : list loc)                            (* a list of objects *)
| CArtSeg (f_type : option str) (f_phonemes f_boundaries : option loc)
| CSegmentInfo (f_wav_offset f_wav_cutoff : option Q)
               (f_phoneme_list f_art_seg_list : option loc).

Abbreviation heap := (list cell) (only parsing).

(** Computations that read and update the heap and may raise. *)
Definition M (A : Type) : Type := heap -> result A * heap.

Definition M_ret {A} (a : A) : M A := fun h => (Returns a, h).

Definition M_bind {A B} (f : A -> M B) (m : M A) : M B :=
  fun h =>
    match m h with
    | (Returns a, h') => f a h'
    | (Raises e, h') => (Raises e, h')
    end.

#[global] Instance M_mret : MRet M := @M_ret.
#[global] Instance M_mbind : MBind M := @M_bind.

Definition lift {A} (r : result A) : M A := fun h => (r, h).
Definition raise {A} (e : exn) : M A := lift (Raises e).

(** A new object is placed at the end of the heap. *)
Definition alloc (c : cell) : M loc :=
  fun h => (Returns (length h), h ++ [c]).

(** A dangling reference cannot arise in Python; the model answers it, and
    an object of the wrong kind, with [TypeError]. *)
Definition load (l : loc) : M cell :=
  fun h =>
    match h !! l with
    | Some c => (Returns c, h)
    | None => (Raises TypeError, h)
    end.

Definition store (l : loc) (c : cell) : M unit :=
  fun h => (Returns tt, <[l := c]> h).

Fixpoint for_each {A} (xs : list A) (body : A -> M unit) : M unit :=
  match xs with
  | [] => M_ret tt
  | x :: xs' => M_bind (fun _ => for_each xs' body) (body x)
  end.

Fixpoint map_each {A B} (xs : list A) (body : A -> M B) : M (list B) :=
  match xs with
  | [] => M_ret []
  | x :: xs' =>
      M_bind (fun y => M_bind (fun ys => M_ret (y :: ys)) (map_each xs' body)) (body x)
  end.

Definition load_phoneme (l : loc) : M (str * Q * Q) :=
  M_bind (fun c => match c with
                   | CPhoneme a b e => M_ret (a, b, e)
                   | _ => raise TypeError
                   end) (load l).

Definition load_atoms (l : loc) : M (list str) :=
  M_bind (fun c => match c with CAtoms xs => M_ret xs | _ => raise TypeError end)
         (load l).

Definition load_times (l : loc) : M (list Q) :=
  M_bind (fun c => match c with CTimes xs => M_ret xs | _ => raise TypeError end)
         (load l).

Definition load_refs (l : loc) : M (list loc) :=
  M_bind (fun c => match c with CRefs xs => M_ret xs | _ => raise TypeError end)
         (load l).

(** [xs.append(x)] on a list of objects. *)
Definition append (l : loc) (x : loc) : M unit :=
  M_bind (fun refs => store l (CRefs (refs ++ [x]))) (load_refs l).

(** Reading a key of a dictionary that may not have been assigned. *)
Definition getitem {A} (field : option A) : result A :=
  match field with
  | Some x => Returns x
  | None => Raises KeyError
  end.

Definition get_wav_offset (l : loc) : M Q :=
  M_bind (fun c => match c with
                   | CSegmentInfo a _ _ _ => lift (getattr a)
                   | _ => raise TypeError
                   end) (load l).

Definition get_wav_cutoff (l : loc) : M Q :=
  M_bind (fun c => match c with
                   | CSegmentInfo _ b _ _ => lift (getattr b)
                   | _ => raise TypeError
                   end) (load l).

Definition get_phoneme_list (l : loc) : M loc :=
  M_bind (fun c => match c with
                   | CSegmentInfo _ _ p _ => lift (getattr p)
                   | _ => raise TypeError
                   end) (load l).

Definition get_art_seg_list (l : loc) : M loc :=
  M_bind (fun c => match c with
                   | CSegmentInfo _ _ _ q => lift (getattr q)
                   | _ => raise TypeError
                   end) (load l).

Definition set_wav_offset (l : loc) (v : Q) : M unit :=
  M_bind (fun c => match c with
                   | CSegmentInfo _ b p q => store l (CSegmentInfo (Some v) b p q)
                   | _ => raise TypeError
                   end) (load l).

Definition set_wav_cutoff (l : loc) (v : Q) : M unit :=
  M_bind (fun c => match c with
                   | CSegmentInfo a _ p q => store l (CSegmentInfo a (Some v) p q)
                   | _ => raise TypeError
                   end) (load l).

Definition set_phoneme_list (l : loc) (v : loc) : M unit :=
  M_bind (fun c => match c with
                   | CSegmentInfo a b _ q => store l (CSegmentInfo a b (Some v) q)
                   | _ => raise TypeError
                   end) (load l).

Definition set_art_seg_list (l : loc) (v : loc) : M unit :=
  M_bind (fun c => match c with
                   | CSegmentInfo a b p _ => store l (CSegmentInfo a b p (Some v))
                   | _ => raise TypeError
                   end) (load l).

Definition get_type (l : loc) : M str :=
  M_bind (fun c => match c with
                   | CArtSeg t _ _ => lift (getitem t)
                   | _ => raise TypeError
                   end) (load l).

Definition get_phonemes (l : loc) : M loc :=
  M_bind (fun c => match c with
                   | CArtSeg _ p _ => lift (getitem p)
                   | _ => raise TypeError
                   end) (load l).

Definition get_boundaries (l : loc) : M loc :=
  M_bind (fun c => match c with
                   | CArtSeg _ _ b => lift (getitem b)
                   | _ => raise TypeError
                   end) (load l).

Definition set_type (l : loc) (v : str) : M unit :=
  M_bind (fun c => match c with
                   | CArtSeg _ p b => store l (CArtSeg (Some v) p b)
                   | _ => raise TypeError
                   end) (load l).

Definition set_phonemes (l : loc) (v : loc) : M unit :=
  M_bind (fun c => match c with
                   | CArtSeg t _ b => store l (CArtSeg t (Some v) b)
                   | _ => raise TypeError
                   end) (load l).

Definition set_boundaries (l : loc) (v : loc) : M unit :=
  M_bind (fun c => match c with
                   | CArtSeg t p _ => store l (CArtSeg t p (Some v))
                   | _ => raise TypeError
                   end) (load l).

(* ===================================================================== *)
(** * oto2seg_cvvc.py: SegmentInfo.copy and SegmentInfo.replace_phoneme *)
(* ===================================================================== *)

(** The body of the first loop of [copy]:
    [new_seg_info.phoneme_list.append(phoneme.copy())]. *)
Definition copy_entry (new_seg_info : loc) (phoneme : loc) : M unit :=
  entry ← load_phoneme phoneme;
  copied ← alloc (CPhoneme entry.1.1 entry.1.2 entry.2);
  target ← get_phoneme_list new_seg_info;
  append target copied.

(** The body of the second loop of [copy]: a new dictionary with the type
    and with copies of the two lists of [art_seg] is appended. *)
Definition copy_art_seg (new_seg_info : loc) (art_seg : loc) : M unit :=
  new_art_seg ← alloc (CArtSeg None None None);
  t ← get_type art_seg;
  _ ← set_type new_art_seg t;
  p ← get_phonemes art_seg;
  atoms ← load_atoms p;
  copied ← alloc (CAtoms atoms);
  _ ← set_phonemes new_art_seg copied;
  b ← get_boundaries art_seg;
  times ← load_times b;
  copied ← alloc (CTimes times);
  _ ← set_boundaries new_art_seg copied;
  target ← get_art_seg_list new_seg_info;
  append target new_art_seg.

(** [SegmentInfo.copy] *)
Definition copy (self : loc) : M loc :=
  new_seg_info ← alloc (CSegmentInfo None None None None);
  v ← get_wav_offset self;
  _ ← set_wav_offset new_seg_info v;
  v ← get_wav_cutoff self;
  _ ← set_wav_cutoff new_seg_info v;
  fresh ← alloc (CRefs []);
  _ ← set_phoneme_list new_seg_info fresh;
  self_phoneme_list ← get_phoneme_list self;
  phonemes ← load_refs self_phoneme_list;
  _ ← for_each phonemes (copy_entry new_seg_info);
  fresh ← alloc (CRefs []);
  _ ← set_art_seg_list new_seg_info fresh;
  self_art_seg_list ← get_art_seg_list self;
  art_segs ← load_refs self_art_seg_list;
  _ ← for_each art_segs (copy_art_seg new_seg_info);
  mret new_seg_info.

(** [new_phonemes[old_phonemes.index(atom)]] *)
Definition substitute (old_phonemes new_phonemes : list str) (atom : str) : result str :=
  match py_index atom old_phonemes with
  | None => Raises ValueError
  | Some i => py_nth new_phonemes i
  end.

(** The body of the first loop of [replace_phoneme], for the index [i]. *)
Definition replace_entry (old_phonemes new_phonemes : list str)
    (new_seg_info : loc) (i : nat) : M unit :=
  l ← get_phoneme_list new_seg_info;
  refs ← load_refs l;
  phoneme ← lift (py_nth refs i);
  entry ← load_phoneme phoneme;
  if py_in entry.1.1 old_phonemes then
    atom ← lift (substitute old_phonemes new_phonemes entry.1.1);
    store phoneme (CPhoneme atom entry.1.2 entry.2)
  else mret tt.

(** The body of the inner loop of [replace_phoneme], for the index [i]. *)
Definition replace_atom (old_phonemes new_phonemes : list str)
    (art_seg : loc) (i : nat) : M unit :=
  p ← get_phonemes art_seg;
  atoms ← load_atoms p;
  phoneme ← lift (py_nth atoms i);
  if py_in phoneme old_phonemes then
    atom ← lift (substitute old_phonemes new_phonemes phoneme);
    p ← get_phonemes art_seg;
    atoms ← load_atoms p;
    store p (CAtoms (<[i := atom]> atoms))
  else mret tt.

(** The body of the second loop of [replace_phoneme]. *)
Definition replace_art_seg (old_phonemes new_phonemes : list str)
    (art_seg : loc) : M unit :=
  p ← get_phonemes art_seg;
  atoms ← load_atoms p;
  for_each (seq 0 (length atoms)) (replace_atom old_phonemes new_phonemes art_seg).

(** [SegmentInfo.replace_phoneme] *)
Definition replace_phoneme (self : loc) (old_phonemes new_phonemes : list str) : M loc :=
  new_seg_info ← copy self;
  l ← get_phoneme_list new_seg_info;
  phonemes ← load_refs l;
  _ ← for_each (seq 0 (length phonemes))
        (replace_entry old_phonemes new_phonemes new_seg_info);
  l ← get_art_seg_list new_seg_info;
  art_segs ← load_refs l;
  _ ← for_each art_segs (replace_art_seg old_phonemes new_phonemes);
  mret new_seg_info.

(** The cells of a segment with the contents [v] whose object is at
    [base], in the arrangement in which [copy] allocates them: the segment,
    its list of entries, the entries, the list of articulation segments,
    and for each of these the dictionary, its atoms and its boundaries. *)
Definition phoneme_cell (p : str * Q * Q) : cell := CPhoneme p.1.1 p.1.2 p.2.

Definition art_seg_cells (l : loc) (a : ArticulationSegmentInfo) : list cell :=
  [CArtSeg (Some (as_type a)) (Some (l + 1)%nat) (Some (l + 2)%nat);
   CAtoms (as_phonemes a);
   CTimes (as_boundaries a)].

Fixpoint art_seg_block (l : loc) (qs : list ArticulationSegmentInfo) : list cell :=
  match qs with
  | [] => []
  | a :: rest => art_seg_cells l a ++ art_seg_block (l + 3)%nat rest
  end.

Fixpoint art_seg_locs (l : loc) (qs : list ArticulationSegmentInfo) : list loc :=
  match qs with
  | [] => []
  | _ :: rest => l :: art_seg_locs (l + 3)%nat rest
  end.

Definition layout (base : loc) (v : SegmentInfo) : list cell :=
  let k := length (phoneme_list v) in
  CSegmentInfo (Some (wav_offset v)) (Some (wav_cutoff v))
               (Some (base + 1)%nat) (Some (base + 2 + k)%nat)
  :: CRefs (seq (base + 2)%nat k)
  :: (List.map phoneme_cell (phoneme_list v)
      ++ CRefs (art_seg_locs (base + 3 + k)%nat (art_seg_list v))
      :: art_seg_block (base + 3 + k)%nat (art_seg_list v)).

(** Placing on the heap the objects of a segment that
    [generate_articulation_segment_info] has built. The addresses of objects
    cannot be observed in Python; the arrangement chosen is [layout]. *)
Definition alloc_segment (v : SegmentInfo) : M loc :=
  fun h => (Returns (length h), h ++ layout (length h) v).

(** The contents of the segment object at [l], if the objects reachable
    from it are all there and complete. *)
Definition read_phoneme (h : heap) (l : loc) : option (str * Q * Q) :=
  match h !! l with
  | Some (CPhoneme a b e) => Some (a, b, e)
  | _ => None
  end.

Definition read_art_seg (h : heap) (l : loc) : option ArticulationSegmentInfo :=
  match h !! l with
  | Some (CArtSeg (Some t) (Some p) (Some b)) =>
      match h !! p, h !! b with
      | Some (CAtoms atoms), Some (CTimes times) =>
          Some {| as_type := t; as_phonemes := atoms; as_boundaries := times |}
      | _, _ => None
      end
  | _ => None
  end.

Definition read_segment (h : heap) (l : loc) : option SegmentInfo :=
  match h !! l with
  | Some (CSegmentInfo (Some wo) (Some wc) (Some p) (Some q)) =>
      match h !! p, h !! q with
      | Some (CRefs entries), Some (CRefs art_segs) =>
          ps ← mapM (read_phoneme h) entries;
          qs ← mapM (read_art_seg h) art_segs;
          Some {| wav_offset := wo; wav_cutoff := wc;
                  phoneme_list := ps; art_seg_list := qs |}
      | _, _ => None
      end
  | _ => None
  end.

(** The segment value as an operation of the heap monad: what a function
    that only reads the attributes of a segment gets to see. *)
Definition inspect (l : loc) : M SegmentInfo :=
  fun h =>
    match read_segment h l with
    | Some v => (Returns v, h)
    | None => (Raises TypeError, h)
    end.

(** The articulation segment [a] with other atoms. *)
Definition renamed_art_seg (a : ArticulationSegmentInfo) (atoms : list str)
    : ArticulationSegmentInfo :=
  {| as_type := as_type a; as_phonemes := atoms; as_boundaries := as_boundaries a |}.

(** [replace_phoneme] on the contents alone. *)
Definition rename_atom (old_phonemes new_phonemes : list str) (atom : str) : str :=
  if py_in atom old_phonemes then
    match substitute old_phonemes new_phonemes atom with
    | Returns atom' => atom'
    | Raises _ => atom
    end
  else atom.

Definition replace_phoneme_value (old_phonemes new_phonemes : list str)
    (v : SegmentInfo) : SegmentInfo :=
  {| wav_offset := wav_offset v;
     wav_cutoff := wav_cutoff v;
     phoneme_list :=
       List.map (fun p : str * Q * Q =>
                   (rename_atom old_phonemes new_phonemes p.1.1, p.1.2, p.2))
                (phoneme_list v);
     art_seg_list :=
       List.map (fun a => renamed_art_seg a
                            (List.map (rename_atom old_phonemes new_phonemes)
                                      (as_phonemes a)))
                (art_seg_list v) |}.

(** The two loops of [replace_phoneme] on the contents, with the point
    at which an exception interrupts them: the outcome, and the contents as
    the loop leaves them. *)
Fixpoint rename_entries (old_phonemes new_phonemes : list str)
    (ps : list (str * Q * Q)) : result unit * list (str * Q * Q) :=
  match ps with
  | [] => (Returns tt, [])
  | p :: rest =>
      if py_in p.1.1 old_phonemes then
        match substitute old_phonemes new_phonemes p.1.1 with
        | Returns atom =>
            let '(r, rest') := rename_entries old_phonemes new_phonemes rest in
            (r, (atom, p.1.2, p.2) :: rest')
        | Raises e => (Raises e, p :: rest)
        end
      else
        let '(r, rest') := rename_entries old_phonemes new_phonemes rest in
        (r, p :: rest')
  end.

Fixpoint rename_atoms (old_phonemes new_phonemes : list str)
    (atoms : list str) : result unit * list str :=
  match atoms with
  | [] => (Returns tt, [])
  | x :: rest =>
      if py_in x old_phonemes then
        match substitute old_phonemes new_phonemes x with
        | Returns atom =>
            let '(r, rest') := rename_atoms old_phonemes new_phonemes rest in
            (r, atom :: rest')
        | Raises e => (Raises e, x :: rest)
        end
      else
        let '(r, rest') := rename_atoms old_phonemes new_phonemes rest in
        (r, x :: rest')
  end.

Fixpoint rename_art_segs (old_phonemes new_phonemes : list str)
    (qs : list ArticulationSegmentInfo) : result unit * list ArticulationSegmentInfo :=
  match qs with
  | [] => (Returns tt, [])
  | a :: rest =>
      let '(r, atoms') := rename_atoms old_phonemes new_phonemes (as_phonemes a) in
      match r with
      | Returns _ =>
          let '(r', rest') := rename_art_segs old_phonemes new_phonemes rest in
          (r', renamed_art_seg a atoms' :: rest')
      | Raises e => (Raises e, renamed_art_seg a atoms' :: rest)
      end
  end.

Definition replace_phoneme_run (old_phonemes new_phonemes : list str)
    (v : SegmentInfo) : result unit * SegmentInfo :=
  let '(r, ps') := rename_entries old_phonemes new_phonemes (phoneme_list v) in
  match r with
  | Returns _ =>
      let '(r', qs') := rename_art_segs old_phonemes new_phonemes (art_seg_list v) in
      (r', {| wav_offset := wav_offset v; wav_cutoff := wav_cutoff v;
              phoneme_list := ps'; art_seg_list := qs' |})
  | Raises e =>
      (Raises e, {| wav_offset := wav_offset v; wav_cutoff := wav_cutoff v;
                    phoneme_list := ps'; art_seg_list := art_seg_list v |})
  end.

(** The references that a cell holds. *)
Definition cell_refs (c : cell) : list loc :=
  match c with
  | CPhoneme _ _ _ | CAtoms _ | CTimes _ => []
  | CRefs refs => refs
  | CArtSeg _ p b => option_list p ++ option_list b
  | CSegmentInfo _ _ p q => option_list p ++ option_list q
  end.

(** Every reference held in the cells [ext] points at or above [base]:
    none of them leads to an object that existed before. *)
Definition refs_from (base : loc) (ext : list cell) : Prop :=
  Forall (fun c => Forall (fun l => (base <= l)%nat) (cell_refs c)) ext.

(* ===================================================================== *)
(** * oto2seg_cvvc.py: coverage completion *)
(* ===================================================================== *)

(** An entry of [cvvc_map]: a reference to the producing segment and the
    path of its clip. *)
Record CvvcEntry := mkCvvcEntry {
  seg_info : loc;
  entry_wav_file : str
}.

Section Completion.

(** The tables of [phoneme.py]. *)
Variable vowel_variant_list : list (list str).
Variable consonant_variant_list : list (list str).
Variable vc_list : list str.
Variable vr_list : list str.
Variable plosive_consonant_list : list str.
Variable hiragana_map : list JPhonemeMapItem.

(** The inner loop of [find_alternative_vc] for one [alter_consonant]. *)
Fixpoint search_vowels {V} (vc_hit_list : gmap str V) (alter_consonant : str)
    (vowel_variants : list str) : option str :=
  match vowel_variants with
  | [] => None
  | alter_vowel :: rest =>
      let alter_vc_name := alter_vowel ++ lit " " ++ alter_consonant in
      if bool_decide (is_Some (vc_hit_list !! alter_vc_name))
      then Some alter_vc_name
      else search_vowels vc_hit_list alter_consonant rest
  end.

Fixpoint search_consonants {V} (vc_hit_list : gmap str V)
    (vowel_variants consonant_variants : list str) : str :=
  match consonant_variants with
  | [] => []
  | alter_consonant :: rest =>
      match search_vowels vc_hit_list alter_consonant vowel_variants with
      | Some alter_vc_name => alter_vc_name
      | None => search_consonants vc_hit_list vowel_variants rest
      end
  end.

Definition find_alternative_vc {V} (vc_name : str) (vc_hit_list : gmap str V)
    : result str :=
  match split_space1 vc_name with
  | None => Raises ValueError
  | Some (vowel, consonant0) =>
      let vowel_variants := get_vowel_variants vowel_variant_list vowel in
      let consonant_variants :=
        get_consonant_variants consonant_variant_list consonant0 in
      Returns (search_consonants vc_hit_list vowel_variants consonant_variants)
  end.

Fixpoint search_vr {V} (vr_hit_list : gmap str V) (vowel_variants : list str) : str :=
  match vowel_variants with
  | [] => []
  | alter_vowel :: rest =>
      if bool_decide (is_Some (vr_hit_list !! (alter_vowel ++ lit " -")))
      then alter_vowel
      else search_vr vr_hit_list rest
  end.

Definition find_alternative_vr {V} (vowel : str) (vr_hit_list : gmap str V) : str :=
  search_vr vr_hit_list (get_vowel_variants vowel_variant_list vowel).

(** One iteration of the loop over [vc_miss_list] up to the call of the
    emitter: the segment to emit and its clip, or nothing when no
    alternative exists. *)
Definition substitute_vc (cvvc_map : gmap str CvvcEntry) (vc_name : str)
    : M (option (str * loc)) :=
  '(vowel, consonant0) ← lift (match split_space1 vc_name with
                               | Some vc => Returns vc
                               | None => Raises ValueError
                               end);
  alternative_vc ← lift (find_alternative_vc vc_name cvvc_map);
  match alternative_vc with
  | [] => mret None
  | _ :: _ =>
      '(alternative_v, alternative_c) ← lift (match split_space1 alternative_vc with
                                              | Some vc => Returns vc
                                              | None => Raises ValueError
                                              end);
      alternative_info ← lift (match cvvc_map !! alternative_vc with
                               | Some info => Returns info
                               | None => Raises KeyError
                               end);
      new_seg_info ← replace_phoneme (seg_info alternative_info)
                                     [alternative_c] [consonant0];
      mret (Some (entry_wav_file alternative_info, new_seg_info))
  end.

(** One iteration of the loop over [vr_miss_list], likewise. *)
Definition substitute_vr (cvvc_map : gmap str CvvcEntry) (vowel : str)
    : M (option (str * loc)) :=
  let alternative_vr := find_alternative_vr vowel cvvc_map in
  match alternative_vr with
  | [] => mret None
  | _ :: _ =>
      alternative_info ← lift (match cvvc_map !! (alternative_vr ++ lit " -") with
                               | Some info => Returns info
                               | None => Raises KeyError
                               end);
      new_seg_info ← replace_phoneme (seg_info alternative_info)
                                     [alternative_vr] [vowel];
      mret (Some (entry_wav_file alternative_info, new_seg_info))
  end.

(** The entries that one emitted segment adds to [cvvc_map]. *)
Definition record_segment (wav_file_resolved : str) (seg : loc) (v : SegmentInfo)
    (cvvc_map : gmap str CvvcEntry) : result (gmap str CvvcEntry) :=
  let entry := {| seg_info := seg; entry_wav_file := wav_file_resolved |} in
  fold_left
    (fun acc art_seg =>
       m ← acc;
       if str_eqb (as_type art_seg) (lit "vc") || str_eqb (as_type art_seg) (lit "cv")
       then Returns (<[join (lit " ") (as_phonemes art_seg) := entry]> m)
       else if str_eqb (as_type art_seg) (lit "vr")
       then a0 ← py_nth (as_phonemes art_seg) 0;
            Returns (<[a0 ++ lit " -" := entry]> m)
       else Returns m)
    (art_seg_list v) (Returns cvvc_map).

(** [generate_articulation_from_oto]. The index is the list of its
    clips in order of insertion, each with its resolved path and its
    entries; [clip_length] is the length of a clip as the audio file
    reports it. The value is the list of the emitted segments in the
    order of their emission. *)
Definition emit (clip_length : str -> Q) (wav_file_resolved : str) (seg : loc)
    : M Emission :=
  v ← inspect seg;
  mret (generate_articulation_files (clip_length wav_file_resolved) v).

Definition process_clip (clip_length : str -> Q)
    (state : gmap str CvvcEntry * list Emission) (oto_list : list OtoInfo)
    : M (gmap str CvvcEntry * list Emission) :=
  match oto_list with
  | [] => mret state
  | first :: _ =>
      let wav_file_resolved := wav_file first in
      let seg_info_list :=
        generate_articulation_segment_info plosive_consonant_list hiragana_map oto_list in
      segs ← map_each seg_info_list alloc_segment;
      foldl (fun acc seg =>
               '(cvvc_map, emitted) ← acc;
               e ← emit clip_length wav_file_resolved seg;
               v ← inspect seg;
               cvvc_map ← lift (record_segment wav_file_resolved seg v cvvc_map);
               mret (cvvc_map, emitted ++ [e]))
            (mret state) segs
  end.

Definition generate_articulation_from_oto (clip_length : str -> Q)
    (oto_dict : list (str * list OtoInfo)) : M (list Emission) :=
  '(cvvc_map, emitted) ←
     foldl (fun acc item => state ← acc; process_clip clip_length state item.2)
           (mret (∅, [])) oto_dict;
  let vc_miss_list :=
    List.filter (fun vc => negb (bool_decide (is_Some (cvvc_map !! vc)))) vc_list in
  let vr_miss_list :=
    List.filter (fun vr => negb (bool_decide (is_Some (cvvc_map !! (vr ++ lit " -")))))
                vr_list in
  emitted ←
    foldl (fun acc vc_name =>
             emitted ← acc;
             found ← substitute_vc cvvc_map vc_name;
             match found with
             | Some (clip, new_seg_info) =>
                 e ← emit clip_length clip new_seg_info; mret (emitted ++ [e])
             | None => mret emitted
             end)
          (mret emitted) vc_miss_list;
  foldl (fun acc vowel =>
           emitted ← acc;
           found ← substitute_vr cvvc_map vowel;
           match found with
           | Some (clip, new_seg_info) =>
               e ← emit clip_length clip new_seg_info; mret (emitted ++ [e])
           | None => mret emitted
           end)
        (mret emitted) vr_miss_list.

End Completion.

(** Lists of times are compared up to equality of rationals. *)
Definition Qlist_eq (xs ys : list Q) : Prop := Forall2 Qeq xs ys.

Fixpoint Qlist_eqb (xs ys : list Q) : bool :=
  match xs, ys with
  | [], [] => true
  | x :: xs', y :: ys' => Qeq_bool x y && Qlist_eqb xs' ys'
  | _, _ => false
  end.

(** Every adjacent gap of the sequence is at least [d]. *)
Fixpoint gaps_ge (d : Q) (bs : list Q) : Prop :=
  match bs with
  | x :: ((y :: _) as tl) => d <= y - x /\ gaps_ge d tl
  | _ => True
  end.

Definition nondecreasing (bs : list Q) : Prop := gaps_ge 0 bs.

(* ===================================================================== *)
(** * Sample data *)
(* ===================================================================== *)

(** A dictionary in the shape of [hiragana.json] with a few entries, for
    the examples: the kana U+3042 (a), U+304B (ka), U+3055 (sa), U+3093 (n)
    and three consonant-only entries. *)
Definition sample_hiragana_map : list JPhonemeMapItem :=
  [ mkItem [12354%N] (lit "a") [lit "a"] (lit "vowel");
    mkItem [12363%N] (lit "ka") [lit "k"; lit "a"] (lit "consonant");
    mkItem [12373%N] (lit "sa") [lit "s"; lit "a"] (lit "consonant");
    mkItem [12435%N] (lit "n") [lit "N\"] (lit "nasal");
    mkItem [] (lit "k") [lit "k"] (lit "consonant");
    mkItem [] (lit "t") [lit "t"] (lit "consonant");
    mkItem [] (lit "ky") [lit "k'"] (lit "consonant") ].

(** An entry of the index for the alias [a], with offset 100, consonant
    150, cutoff 300, preutterance 120 and overlap 110 (absolute, in ms). *)
Definition sample_entry (a : str) : OtoInfo :=
  mkOtoInfo (lit "sample.wav") a 100 150 300 120 110.

(** The atom of an entry of [phoneme_list]. *)
Definition atom_of (p : str * Q * Q) : str := p.1.1.

(** The adjacent pairs of a sequence, in order. *)
Fixpoint adjacent_pairs {A} (xs : list A) : list (A * A) :=
  match xs with
  | x :: ((y :: _) as tl) => (x, y) :: adjacent_pairs tl
  | _ => []
  end.


(** ["[%s %s %s]" % (p, q, r)] *)
Definition bracket_triple (p q r : str) : str :=
  lit "[" ++ p ++ lit " " ++ q ++ lit " " ++ r ++ lit "]".

(** The two loops of [quantize_boundary] in closed form. [round_at n i b]
    is what the first loop writes at index [i] of a list of [n] boundaries;
    [round_from n i bs] rounds a whole list whose first index is [i];
    [pull_back] is what the second loop leaves of a rounded list. *)
Definition round_at (n_boundary i : nat) (b : Q) : Q :=
  if (i =? 0)%nat then floor_to_sample b
  else if (i =? n_boundary - 1)%nat then ceil_to_sample b
  else floor_to_sample b.

Fixpoint round_from (n_boundary i : nat) (bs : list Q) : list Q :=
  match bs with
  | [] => []
  | b :: bs' => round_at n_boundary i b :: round_from n_boundary (S i) bs'
  end.

Definition pull (x y : Q) : Q :=
  if Qlt_le_dec (y - x) min_length then y - min_length else x.

Fixpoint pull_back (bs : list Q) : list Q :=
  match bs with
  | x :: ((y :: _) as tl) => pull x y :: pull_back tl
  | _ => bs
  end.

(** The distance of two neighbouring sample times, in ms. *)
Definition sample_period : Q := 1000 / sample_rate.

(** [unescape_xsampa] (functions.py, lines 143 to 147). First
    [re.sub(r"([a-z])#", lambda x: x.group(1).upper(), xsampa)]: scanning
    from the left, a lowercase Latin letter followed by [#] becomes the
    uppercase letter; then the six [replace] calls, in the order of the
    source. *)
Definition is_lower (c : char) : bool := ((97 <=? c) && (c <=? 122))%N.
Definition is_upper (c : char) : bool := ((65 <=? c) && (c <=? 90))%N.

Fixpoint sub_lower_hash (s : str) : str :=
  match s with
  | [] => []
  | c :: tl =>
      match tl with
      | d :: rest =>
          if is_lower c && (d =? 35)%N
          then (c - 32)%N :: sub_lower_hash rest
          else c :: sub_lower_hash tl
      | [] => [c]
      end
  end.

(** [s.replace(a, b)] for one-character strings [a] and [b]. *)
Definition replace_char (a b : char) (s : str) : str :=
  List.map (fun c => if (c =? a)%N then b else c) s.

Definition unescape_xsampa (xsampa : str) : str :=
  let xsampa := sub_lower_hash xsampa in
  replace_char 41 62                       (* ) to > *)
   (replace_char 40 60                     (* ( to < *)
    (replace_char 59 58                    (* ; to : *)
     (replace_char 33 63                   (* ! to ? *)
      (replace_char 126 47                 (* ~ to / *)
       (replace_char 45 92 xsampa))))).    (* - to \ *)

(** The characters that [escape_xsampa] writes in place of others:
    [- ~ ! ; ( )] and [#]. *)
Definition is_escape_mark (c : char) : bool :=
  bool_decide (c ∈ [45; 126; 33; 59; 40; 41; 35]%N).

(** A character that [escape_xsampa] is there to remove: an uppercase Latin
    letter or one of [\ / ? : < >]. *)
Definition is_escaped_away (c : char) : bool :=
  is_upper c || bool_decide (c ∈ [92; 47; 63; 58; 60; 62]%N).

(** The character that the six [replace] calls of [escape_xsampa] leave
    in place of [c]. *)
Definition escape_base (c : char) : char :=
  if (c =? 92)%N then 45%N
  else if (c =? 47)%N then 126%N
  else if (c =? 63)%N then 33%N
  else if (c =? 58)%N then 59%N
  else if (c =? 60)%N then 40%N
  else if (c =? 62)%N then 41%N
  else c.

(** What the patterns mean, independently of the matcher: [matches r pre
    rest] says that [r] matches exactly [pre] when [rest] is what follows
    [pre] in the subject. ([$] looks at what follows.) *)
Inductive matches : regex -> str -> str -> Prop :=
| matches_eps rest : matches Eps [] rest
| matches_cls cs c rest : in_charset c cs = true -> matches (Cls cs) [c] rest
| matches_cat r1 r2 p1 p2 rest :
    matches r1 p1 (p2 ++ rest) -> matches r2 p2 rest ->
    matches (Cat r1 r2) (p1 ++ p2) rest
| matches_alt_l r1 r2 p rest : matches r1 p rest -> matches (Alt r1 r2) p rest
| matches_alt_r r1 r2 p rest : matches r2 p rest -> matches (Alt r1 r2) p rest
| matches_plus_one r p rest : matches r p rest -> matches (Plus r) p rest
| matches_plus_more r p1 p2 rest :
    matches r p1 (p2 ++ rest) -> matches (Plus r) p2 rest ->
    matches (Plus r) (p1 ++ p2) rest
| matches_opt_none r rest : matches (Opt r) [] rest
| matches_opt_some r p rest : matches r p rest -> matches (Opt r) p rest
| matches_eol rest : rest = [] \/ rest = [NEWLINE] -> matches Eol [] rest.

(** The seven articulation types that the classifier assigns. *)
Definition type_tags : list string := ["rv"; "rc"; "rcv"; "vr"; "vv"; "vc"; "cv"]%string.

(** The characters that a pattern can consume, and whether a pattern ends
    with [$]. *)
Fixpoint alphabet (r : regex) : charset :=
  match r with
  | Empty | Eps | Eol => []
  | Cls cs => cs
  | Cat r1 r2 | Alt r1 r2 => alphabet r1 ++ alphabet r2
  | Plus r1 | Opt r1 => alphabet r1
  end.

Fixpoint anchored (r : regex) : bool :=
  match r with
  | Eol => true
  | Cat _ r2 => anchored r2
  | _ => false
  end.

Definition charset_disjoint (cs1 cs2 : charset) : bool :=
  forallb (fun r1 => forallb (fun r2 => (r1.2 <? r2.1)%N || (r2.2 <? r1.1)%N) cs2) cs1.

(** The type tags that an articulation segment of a derived segment can
    carry: the tag [rcv] of the classifier becomes [rc]. *)
Definition art_seg_tags : list string := ["rc"; "rv"; "vv"; "cv"; "vc"; "vr"]%string.

(** Whether every match of a pattern holds the character [c]. *)
Fixpoint requires_char (c : char) (r : regex) : bool :=
  match r with
  | Empty => true
  | Eps | Eol | Opt _ => false
  | Cls cs => match cs with
              | [(lo, hi)] => (lo =? c)%N && (hi =? c)%N
              | _ => false
              end
  | Cat r1 r2 => requires_char c r1 || requires_char c r2
  | Alt r1 r2 => requires_char c r1 && requires_char c r2
  | Plus r1 => requires_char c r1
  end.

(** Every entry of [cvvc_map] refers to a complete segment of the heap. *)
Definition map_readable (h : heap) (cvvc_map : gmap str CvvcEntry) : Prop :=
  forall k info, cvvc_map !! k = Some info -> is_Some (read_segment h (seg_info info)).

(** A recorded VC unit and a recorded VR unit for the examples, and a
    coverage map that holds just one of them, placed at address 0. *)
Definition sample_vc_donor : SegmentInfo :=
  {| wav_offset := 100; wav_cutoff := 300;
     phoneme_list := [(lit "N", 100, 120); (lit "k", 120, 225)];
     art_seg_list := [{| as_type := lit "vc"; as_phonemes := [lit "N"; lit "k"];
                         as_boundaries := [100; 120; 225] |}] |}.

Definition sample_vr_donor : SegmentInfo :=
  {| wav_offset := 100; wav_cutoff := 300;
     phoneme_list := [(lit "N", 100, 120); (Sil, 120, 140)];
     art_seg_list := [{| as_type := lit "vr"; as_phonemes := [lit "N"; Sil];
                         as_boundaries := [110; 120; 140] |}] |}.

Definition sample_vc_map : gmap str CvvcEntry :=
  {[ lit "N k" := {| seg_info := 0%nat; entry_wav_file := lit "nk.wav" |} ]}.

Definition sample_vr_map : gmap str CvvcEntry :=
  {[ lit "N -" := {| seg_info := 0%nat; entry_wav_file := lit "n.wav" |} ]}.

(** The articulation segments of [v] can all be entered in the coverage
    map: a [vr] segment has a first atom. *)
Definition recordable (v : SegmentInfo) : Prop :=
  Forall (fun a => as_type a = lit "vr" -> as_phonemes a <> []) (art_seg_list v).

(* ===================================================================== *)
(** * functions.py: reading the index *)
(* ===================================================================== *)

(** [s.split(sep)] for a one-character separator: every occurrence cuts. *)
Fixpoint py_split (sep : char) (s : str) : list str :=
  match s with
  | [] => [[]]
  | c :: s' =>
      if (c =? sep)%N then [] :: py_split sep s'
      else match py_split sep s' with
           | p :: ps => (c :: p) :: ps
           | [] => [[c]]
           end
  end.

(** [oto_dict], a [dict] from clip names to lists of entries, in the order
    in which the keys were inserted. *)
Definition has_key (k : str) (d : list (str * list OtoInfo)) : bool :=
  existsb (fun kv => str_eqb kv.1 k) d.

(** [if wav_file not in oto_dict: oto_dict[wav_file] = []] *)
Definition ensure_key (k : str) (d : list (str * list OtoInfo))
    : list (str * list OtoInfo) :=
  if has_key k d then d else d ++ [(k, [])].

(** [oto_dict[wav_file].append(oto_info)] *)
Definition append_entry (k : str) (x : OtoInfo) (d : list (str * list OtoInfo))
    : list (str * list OtoInfo) :=
  List.map (fun kv => if str_eqb kv.1 k then (kv.1, kv.2 ++ [x]) else kv) d.

(** [oto_list.sort(key=lambda x: x.preutterance)]: the sort of Python is
    stable; on keys that are totally ordered its result is that of the
    stable insertion sort. *)
Fixpoint insert_by_preutterance (x : OtoInfo) (l : list OtoInfo) : list OtoInfo :=
  match l with
  | [] => [x]
  | y :: l' =>
      if Qlt_le_dec (preutterance x) (preutterance y) then x :: y :: l'
      else y :: insert_by_preutterance x l'
  end.

Definition sort_by_preutterance (l : list OtoInfo) : list OtoInfo :=
  fold_left (fun sorted x => insert_by_preutterance x sorted) l [].

Section ReadOto.

(** What [read_oto] takes from its surroundings: [path.join(oto_path, _)],
    [path.isfile], the length in ms that the header of a clip gives, and
    [float], which raises [ValueError] on a string that is not a number. *)
Variable resolve : str -> str.
Variable isfile : str -> bool.
Variable clip_length : str -> Q.
Variable float : str -> result Q.

(** The body of the loop over the lines of the file. *)
Definition read_oto_line (oto_dict : list (str * list OtoInfo)) (line : str)
    : result (list (str * list OtoInfo)) :=
  let line := strip line in
  if bool_decide (line = []) || bool_decide (head line = Some 35%N)
     || bool_decide (head line = Some 59%N)
  then Returns oto_dict
  else
    match py_split 61 line with
    | [wav_file0; oto_params] =>
        let oto_dict := ensure_key wav_file0 oto_dict in
        let wav_file_resolved := resolve wav_file0 in
        if negb (isfile wav_file_resolved) then Returns oto_dict
        else
          let wav_length := clip_length wav_file_resolved in
          match py_split 44 oto_params with
          | [alias0; offset0; consonant0; cutoff0; preutterance0; overlap0] =>
              offset0 ← float offset0;
              consonant0 ← float consonant0;
              cutoff0 ← float cutoff0;
              preutterance0 ← float preutterance0;
              overlap0 ← float overlap0;
              Returns (append_entry wav_file0
                         (read_oto_entry wav_file_resolved alias0 wav_length
                            offset0 consonant0 cutoff0 preutterance0 overlap0)
                         oto_dict)
          | _ => Raises ValueError
          end
    | _ => Raises ValueError
    end.

Definition read_oto (lines : list str) : result (list (str * list OtoInfo)) :=
  oto_dict ← fold_left (fun acc line => d ← acc; read_oto_line d line) lines (Returns []);
  Returns (List.map (fun kv => (kv.1, sort_by_preutterance kv.2)) oto_dict).

End ReadOto.

(** A list of entries in the order of their preutterance. *)
Fixpoint sorted_by_preutterance (l : list OtoInfo) : Prop :=
  match l with
  | x :: ((y :: _) as tl) => preutterance x <= preutterance y /\ sorted_by_preutterance tl
  | _ => True
  end.

(** The consonant atoms that have a row in the consonant-to-nasal table. *)
Definition nasal_table_consonants : list str :=
  alveolar_consonants ++ labial_consonants ++ velar_consonants
  ++ [palatal_consonant] ++ palatalized_velar_consonants.

(** The sample dictionary with one more consonant-only entry, the
    alveolar fricative [s]. *)
Definition fricative_sample_map : list JPhonemeMapItem :=
  sample_hiragana_map ++ [mkItem [] (lit "s") [lit "s"] (lit "consonant")].


(** Every entry of [cvvc_map] refers to a complete segment of the heap
    that has two phoneme entries. *)
Definition map_paired (h : heap) (cvvc_map : gmap str CvvcEntry) : Prop :=
  forall k info, cvvc_map !! k = Some info ->
    exists v, read_segment h (seg_info info) = Some v /\
              length (phoneme_list v) = 2%nat.

(* ===================================================================== *)
(** * Properties: the pronunciation index *)
(* ===================================================================== *)

Lemma pymax_ge_l a b : a <= pymax a b.
Proof. unfold pymax. destruct (Qlt_le_dec a b); lra. Qed.

Lemma pymax_ge_r a b : b <= pymax a b.
Proof. unfold pymax. destruct (Qlt_le_dec a b); lra. Qed.

Lemma pymin_Qmin a b : pymin a b == Qmin a b.
Proof.
  unfold pymin. destruct (Qlt_le_dec b a) as [H|H].
  - symmetry. apply Q.min_r. lra.
  - symmetry. apply Q.min_l. exact H.
Qed.

(** The anchors that [read_oto] makes absolute are never negative. *)
Lemma read_oto_entry_nonnegative wf al wav_length o c k p v :
  let r := read_oto_entry wf al wav_length o c k p v in
  0 <= consonant r /\ 0 <= preutterance r /\ 0 <= overlap r.
Proof. simpl. repeat split; apply pymax_ge_r. Qed.

(** What the source computes for a positive stored cutoff: the stored
    magnitude itself does not enter the result. *)
Lemma read_oto_entry_positive_cutoff wf al wav_length o c k p v :
  0 < k ->
  cutoff (read_oto_entry wf al wav_length o c k p v)
  = pymax (pymax (o + c) 0 + 0.1) (wav_length - o).
Proof.
  intros Hk. unfold read_oto_entry. simpl.
  destruct (Qlt_le_dec 0 k) as [_|H]; [reflexivity | lra].
Qed.

(** C1, as stated, fails: with a clip of 1000 ms, offset 900 and stored
    cutoff -200 the normalized cutoff is 1000 (capped at the clip length),
    not 900 + 200; with offset 100, stored consonant 50 and stored cutoff 200
    it is 900, not 1000 - 200. *)
Lemma read_oto_cutoff_counterexample :
  (let r := read_oto_entry (lit "a.wav") (lit "a") 1000 900 50 (-200) 30 10 in
   cutoff r == 1000 /\ ~ cutoff r == 900 + 200) /\
  (let r := read_oto_entry (lit "a.wav") (lit "a") 1000 100 50 200 30 10 in
   cutoff r == 900 /\ ~ cutoff r == 1000 - 200).
Proof. vm_compute. repeat split; discriminate. Qed.

(** C1 (amended): a non-positive stored cutoff is normalized to the offset
    plus the magnitude of the stored value, capped at the clip length; a
    positive stored cutoff is normalized to a position that lies at least
    0.1 ms after the normalized consonant anchor. *)
Theorem read_oto_cutoff_normalization wf al wav_length o c k p v :
  let r := read_oto_entry wf al wav_length o c k p v in
  (k <= 0 -> cutoff r == Qmin wav_length (o + Qabs k)) /\
  (0 < k -> consonant r + 0.1 <= cutoff r).
Proof.
  simpl. split; intros Hk.
  - destruct (Qlt_le_dec 0 k) as [H|_]; [lra |].
    rewrite pymin_Qmin. rewrite (Qabs_neg k Hk).
    assert (E : o + -1 * k == o + - k) by ring. rewrite E. reflexivity.
  - destruct (Qlt_le_dec 0 k) as [_|H]; [| lra]. apply pymax_ge_l.
Qed.

Lemma read_oto_cutoff_normalization_witness :
  cutoff (read_oto_entry (lit "a.wav") (lit "a") 1000 900 50 (-200) 30 10)
    == Qmin 1000 (900 + Qabs (-200)) /\
  consonant (read_oto_entry (lit "a.wav") (lit "a") 1000 100 50 200 30 10) + 0.1
    <= cutoff (read_oto_entry (lit "a.wav") (lit "a") 1000 100 50 200 30 10).
Proof.
  split.
  - apply (proj1 (read_oto_cutoff_normalization
                    (lit "a.wav") (lit "a") 1000 900 50 (-200) 30 10)).
    vm_compute. discriminate.
  - apply (proj2 (read_oto_cutoff_normalization
                    (lit "a.wav") (lit "a") 1000 100 50 200 30 10)).
    vm_compute. reflexivity.
Defined.

(* ===================================================================== *)
(** * Properties: quantization *)
(* ===================================================================== *)

(** C3, at the failing input: the boundaries 0, 12, 15 ms are
    non-decreasing; the second loop first accepts the gap between the first
    two, then pulls the second back to 10 ms before the third, which leaves
    only 2210/441 ms (about 5.01 ms) between the first two. The result is
    still non-decreasing, but not every gap is 10 ms or more. *)
Theorem quantize_gap_violation :
  let out := quantize_boundary [0; 12; 15] in
  nondecreasing [0; 12; 15] /\
  Qlist_eq out [0; 2210 # 441; 6620 # 441] /\
  nondecreasing out /\
  ~ gaps_ge 10 out.
Proof.
  vm_compute. repeat split; try discriminate.
  - repeat constructor.
  - intros [H _]. apply H. reflexivity.
Qed.

(** C8, at the failing input: for the boundaries 100, 102, 110 ms
    [quantize_boundary] returns 40570/441 (about 91.995), 100 and 110 ms,
    whose first gap is about 8.005 ms. A second application finds that gap
    below the minimum and moves the first boundary to 90 ms, so that it
    does not return the sequence it was given. A third application changes
    nothing more. *)
Theorem quantize_not_idempotent :
  let once := quantize_boundary [100; 102; 110] in
  let twice := quantize_boundary once in
  Qlist_eq once [40570 # 441; 100; 110] /\
  Qlist_eq twice [90; 100; 110] /\
  ~ Qlist_eq twice once /\
  Qlist_eq (quantize_boundary twice) twice.
Proof.
  vm_compute. repeat split; try discriminate; try (repeat constructor; fail).
  intros H. inversion H as [| ? ? ? ? Hhd _]; subst. discriminate Hhd.
Qed.

(* ===================================================================== *)
(** * Properties: the emitter *)
(* ===================================================================== *)

(** C10: whichever branch is taken, the time shift is [100 - wav_offset],
    and the re-based start of the segment is the bleed margin. *)
Theorem emitter_rebases_to_bleed_margin (wav_length : Q) (seg : SegmentInfo) :
  let e := generate_articulation_files wav_length seg in
  em_time_delta e == 100 - wav_offset seg /\
  em_relative_wav_offset e == bleed_time.
Proof.
  unfold generate_articulation_files, bleed_time. simpl.
  destruct (Qlt_le_dec (wav_offset seg) 100); split; ring.
Qed.

(** The two cases of C10 apart: silence is prepended exactly when the
    segment starts less than the bleed margin into the clip, and then the
    slice starts at 0. *)
Lemma emitter_leading_silence (wav_length : Q) (seg : SegmentInfo) :
  let e := generate_articulation_files wav_length seg in
  (wav_offset seg < 100 ->
     em_append_silent_start e == 100 - wav_offset seg /\ em_wav_start_time e == 0) /\
  (100 <= wav_offset seg ->
     em_append_silent_start e == 0 /\ em_wav_start_time e == wav_offset seg - 100).
Proof.
  unfold generate_articulation_files, bleed_time, pymax. simpl.
  split; intros H; destruct (Qlt_le_dec (wav_offset seg) 100);
    destruct (Qlt_le_dec 0 (wav_offset seg - 100)); split; lra.
Qed.

Lemma lookup_app_two {A} (before : list A) (x y : A) (tl : list A) :
  (before ++ x :: y :: tl) !! length before = Some x /\
  (before ++ x :: y :: tl) !! (length before + 1)%nat = Some y.
Proof. induction before as [| b before IH]; [split; reflexivity | exact IH]. Qed.



(** The generator has no rule for triples: a list of three atoms whose
    middle atom is not a vowel would get its two pairs. (No segment of this
    mode has three atoms, see [run_emits_pairs] below.) *)
Remark trans_content_three_atoms :
  let seg_info := [(lit "a", 100, 120); (lit "k", 120, 150); (lit "a", 150, 200)] in
  xsampa_is_vowel (lit "k") = false /\
  trans_content seg_info = [lit "a k a"; lit "[a k]"; lit "[k a]"] /\
  ~ In (bracket_triple (lit "a") (lit "k") (lit "a")) (trans_content seg_info).
Proof.
  vm_compute. repeat split.
  intros [H | [H | [H | []]]]; discriminate H.
Qed.

Lemma adjacent_pairs_length {A} (xs : list A) :
  length (adjacent_pairs xs) = (length xs - 1)%nat.
Proof.
  induction xs as [| x [| y tl] IH]; [reflexivity | reflexivity |].
  change (S (length (adjacent_pairs (y :: tl))) = (length (x :: y :: tl) - 1)%nat).
  rewrite IH. cbn [length]. lia.
Qed.

(** The number of lines of the transition list of [n] atoms is [n], for
    [n >= 1]: one line of atoms and [n - 1] pairs. *)
Lemma trans_content_length (seg_info : list (str * Q * Q)) :
  length (trans_content seg_info) = S (length seg_info - 1).
Proof.
  unfold trans_content. cbn [app length].
  rewrite length_map, length_seq. reflexivity.
Qed.

(* ===================================================================== *)
(** * Properties: the alias classifier *)
(* ===================================================================== *)

Lemma str_eqb_eq (a b : str) : str_eqb a b = true <-> a = b.
Proof. unfold str_eqb. apply bool_decide_eq_true. Qed.

Lemma str_eqb_refl (a : str) : str_eqb a a = true.
Proof. apply str_eqb_eq. reflexivity. Qed.

(** C4, at the failing input: whatever the dictionary, the alias [a ka]
    (a vowel token, then a consonant-plus-vowel token) reaches the V-C-V
    branch, which does nothing, and the classifier returns the object it
    created at the start, with no type and no atoms. *)
Theorem vcv_alias_returns_unclassified (hiragana_map : list JPhonemeMapItem)
    (wf : str) (o c k p v : Q) :
  get_oto_entry_phoneme_info hiragana_map (mkOtoInfo wf (lit "a ka") o c k p v)
  = Returns (Some new_entry)
  /\ ep_type new_entry = None /\ ep_phoneme_list new_entry = None.
Proof. repeat split. Qed.

(** The same alias, with the syllabary for the second token (U+304B). *)
Lemma vcv_kana_alias_returns_unclassified (hiragana_map : list JPhonemeMapItem)
    (wf : str) (o c k p v : Q) :
  get_oto_entry_phoneme_info hiragana_map
    (mkOtoInfo wf (lit "a " ++ [12363%N]) o c k p v)
  = Returns (Some new_entry).
Proof. reflexivity. Qed.

(** The caller reads the type of that object, which raises; the unit is
    then reported and skipped like one whose classification failed. *)
Lemma vcv_alias_is_skipped (plosive : list str) (hiragana_map : list JPhonemeMapItem)
    (wf : str) (o c k p v : Q) :
  segment_of_entry plosive hiragana_map (mkOtoInfo wf (lit "a ka") o c k p v)
  = Raises AttributeError.
Proof. reflexivity. Qed.

(** An alias that no branch matches raises. *)
Example unknown_alias_raises (hiragana_map : list JPhonemeMapItem) :
  get_oto_entry_phoneme_info hiragana_map
    (mkOtoInfo (lit "x.wav") (lit "???") 0 0 0 0 0)
  = Raises (Exception (lit "[Unknown Type] Invalid phoneme info for ???")).
Proof. reflexivity. Qed.

Lemma get_romaji_info_romaji hm x item :
  get_romaji_info hm x = Some item -> romaji item = x /\ In item hm.
Proof.
  induction hm as [| i rest IH]; [discriminate |].
  cbn [get_romaji_info]. destruct (str_eqb (romaji i) x) eqn:E.
  - intros [= <-]. split; [apply str_eqb_eq, E | left; reflexivity].
  - intros H. destruct (IH H) as [? ?]. split; [assumption | right; assumption].
Qed.

Lemma py_in_In (x : str) (xs : list str) : py_in x xs = true -> In x xs.
Proof.
  unfold py_in. intros H. apply existsb_exists in H as [y [Hy E]].
  apply str_eqb_eq in E. subst. exact Hy.
Qed.

Ltac dead H Ht :=
  first [ discriminate H
        | injection H as <-; vm_compute in Ht; discriminate Ht ].

Lemma rx_type_kana_not_vc atoms t :
  rx_type_kana atoms = Returns t -> lit t <> lit "vc".
Proof.
  unfold rx_type_kana.
  destruct atoms as [| a [| b l]]; try destruct (xsampa_is_vowel a);
    intros [= <-]; vm_compute; discriminate.
Qed.

Lemma rx_type_romaji_not_vc x atoms t :
  rx_type_romaji x atoms = Returns t -> lit t <> lit "vc".
Proof.
  unfold rx_type_romaji.
  destruct atoms as [| a [| b [| c l]]]; try destruct (xsampa_is_vowel a);
    intros [= <-]; vm_compute; discriminate.
Qed.

(** The only branch that assigns the type [vc] is the V-C branch, and it
    resolves the two tokens of the alias as follows. *)
Lemma classify_alias_vc (hiragana_map : list JPhonemeMapItem)
    (ret : OtoEntryPhonemeInfo) (item_alias : str) (r : OtoEntryPhonemeInfo) :
  ep_type ret = None ->
  classify_alias hiragana_map ret item_alias = Returns (Some r) ->
  ep_type r = Some (lit "vc") ->
  exists vowel_info consonant_info v0 c0,
    get_romaji_info hiragana_map (char_at item_alias 0) = Some vowel_info /\
    get_romaji_info hiragana_map (drop 2 (chomp item_alias)) = Some consonant_info /\
    phoneme vowel_info !! 0%nat = Some v0 /\
    phoneme consonant_info !! 0%nat = Some c0 /\
    ep_phoneme_list r = Some (nasal_variant v0 c0 :: phoneme consonant_info).
Proof.
  intros Hret H Ht. unfold classify_alias in H.
  destruct item_alias as [| ch rest]; [discriminate H |].
  cbn [py_nth lookup list_lookup mbind result_mbind result_bind] in H.
  remember (ch :: rest) as item_alias eqn:Ealias.
  destruct (ch =? HYPHEN)%N.
  { destruct (re_match re_kana_word _).
    - destruct (get_hiragana_info _ _) as [pi|]; [| discriminate H].
      cbn [mbind result_mbind result_bind] in H.
      destruct (rx_type_kana (phoneme pi)) as [t|] eqn:Et; [| discriminate H].
      injection H as <-. apply rx_type_kana_not_vc in Et.
      cbn [classified ep_type] in Ht. injection Ht as Ht. contradiction.
    - destruct (get_romaji_info _ _) as [pi|]; [| discriminate H].
      cbn [mbind result_mbind result_bind] in H.
      destruct (rx_type_romaji _ (phoneme pi)) as [t|] eqn:Et; [| discriminate H].
      injection H as <-. apply rx_type_romaji_not_vc in Et.
      cbn [classified ep_type] in Ht. injection Ht as Ht. contradiction. }
  destruct (_ =? HYPHEN)%N.
  { destruct (re_match re_vr _); [| discriminate H].
    destruct (get_romaji_info _ _) as [pi|]; [| discriminate H].
    destruct (length (phoneme pi) =? 1)%nat; dead H Ht. }
  destruct (re_match re_vv item_alias).
  { destruct (get_romaji_info _ _) as [i1|]; [| discriminate H].
    destruct (if re_match re_latin_vowel _ then _ else _) as [i2|]; dead H Ht. }
  destruct (re_match re_nv item_alias).
  { destruct (get_hiragana_info _ KANA_N) as [i1|]; [| discriminate H].
    destruct (get_hiragana_info _ _) as [i2|]; dead H Ht. }
  destruct (re_match re_vcv item_alias).
  { injection H as <-. congruence. }
  destruct (re_match re_vc item_alias && negb (re_match re_n_vowel item_alias)).
  { destruct (get_romaji_info _ (char_at _ _)) as [vi|] eqn:Ev; [| discriminate H].
    destruct (get_romaji_info _ (drop _ _)) as [ci|] eqn:Ec; [| discriminate H].
    unfold py_nth in H.
    destruct (phoneme vi !! 0%nat) as [v0|] eqn:Ev0; [| discriminate H].
    cbn [mbind result_mbind result_bind] in H.
    destruct (phoneme ci !! 0%nat) as [c0|] eqn:Ec0; [| discriminate H].
    cbn [mbind result_mbind result_bind] in H.
    injection H as <-.
    exists vi, ci, v0, c0. repeat split; assumption || reflexivity. }
  destruct (re_match re_cv item_alias); [| discriminate H].
  destruct (if re_match re_latin_space_word _ then _ else _) as [pi|]; dead H Ht.
Qed.

(** The table, read off [nasal_variant]. *)
Lemma nasal_variant_table (c0 : str) :
  (py_in c0 alveolar_consonants = true -> nasal_variant NASAL_PLACEHOLDER c0 = lit "n") /\
  (py_in c0 labial_consonants = true -> nasal_variant NASAL_PLACEHOLDER c0 = lit "m") /\
  (py_in c0 velar_consonants = true -> nasal_variant NASAL_PLACEHOLDER c0 = lit "N") /\
  (c0 = palatal_consonant -> nasal_variant NASAL_PLACEHOLDER c0 = lit "J") /\
  (py_in c0 palatalized_velar_consonants = true ->
     nasal_variant NASAL_PLACEHOLDER c0 = lit "N'").
Proof.
  repeat split; intros H.
  1-3, 5: apply py_in_In in H; cbn [alveolar_consonants labial_consonants
            velar_consonants palatalized_velar_consonants List.map In] in H;
          repeat (destruct H as [<- | H]; [reflexivity |]); destruct H.
  subst. reflexivity.
Qed.

(** A vowel atom other than the placeholder, and the placeholder before a
    consonant of none of the five groups, are left as they are. *)
Lemma nasal_variant_other (v0 c0 : str) :
  v0 <> NASAL_PLACEHOLDER \/
  (py_in c0 alveolar_consonants = false /\ py_in c0 labial_consonants = false /\
   py_in c0 velar_consonants = false /\ c0 <> palatal_consonant /\
   py_in c0 palatalized_velar_consonants = false) ->
  nasal_variant v0 c0 = v0.
Proof.
  unfold nasal_variant. intros [H | (H1 & H2 & H3 & H4 & H5)].
  - destruct (str_eqb v0 NASAL_PLACEHOLDER) eqn:E; [| reflexivity].
    apply str_eqb_eq in E. contradiction.
  - rewrite H1, H2, H3, H5.
    destruct (str_eqb c0 palatal_consonant) eqn:E.
    + apply str_eqb_eq in E. contradiction.
    + destruct (str_eqb v0 NASAL_PLACEHOLDER); reflexivity.
Qed.

(* ===================================================================== *)
(** * Properties: boundary derivation *)
(* ===================================================================== *)

(** C7, as stated, fails: with [k] in the table of plosives, the unit [ka]
    with offset 100 and overlap 110 is of type [cv] and has
    [overlap > offset], but its consonant starts at the overlap, 110, and
    not at the midpoint 105. *)
Lemma cv_start_counterexample :
  let e := sample_entry (lit "ka") in
  match get_oto_entry_phoneme_info sample_hiragana_map e with
  | Returns (Some r) => ep_type r = Some (lit "cv")
  | _ => False
  end /\
  offset e < overlap e /\
  match segment_of_entry [lit "k"] sample_hiragana_map e with
  | Returns s =>
      phoneme_list s = [(lit "k", 110, 120); (lit "a", 120, 150)] /\
      ~ 110 == offset e + (overlap e - offset e) / 2
  | Raises _ => False
  end.
Proof. vm_compute. repeat split; discriminate. Qed.

(** C7 (amended): for a unit of type [cv] with two atoms whose first atom
    is not in the table of plosives and whose anchors satisfy
    [overlap > offset], derivation succeeds and the first atom starts at
    [offset + (overlap - offset) / 2]; the same time is the first boundary
    handed to quantization. *)
Theorem cv_start_midpoint (plosive_consonant_list : list str)
    (hiragana_map : list JPhonemeMapItem) (e : OtoInfo)
    (r : OtoEntryPhonemeInfo) (a0 a1 : str) (rest : list str) :
  get_oto_entry_phoneme_info hiragana_map e = Returns (Some r) ->
  ep_type r = Some (lit "cv") ->
  ep_phoneme_list r = Some (a0 :: a1 :: rest) ->
  py_in a0 plosive_consonant_list = false ->
  offset e < overlap e ->
  let start := offset e + (overlap e - offset e) / 2 in
  exists s,
    segment_of_entry plosive_consonant_list hiragana_map e = Returns s /\
    phoneme_list s = [(a0, start, preutterance e); (a1, preutterance e, consonant e)] /\
    art_seg_list s =
      [{| as_type := lit "cv"; as_phonemes := [a0; a1];
          as_boundaries := quantize_boundary [start; preutterance e; consonant e] |}].
Proof.
  intros H Ht Hl Hp Ho start. unfold segment_of_entry.
  rewrite H. cbn [mbind result_mbind result_bind getattr].
  rewrite Ht. cbn [mbind result_mbind result_bind getattr].
  change (str_eqb (lit "cv") (lit "rcv")) with false.
  change (str_eqb (lit "cv") (lit "rv")) with false.
  change (str_eqb (lit "cv") (lit "rc")) with false.
  change (str_eqb (lit "cv") (lit "vv")) with false.
  change (str_eqb (lit "cv") (lit "cv")) with true.
  cbv iota. rewrite Hl. cbn [mbind result_mbind result_bind getattr py_nth lookup list_lookup].
  rewrite Hp. destruct (Qlt_le_dec (offset e) (overlap e)) as [_ | Hge]; [| lra].
  eexists. split; [reflexivity |]. split; reflexivity.
Qed.

Lemma cv_start_midpoint_witness :
  exists s,
    segment_of_entry [lit "k"] sample_hiragana_map (sample_entry (lit "sa")) = Returns s /\
    phoneme_list s = [(lit "s", 100 + (110 - 100) / 2, 120); (lit "a", 120, 150)] /\
    art_seg_list s =
      [{| as_type := lit "cv"; as_phonemes := [lit "s"; lit "a"];
          as_boundaries := quantize_boundary [100 + (110 - 100) / 2; 120; 150] |}].
Proof.
  apply (cv_start_midpoint [lit "k"] sample_hiragana_map (sample_entry (lit "sa"))
           (classified new_entry "cv"
              [mkItem [12373%N] (lit "sa") [lit "s"; lit "a"] (lit "consonant")]
              [lit "s"; lit "a"])
           (lit "s") (lit "a") []).
  - reflexivity.
  - reflexivity.
  - reflexivity.
  - reflexivity.
  - reflexivity.
Defined.


(* ===================================================================== *)
(** * Properties: the heap, [copy] and [replace_phoneme] *)
(* ===================================================================== *)

Local Close Scope Q_scope.

Section HeapSteps.

Context {A B : Type}.

Lemma bind_returns (f : A -> M B) (m : M A) (h h' : heap) (a : A) (res : result B * heap) :
  m h = (Returns a, h') -> f a h' = res -> M_bind f m h = res.
Proof. intros Hm Hf. unfold M_bind. rewrite Hm. exact Hf. Qed.

Lemma bind_raises (f : A -> M B) (m : M A) (h h' : heap) (e : exn) :
  m h = (Raises e, h') -> M_bind f m h = (Raises e, h').
Proof. intros Hm. unfold M_bind. rewrite Hm. reflexivity. Qed.

End HeapSteps.

Lemma insert_middle {A} (l1 l2 : list A) (x y : A) (n : nat) :
  n = length l1 -> <[n := y]> (l1 ++ x :: l2) = l1 ++ y :: l2.
Proof. intros ->. induction l1 as [| a l1 IH]; [reflexivity |]. cbn. f_equal. exact IH. Qed.

Lemma run_alloc (c : cell) (h : heap) (l : loc) :
  l = length h -> alloc c h = (Returns l, h ++ [c]).
Proof. intros ->. reflexivity. Qed.

Lemma run_load (h : heap) (l : loc) (c : cell) :
  h !! l = Some c -> load l h = (Returns c, h).
Proof. intros H. unfold load. rewrite H. reflexivity. Qed.

Ltac run_getter H :=
  intros H; unfold mbind, M_mbind, M_bind;
  rewrite (run_load _ _ _ H); reflexivity.

Lemma run_load_phoneme h l a b e :
  h !! l = Some (CPhoneme a b e) -> load_phoneme l h = (Returns (a, b, e), h).
Proof. unfold load_phoneme. run_getter H. Qed.
Lemma run_load_atoms h l xs :
  h !! l = Some (CAtoms xs) -> load_atoms l h = (Returns xs, h).
Proof. unfold load_atoms. run_getter H. Qed.
Lemma run_load_times h l xs :
  h !! l = Some (CTimes xs) -> load_times l h = (Returns xs, h).
Proof. unfold load_times. run_getter H. Qed.
Lemma run_load_refs h l xs :
  h !! l = Some (CRefs xs) -> load_refs l h = (Returns xs, h).
Proof. unfold load_refs. run_getter H. Qed.
Lemma run_get_wav_offset h l a b p q :
  h !! l = Some (CSegmentInfo (Some a) b p q) -> get_wav_offset l h = (Returns a, h).
Proof. unfold get_wav_offset. run_getter H. Qed.
Lemma run_get_wav_cutoff h l a b p q :
  h !! l = Some (CSegmentInfo a (Some b) p q) -> get_wav_cutoff l h = (Returns b, h).
Proof. unfold get_wav_cutoff. run_getter H. Qed.
Lemma run_get_phoneme_list h l a b p q :
  h !! l = Some (CSegmentInfo a b (Some p) q) -> get_phoneme_list l h = (Returns p, h).
Proof. unfold get_phoneme_list. run_getter H. Qed.
Lemma run_get_art_seg_list h l a b p q :
  h !! l = Some (CSegmentInfo a b p (Some q)) -> get_art_seg_list l h = (Returns q, h).
Proof. unfold get_art_seg_list. run_getter H. Qed.
Lemma run_get_type h l t p b :
  h !! l = Some (CArtSeg (Some t) p b) -> get_type l h = (Returns t, h).
Proof. unfold get_type. run_getter H. Qed.
Lemma run_get_phonemes h l t p b :
  h !! l = Some (CArtSeg t (Some p) b) -> get_phonemes l h = (Returns p, h).
Proof. unfold get_phonemes. run_getter H. Qed.
Lemma run_get_boundaries h l t p b :
  h !! l = Some (CArtSeg t p (Some b)) -> get_boundaries l h = (Returns b, h).
Proof. unfold get_boundaries. run_getter H. Qed.

Ltac run_setter :=
  intros ->; unfold mbind, M_mbind, M_bind;
  rewrite (run_load _ _ _ (list_lookup_middle _ _ _ _ eq_refl));
  unfold store; rewrite insert_middle by reflexivity; reflexivity.

Lemma run_set_wav_offset G tail l v a b p q :
  l = length G ->
  set_wav_offset l v (G ++ CSegmentInfo a b p q :: tail)
  = (Returns tt, G ++ CSegmentInfo (Some v) b p q :: tail).
Proof. unfold set_wav_offset. run_setter. Qed.
Lemma run_set_wav_cutoff G tail l v a b p q :
  l = length G ->
  set_wav_cutoff l v (G ++ CSegmentInfo a b p q :: tail)
  = (Returns tt, G ++ CSegmentInfo a (Some v) p q :: tail).
Proof. unfold set_wav_cutoff. run_setter. Qed.
Lemma run_set_phoneme_list G tail l v a b p q :
  l = length G ->
  set_phoneme_list l v (G ++ CSegmentInfo a b p q :: tail)
  = (Returns tt, G ++ CSegmentInfo a b (Some v) q :: tail).
Proof. unfold set_phoneme_list. run_setter. Qed.
Lemma run_set_art_seg_list G tail l v a b p q :
  l = length G ->
  set_art_seg_list l v (G ++ CSegmentInfo a b p q :: tail)
  = (Returns tt, G ++ CSegmentInfo a b p (Some v) :: tail).
Proof. unfold set_art_seg_list. run_setter. Qed.
Lemma run_set_type G tail l v t p b :
  l = length G ->
  set_type l v (G ++ CArtSeg t p b :: tail)
  = (Returns tt, G ++ CArtSeg (Some v) p b :: tail).
Proof. unfold set_type. run_setter. Qed.
Lemma run_set_phonemes G tail l v t p b :
  l = length G ->
  set_phonemes l v (G ++ CArtSeg t p b :: tail)
  = (Returns tt, G ++ CArtSeg t (Some v) b :: tail).
Proof. unfold set_phonemes. run_setter. Qed.
Lemma run_set_boundaries G tail l v t p b :
  l = length G ->
  set_boundaries l v (G ++ CArtSeg t p b :: tail)
  = (Returns tt, G ++ CArtSeg t p (Some v) :: tail).
Proof. unfold set_boundaries. run_setter. Qed.
Lemma run_append G tail l acc x :
  l = length G ->
  append l x (G ++ CRefs acc :: tail)
  = (Returns tt, G ++ CRefs (acc ++ [x]) :: tail).
Proof.
  intros ->. unfold append, mbind, M_mbind, M_bind.
  rewrite (run_load_refs _ _ _ (list_lookup_middle _ _ _ _ eq_refl)).
  unfold store. rewrite insert_middle by reflexivity. reflexivity.
Qed.
Lemma run_store G tail l c c' :
  l = length G -> store l c' (G ++ c :: tail) = (Returns tt, G ++ c' :: tail).
Proof. intros ->. unfold store. rewrite insert_middle by reflexivity. reflexivity. Qed.

(** Allocation behind a known prefix. *)
Lemma run_alloc_after (G ext : list cell) (c : cell) (l : nat) :
  l = length G + length ext ->
  alloc c (G ++ ext) = (Returns l, G ++ (ext ++ [c])).
Proof. intros ->. unfold alloc. rewrite length_app, <- app_assoc. reflexivity. Qed.

Lemma read_phoneme_Some h l p :
  read_phoneme h l = Some p -> h !! l = Some (phoneme_cell p).
Proof.
  unfold read_phoneme, phoneme_cell.
  destruct (h !! l) as [[] |]; try discriminate. intros [= <-]. reflexivity.
Qed.

(** A step of a computation: run the first operation, continue with the
    rest. *)
Tactic Notation "step" uconstr(lem) :=
  unfold mbind, M_mbind;
  eapply bind_returns; [ eapply lem | cbv beta ].

Ltac len :=
  repeat (progress (rewrite ?length_app, ?length_map, ?length_seq, ?length_insert;
                    cbn [length]));
  lia.

Lemma copy_entries_loop (h : heap) (s : loc) (entries : list loc)
    (ps : list (str * Q * Q)) :
  Forall2 (fun l p => read_phoneme h l = Some p) entries ps ->
  forall (H1 H2 : heap) (acc : list loc) (t start : loc) a b q,
    h `prefix_of` H1 ->
    H1 !! s = Some (CSegmentInfo a b (Some t) q) ->
    t = length H1 ->
    start = t + 1 + length H2 ->
    for_each entries (copy_entry s) (H1 ++ CRefs acc :: H2)
    = (Returns tt,
       H1 ++ CRefs (acc ++ seq start (length entries))
          :: (H2 ++ List.map phoneme_cell ps)).
Proof.
  induction 1 as [| l p entries ps Hl _ IH];
    intros H1 H2 acc t start a b q Hpre Hs Ht Hstart.
  - cbn. rewrite !app_nil_r. reflexivity.
  - cbn [for_each]. apply read_phoneme_Some in Hl.
    eapply bind_returns.
    + unfold copy_entry.
      step run_load_phoneme.
      { eapply lookup_app_l_Some, prefix_lookup_Some; [exact Hl | exact Hpre]. }
      step (run_alloc _ _ start). { len. }
      step run_get_phoneme_list. { do 2 apply lookup_app_l_Some. exact Hs. }
      rewrite <- app_assoc. cbn [app].
      eapply run_append. exact Ht.
    + cbv beta.
      rewrite (IH H1 _ _ t (S start) a b q Hpre Hs Ht) by len.
      rewrite <- !app_assoc. reflexivity.
Qed.

Lemma read_art_seg_Some h l a :
  read_art_seg h l = Some a ->
  exists p b,
    h !! l = Some (CArtSeg (Some (as_type a)) (Some p) (Some b)) /\
    h !! p = Some (CAtoms (as_phonemes a)) /\
    h !! b = Some (CTimes (as_boundaries a)).
Proof.
  unfold read_art_seg.
  destruct (h !! l) as [[| | | | [t |] [p |] [b |] |] |]; try discriminate.
  destruct (h !! p) as [[] |] eqn:Ep; try discriminate.
  destruct (h !! b) as [[] |] eqn:Eb; try discriminate.
  intros [= <-]. exists p, b. cbn. auto.
Qed.

Ltac old_lookup Hpre :=
  repeat apply lookup_app_l_Some;
  eapply prefix_lookup_Some; [eassumption | exact Hpre].

Lemma copy_art_segs_loop (h : heap) (s : loc) (art_segs : list loc)
    (qs : list ArticulationSegmentInfo) :
  Forall2 (fun l a => read_art_seg h l = Some a) art_segs qs ->
  forall (H1 H2 : heap) (acc : list loc) (t start : loc) a b p,
    h `prefix_of` H1 ->
    H1 !! s = Some (CSegmentInfo a b p (Some t)) ->
    t = length H1 ->
    start = t + 1 + length H2 ->
    for_each art_segs (copy_art_seg s) (H1 ++ CRefs acc :: H2)
    = (Returns tt,
       H1 ++ CRefs (acc ++ art_seg_locs start qs)
          :: (H2 ++ art_seg_block start qs)).
Proof.
  induction 1 as [| l x art_segs qs Hl _ IH];
    intros H1 H2 acc t start a b p Hpre Hs Ht Hstart.
  - cbn. rewrite !app_nil_r. reflexivity.
  - cbn [for_each].
    destruct (read_art_seg_Some _ _ _ Hl) as (lp & lb & Hc & Hp & Hb).
    eapply bind_returns.
    + unfold copy_art_seg.
      step (run_alloc _ _ start). { len. }
      step run_get_type. { old_lookup Hpre. }
      step (run_set_type _ _ start). { len. }
      step run_get_phonemes. { old_lookup Hpre. }
      step run_load_atoms. { old_lookup Hpre. }
      step (run_alloc_after _ _ _ (start + 1)). { len. }
      step (run_set_phonemes _ _ start). { len. }
      step run_get_boundaries. { old_lookup Hpre. }
      step run_load_times. { old_lookup Hpre. }
      step (run_alloc_after _ _ _ (start + 2)). { len. }
      step (run_set_boundaries _ _ start). { len. }
      step run_get_art_seg_list. { do 2 apply lookup_app_l_Some. exact Hs. }
      rewrite <- app_assoc. cbn [app].
      eapply run_append. exact Ht.
    + cbv beta.
      rewrite (IH H1 _ _ t (start + 3) a b p Hpre Hs Ht) by len.
      rewrite <- !app_assoc. reflexivity.
Qed.

Lemma read_segment_Some h l v :
  read_segment h l = Some v ->
  exists p q entries art_segs,
    h !! l = Some (CSegmentInfo (Some (wav_offset v)) (Some (wav_cutoff v))
                                (Some p) (Some q)) /\
    h !! p = Some (CRefs entries) /\
    h !! q = Some (CRefs art_segs) /\
    Forall2 (fun l x => read_phoneme h l = Some x) entries (phoneme_list v) /\
    Forall2 (fun l x => read_art_seg h l = Some x) art_segs (art_seg_list v).
Proof.
  unfold read_segment.
  destruct (h !! l) as [[| | | | | [wo |] [wc |] [p |] [q |]] |]; try discriminate.
  destruct (h !! p) as [[] |] eqn:Ep; try discriminate.
  destruct (h !! q) as [[] |] eqn:Eq; try discriminate.
  destruct (mapM (read_phoneme h) refs) as [ps |] eqn:Eps; [| discriminate].
  destruct (mapM (read_art_seg h) refs0) as [qs |] eqn:Eqs; [| discriminate].
  cbn. intros [= <-]. exists p, q, refs, refs0. cbn.
  split; [reflexivity |]. split; [exact Ep |]. split; [exact Eq |].
  split; apply mapM_Some_1; assumption.
Qed.

(** [copy] returns a new object and appends to the heap the cells of a
    segment with the contents of the receiver. *)
Lemma copy_spec (h : heap) (self : loc) (v : SegmentInfo) :
  read_segment h self = Some v ->
  copy self h = (Returns (length h), h ++ layout (length h) v).
Proof.
  intros Hv.
  destruct (read_segment_Some _ _ _ Hv) as (p & q & entries & art_segs & Hs & Hp & Hq & HP & HQ).
  set (base := length h). set (k := length (phoneme_list v)).
  unfold copy.
  step (run_alloc _ _ base). { reflexivity. }
  step run_get_wav_offset. { apply lookup_app_l_Some. exact Hs. }
  step (run_set_wav_offset h [] base). { reflexivity. }
  step run_get_wav_cutoff. { apply lookup_app_l_Some. exact Hs. }
  step (run_set_wav_cutoff h [] base). { reflexivity. }
  step (run_alloc_after h _ _ (base + 1)). { reflexivity. }
  step (run_set_phoneme_list h _ base). { reflexivity. }
  step run_get_phoneme_list. { apply lookup_app_l_Some. exact Hs. }
  step run_load_refs. { apply lookup_app_l_Some. exact Hp. }
  unfold mbind, M_mbind. eapply bind_returns.
  { match goal with
    | |- context [h ++ ?c :: ?rest] =>
        change (h ++ c :: rest) with (h ++ [c] ++ rest); rewrite (app_assoc h [c] rest)
    end.
    eapply (copy_entries_loop h base entries (phoneme_list v) HP _ [] [] (base + 1) (base + 2)).
    - apply prefix_app_r. reflexivity.
    - apply list_lookup_middle. reflexivity.
    - subst base. len.
    - cbn [length]. lia. }
  cbv beta. cbn [app].
  step (run_alloc _ _ (base + 2 + k)).
  { subst base k. rewrite (Forall2_length _ _ _ HP). len. }
  rewrite <- !app_assoc. cbn [app].
  step (run_set_art_seg_list h _ base). { reflexivity. }
  step run_get_art_seg_list. { apply lookup_app_l_Some. exact Hs. }
  step run_load_refs. { apply lookup_app_l_Some. exact Hq. }
  unfold mbind, M_mbind. eapply bind_returns.
  { match goal with
    | |- context [h ++ ?c :: ?r :: (?m ++ [?x])] =>
        replace (h ++ c :: r :: (m ++ [x])) with ((h ++ c :: r :: m) ++ x :: [])
          by (rewrite <- app_assoc; reflexivity)
    end.
    eapply (copy_art_segs_loop h base art_segs (art_seg_list v) HQ _ [] []
              (base + 2 + k) (base + 3 + k)).
    - apply prefix_app_r. reflexivity.
    - apply list_lookup_middle. reflexivity.
    - subst base k. rewrite (Forall2_length _ _ _ HP). len.
    - cbn [length]. lia. }
  cbv beta. unfold mret, M_mret, M_ret, layout. fold k. fold base.
  rewrite (Forall2_length _ _ _ HP). fold k.
  rewrite <- !app_assoc. reflexivity.
Qed.

Lemma run_lift {A} (r : result A) (h : heap) : lift r h = (r, h).
Proof. reflexivity. Qed.

Lemma py_nth_seq (first k i : nat) :
  i < k -> py_nth (seq first k) i = Returns (first + i).
Proof. intros H. unfold py_nth. rewrite lookup_seq_lt by exact H. reflexivity. Qed.

Lemma lookup_mid2 {A} (W D R : list A) (c : A) (n : nat) :
  n = length W + length D -> (W ++ D ++ c :: R) !! n = Some c.
Proof.
  intros ->. rewrite app_assoc. apply list_lookup_middle. rewrite length_app. reflexivity.
Qed.

Lemma insert_mid2 {A} (W D R : list A) (c c' : A) (n : nat) :
  n = length W + length D -> <[n := c']> (W ++ D ++ c :: R) = W ++ D ++ c' :: R.
Proof.
  intros ->. rewrite !app_assoc. apply insert_middle. rewrite length_app. reflexivity.
Qed.

(** One iteration of the first loop of [replace_phoneme] on the entry
    [p] at index [length done]. *)
Lemma replace_entry_step (old_phonemes new_phonemes : list str)
    (W R : heap) (done : list (str * Q * Q)) (p : str * Q * Q)
    (s t first k : loc) a b q :
  W !! s = Some (CSegmentInfo a b (Some t) q) ->
  W !! t = Some (CRefs (seq first k)) ->
  first = length W ->
  length done < k ->
  replace_entry old_phonemes new_phonemes s (length done)
    (W ++ List.map phoneme_cell done ++ phoneme_cell p :: R)
  = if py_in p.1.1 old_phonemes then
      match substitute old_phonemes new_phonemes p.1.1 with
      | Returns atom =>
          (Returns tt,
           W ++ List.map phoneme_cell done ++ phoneme_cell (atom, p.1.2, p.2) :: R)
      | Raises e =>
          (Raises e, W ++ List.map phoneme_cell done ++ phoneme_cell p :: R)
      end
    else (Returns tt, W ++ List.map phoneme_cell done ++ phoneme_cell p :: R).
Proof.
  intros Hs Ht Hfirst Hk. unfold replace_entry.
  step run_get_phoneme_list. { apply lookup_app_l_Some. exact Hs. }
  step run_load_refs. { apply lookup_app_l_Some. exact Ht. }
  unfold mbind, M_mbind. eapply bind_returns.
  { unfold lift. rewrite py_nth_seq by exact Hk. reflexivity. }
  cbv beta.
  step run_load_phoneme. { apply lookup_mid2. len. }
  cbn [fst snd]. destruct (py_in p.1.1 old_phonemes); [| reflexivity].
  unfold mbind, M_mbind.
  destruct (substitute old_phonemes new_phonemes p.1.1) as [atom | e].
  - eapply bind_returns; [apply run_lift |]. cbv beta.
    unfold store. rewrite insert_mid2 by len. reflexivity.
  - eapply bind_raises. apply run_lift.
Qed.

Lemma replace_entries_loop (old_phonemes new_phonemes : list str)
    (W Y : heap) (s t first k : loc) a b q (rest : list (str * Q * Q)) :
  W !! s = Some (CSegmentInfo a b (Some t) q) ->
  W !! t = Some (CRefs (seq first k)) ->
  first = length W ->
  forall done : list (str * Q * Q),
    k = length done + length rest ->
    for_each (seq (length done) (length rest))
      (replace_entry old_phonemes new_phonemes s)
      (W ++ List.map phoneme_cell done ++ List.map phoneme_cell rest ++ Y)
    = let '(r, rest') := rename_entries old_phonemes new_phonemes rest in
      (r, W ++ List.map phoneme_cell done ++ List.map phoneme_cell rest' ++ Y).
Proof.
  intros Hs Ht Hfirst. induction rest as [| p rest IH]; intros done Hk.
  - reflexivity.
  - cbn [length seq for_each List.map app rename_entries]. unfold M_bind.
    rewrite (replace_entry_step _ _ W _ done p s t first k a b q Hs Ht Hfirst)
      by (cbn [length] in Hk; lia).
    assert (Hnext : forall p' : str * Q * Q,
      for_each (seq (S (length done)) (length rest))
        (replace_entry old_phonemes new_phonemes s)
        (W ++ List.map phoneme_cell done ++ phoneme_cell p' :: List.map phoneme_cell rest ++ Y)
      = let '(r, rest') := rename_entries old_phonemes new_phonemes rest in
        (r, W ++ List.map phoneme_cell done ++ phoneme_cell p' :: List.map phoneme_cell rest' ++ Y)).
    { intros p'. specialize (IH (done ++ [p'])).
      rewrite length_app in IH. cbn [length] in IH. rewrite Nat.add_1_r in IH.
      rewrite map_app in IH. cbn [List.map] in IH.
      rewrite <- !app_assoc in IH. cbn [app] in IH.
      rewrite IH by (cbn [length] in Hk; lia).
      destruct (rename_entries old_phonemes new_phonemes rest) as [r rest'].
      rewrite <- !app_assoc. reflexivity. }
    destruct (py_in p.1.1 old_phonemes).
    + destruct (substitute old_phonemes new_phonemes p.1.1) as [atom | e].
      * rewrite Hnext.
        destruct (rename_entries old_phonemes new_phonemes rest) as [r rest'].
        reflexivity.
      * reflexivity.
    + rewrite Hnext.
      destruct (rename_entries old_phonemes new_phonemes rest) as [r rest'].
      reflexivity.
Qed.

Lemma insert_app_two {A} (before : list A) (x y y' : A) (tl : list A) (n : nat) :
  n = length before + 1 ->
  <[n := y']> (before ++ x :: y :: tl) = before ++ x :: y' :: tl.
Proof.
  intros ->. induction before as [| b before IH]; [reflexivity |].
  cbn. f_equal. exact IH.
Qed.

(** One iteration of the inner loop of [replace_phoneme] on the atom [x]
    at index [length done]. *)
Lemma replace_atom_step (old_phonemes new_phonemes : list str)
    (X Y : heap) (l lp : loc) t bnd (done rest : list str) (x : str) :
  l = length X ->
  lp = (length X + 1)%nat ->
  replace_atom old_phonemes new_phonemes l (length done)
    (X ++ CArtSeg t (Some lp) bnd :: CAtoms (done ++ x :: rest) :: Y)
  = if py_in x old_phonemes then
      match substitute old_phonemes new_phonemes x with
      | Returns atom =>
          (Returns tt,
           X ++ CArtSeg t (Some lp) bnd :: CAtoms (done ++ atom :: rest) :: Y)
      | Raises e =>
          (Raises e, X ++ CArtSeg t (Some lp) bnd :: CAtoms (done ++ x :: rest) :: Y)
      end
    else (Returns tt, X ++ CArtSeg t (Some lp) bnd :: CAtoms (done ++ x :: rest) :: Y).
Proof.
  intros Hl Hlp. unfold replace_atom.
  step run_get_phonemes. { apply list_lookup_middle. exact Hl. }
  step run_load_atoms. { subst lp. apply lookup_app_two. }
  unfold mbind, M_mbind. eapply bind_returns.
  { unfold lift, py_nth. rewrite list_lookup_middle by reflexivity. reflexivity. }
  cbv beta. destruct (py_in x old_phonemes); [| reflexivity].
  destruct (substitute old_phonemes new_phonemes x) as [atom | e].
  - eapply bind_returns; [apply run_lift |]. cbv beta.
    eapply bind_returns.
    { eapply run_get_phonemes. apply list_lookup_middle. exact Hl. }
    cbv beta. eapply bind_returns.
    { eapply run_load_atoms. subst lp. apply lookup_app_two. }
    cbv beta. unfold store.
    rewrite insert_app_two by exact Hlp.
    rewrite insert_middle by reflexivity. reflexivity.
  - eapply bind_raises. apply run_lift.
Qed.

Lemma replace_atoms_loop (old_phonemes new_phonemes : list str)
    (X Y : heap) (l lp : loc) t bnd (rest : list str) :
  l = length X ->
  lp = (length X + 1)%nat ->
  forall done : list str,
    for_each (seq (length done) (length rest))
      (replace_atom old_phonemes new_phonemes l)
      (X ++ CArtSeg t (Some lp) bnd :: CAtoms (done ++ rest) :: Y)
    = let '(r, rest') := rename_atoms old_phonemes new_phonemes rest in
      (r, X ++ CArtSeg t (Some lp) bnd :: CAtoms (done ++ rest') :: Y).
Proof.
  intros Hl Hlp. induction rest as [| x rest IH]; intros done.
  - reflexivity.
  - cbn [length seq for_each rename_atoms]. unfold M_bind.
    rewrite (replace_atom_step _ _ X Y l lp t bnd done rest x Hl Hlp).
    assert (Hnext : forall x' : str,
      for_each (seq (S (length done)) (length rest))
        (replace_atom old_phonemes new_phonemes l)
        (X ++ CArtSeg t (Some lp) bnd :: CAtoms (done ++ x' :: rest) :: Y)
      = let '(r, rest') := rename_atoms old_phonemes new_phonemes rest in
        (r, X ++ CArtSeg t (Some lp) bnd :: CAtoms (done ++ x' :: rest') :: Y)).
    { intros x'. specialize (IH (done ++ [x'])).
      rewrite length_app in IH. cbn [length] in IH. rewrite Nat.add_1_r in IH.
      rewrite <- !app_assoc in IH. cbn [app] in IH. rewrite IH.
      destruct (rename_atoms old_phonemes new_phonemes rest) as [r rest'].
      rewrite <- !app_assoc. reflexivity. }
    destruct (py_in x old_phonemes).
    + destruct (substitute old_phonemes new_phonemes x) as [atom | e].
      * rewrite Hnext.
        destruct (rename_atoms old_phonemes new_phonemes rest) as [r rest'].
        reflexivity.
      * reflexivity.
    + rewrite Hnext.
      destruct (rename_atoms old_phonemes new_phonemes rest) as [r rest'].
      reflexivity.
Qed.

Lemma replace_art_seg_step (old_phonemes new_phonemes : list str)
    (X Y : heap) (l : loc) (a : ArticulationSegmentInfo) :
  l = length X ->
  replace_art_seg old_phonemes new_phonemes l (X ++ art_seg_cells l a ++ Y)
  = let '(r, atoms') := rename_atoms old_phonemes new_phonemes (as_phonemes a) in
    (r, X ++ art_seg_cells l (renamed_art_seg a atoms') ++ Y).
Proof.
  intros Hl. unfold replace_art_seg, art_seg_cells. cbn [app].
  step run_get_phonemes. { apply list_lookup_middle. exact Hl. }
  step run_load_atoms. { subst l. apply lookup_app_two. }
  rewrite (replace_atoms_loop old_phonemes new_phonemes X _ l (l + 1) _ _
             (as_phonemes a) Hl ltac:(subst l; reflexivity) []).
  reflexivity.
Qed.

Lemma art_seg_locs_length (l : loc) (qs qs' : list ArticulationSegmentInfo) :
  length qs = length qs' -> art_seg_locs l qs = art_seg_locs l qs'.
Proof.
  revert l qs'. induction qs as [| a qs IH]; intros l [| a' qs'] H;
    try discriminate; [reflexivity |].
  cbn. f_equal. apply IH. cbn in H. lia.
Qed.

Lemma art_seg_block_length (l : loc) (qs : list ArticulationSegmentInfo) :
  length (art_seg_block l qs) = 3 * length qs.
Proof.
  revert l. induction qs as [| a qs IH]; intros l; [reflexivity |].
  cbn [art_seg_block art_seg_cells app length]. rewrite IH. lia.
Qed.

Lemma replace_art_segs_loop (old_phonemes new_phonemes : list str)
    (Y : heap) (qs : list ArticulationSegmentInfo) :
  forall (X : heap) (l : loc),
    l = length X ->
    for_each (art_seg_locs l qs) (replace_art_seg old_phonemes new_phonemes)
      (X ++ art_seg_block l qs ++ Y)
    = let '(r, qs') := rename_art_segs old_phonemes new_phonemes qs in
      (r, X ++ art_seg_block l qs' ++ Y).
Proof.
  induction qs as [| a qs IH]; intros X l Hl.
  - reflexivity.
  - cbn [art_seg_locs art_seg_block for_each rename_art_segs]. unfold M_bind.
    rewrite <- app_assoc.
    rewrite (replace_art_seg_step _ _ X _ l a Hl).
    destruct (rename_atoms old_phonemes new_phonemes (as_phonemes a)) as [[[] | e] atoms'].
    + fold (renamed_art_seg a atoms').
      rewrite (app_assoc X).
      rewrite (IH (X ++ art_seg_cells l (renamed_art_seg a atoms')) (l + 3))
        by (rewrite length_app; cbn [art_seg_cells length]; lia).
      destruct (rename_art_segs old_phonemes new_phonemes qs) as [r qs'].
      cbn [art_seg_block]. rewrite <- !app_assoc. reflexivity.
    + fold (renamed_art_seg a atoms').
      cbn [art_seg_block]. rewrite <- !app_assoc. reflexivity.
Qed.

Lemma lookup_app_second {A} (before : list A) (x y : A) (tl : list A) (n : nat) :
  n = length before + 1 -> (before ++ x :: y :: tl) !! n = Some y.
Proof. intros ->. apply lookup_app_two. Qed.

Lemma rename_entries_length old_phonemes new_phonemes ps :
  length (rename_entries old_phonemes new_phonemes ps).2 = length ps.
Proof.
  induction ps as [| p ps IH]; [reflexivity |]. cbn [rename_entries].
  destruct (rename_entries old_phonemes new_phonemes ps) as [r ps'].
  destruct (py_in p.1.1 old_phonemes);
    [destruct (substitute old_phonemes new_phonemes p.1.1) |];
    cbn in *; lia.
Qed.

Lemma rename_art_segs_length old_phonemes new_phonemes qs :
  length (rename_art_segs old_phonemes new_phonemes qs).2 = length qs.
Proof.
  induction qs as [| a qs IH]; [reflexivity |]. cbn [rename_art_segs].
  destruct (rename_atoms old_phonemes new_phonemes (as_phonemes a)) as [[[] | e] atoms'].
  - destruct (rename_art_segs old_phonemes new_phonemes qs) as [r qs']. cbn in *. lia.
  - reflexivity.
Qed.

Ltac reassoc := rewrite <- ?app_assoc; cbn [app List.map]; reflexivity.

(** [replace_phoneme] returns a new object, unless a substitution raises,
    and appends to the heap the cells of a segment with the contents that
    its two loops leave. The cells that were there before are not
    touched. *)
Lemma replace_phoneme_spec (h : heap) (self : loc) (v : SegmentInfo)
    (old_phonemes new_phonemes : list str) :
  read_segment h self = Some v ->
  replace_phoneme self old_phonemes new_phonemes h
  = let '(r, v') := replace_phoneme_run old_phonemes new_phonemes v in
    (match r with Returns _ => Returns (length h) | Raises e => Raises e end,
     h ++ layout (length h) v').
Proof.
  intros Hv. unfold replace_phoneme, replace_phoneme_run.
  step (copy_spec h self v Hv).
  pose proof (rename_entries_length old_phonemes new_phonemes (phoneme_list v)) as Hlen.
  pose proof (rename_art_segs_length old_phonemes new_phonemes (art_seg_list v)) as Hlen'.
  unfold layout. set (base := length h). set (k := length (phoneme_list v)).
  set (alocs := art_seg_locs (base + 3 + k) (art_seg_list v)).
  step run_get_phoneme_list. { apply list_lookup_middle. reflexivity. }
  step run_load_refs. { apply lookup_app_second. reflexivity. }
  rewrite length_seq.
  unfold mbind, M_mbind, M_bind.
  match goal with
  | |- context [for_each (seq 0 k) _ (h ++ ?c :: ?r :: ?m ++ ?Y)] =>
      replace (h ++ c :: r :: m ++ Y)
        with ((h ++ [c; r]) ++ List.map phoneme_cell [] ++ m ++ Y) by reassoc;
      pose proof (replace_entries_loop old_phonemes new_phonemes (h ++ [c; r]) Y
                    base (base + 1) (base + 2) k _ _ _ (phoneme_list v)
                    (list_lookup_middle h [r] c base eq_refl)
                    (lookup_app_second h c r [] (base + 1) eq_refl)
                    ltac:(subst base; len) [] eq_refl) as HL
  end.
  change (length (@nil (str * Q * Q))) with 0 in HL. fold k in HL. rewrite HL. clear HL.
  - destruct (rename_entries old_phonemes new_phonemes (phoneme_list v))
      as [[[] | e] ps'].
    + cbn [snd] in Hlen.
      match goal with
      | |- context [get_art_seg_list base ?hh] =>
          rewrite (run_get_art_seg_list hh base _ _ _ (base + 2 + k))
            by (rewrite <- app_assoc; apply list_lookup_middle; reflexivity)
      end.
      match goal with
      | |- context [load_refs (base + 2 + k) ?hh] =>
          rewrite (run_load_refs hh (base + 2 + k) alocs)
            by (apply lookup_mid2; subst base k; len)
      end.
      match goal with
      | |- context [for_each alocs _ (?W ++ ?D ++ ?m ++ ?c :: ?blk)] =>
          replace (W ++ D ++ m ++ c :: blk) with ((W ++ m ++ [c]) ++ blk ++ [])
            by (rewrite app_nil_r; reassoc)
      end.
      subst alocs.
      rewrite (replace_art_segs_loop old_phonemes new_phonemes [] (art_seg_list v) _
                 (base + 3 + k)) by (subst base k; len).
      destruct (rename_art_segs old_phonemes new_phonemes (art_seg_list v))
        as [r qs'].
      cbn [snd] in Hlen'. cbn [wav_offset wav_cutoff phoneme_list art_seg_list].
      rewrite Hlen. fold k.
      rewrite (art_seg_locs_length _ qs' (art_seg_list v)) by exact Hlen'.
      rewrite app_nil_r.
      destruct r; f_equal; reassoc.
    + cbn [snd] in Hlen. cbn [wav_offset wav_cutoff phoneme_list art_seg_list].
      rewrite Hlen. fold k. f_equal. reassoc.
Qed.

Lemma read_phoneme_intro (h : heap) (l : loc) (p : str * Q * Q) :
  h !! l = Some (phoneme_cell p) -> read_phoneme h l = Some p.
Proof.
  intros H. unfold read_phoneme. rewrite H. destruct p as [[a b] e]. reflexivity.
Qed.

Lemma read_art_seg_intro (h : heap) (l p b : loc) (a : ArticulationSegmentInfo) :
  h !! l = Some (CArtSeg (Some (as_type a)) (Some p) (Some b)) ->
  h !! p = Some (CAtoms (as_phonemes a)) ->
  h !! b = Some (CTimes (as_boundaries a)) ->
  read_art_seg h l = Some a.
Proof.
  intros Hl Hp Hb. unfold read_art_seg. rewrite Hl, Hp, Hb. destruct a. reflexivity.
Qed.

Lemma read_segment_intro (h : heap) (l p q : loc) (entries art_segs : list loc)
    (v : SegmentInfo) :
  h !! l = Some (CSegmentInfo (Some (wav_offset v)) (Some (wav_cutoff v))
                              (Some p) (Some q)) ->
  h !! p = Some (CRefs entries) ->
  h !! q = Some (CRefs art_segs) ->
  Forall2 (fun l x => read_phoneme h l = Some x) entries (phoneme_list v) ->
  Forall2 (fun l x => read_art_seg h l = Some x) art_segs (art_seg_list v) ->
  read_segment h l = Some v.
Proof.
  intros Hl Hp Hq HP HQ. unfold read_segment. rewrite Hl, Hp, Hq.
  rewrite (mapM_Some_2 _ _ _ HP), (mapM_Some_2 _ _ _ HQ).
  destruct v. reflexivity.
Qed.

(** Reading a segment only looks at the cells that are there: it gives the
    same contents in every extension of the heap. *)
Lemma read_segment_extend (h ext : heap) (l : loc) (v : SegmentInfo) :
  read_segment h l = Some v -> read_segment (h ++ ext) l = Some v.
Proof.
  intros Hv.
  destruct (read_segment_Some _ _ _ Hv) as (p & q & entries & art_segs & Hs & Hp & Hq & HP & HQ).
  apply (read_segment_intro _ l p q entries art_segs);
    try (apply lookup_app_l_Some; assumption).
  - eapply Forall2_impl; [exact HP |]. intros e x Hx. cbv beta in *.
    apply read_phoneme_intro, lookup_app_l_Some, read_phoneme_Some, Hx.
  - eapply Forall2_impl; [exact HQ |]. intros e x Hx. cbv beta in *.
    destruct (read_art_seg_Some _ _ _ Hx) as (lp & lb & H1 & H2 & H3).
    apply (read_art_seg_intro _ e lp lb); apply lookup_app_l_Some; assumption.
Qed.

Lemma read_phoneme_cells (hh Y : heap) (ps : list (str * Q * Q)) :
  forall (W : heap) (first : loc),
    first = length W ->
    hh = W ++ List.map phoneme_cell ps ++ Y ->
    Forall2 (fun l p => read_phoneme hh l = Some p) (seq first (length ps)) ps.
Proof.
  induction ps as [| p ps IH]; intros W first Hfirst Hhh; [constructor |].
  cbn [length seq List.map app] in *. constructor.
  - apply read_phoneme_intro. rewrite Hhh. apply list_lookup_middle. exact Hfirst.
  - apply (IH (W ++ [phoneme_cell p]) (S first)).
    + rewrite length_app. cbn [length]. lia.
    + rewrite Hhh, <- app_assoc. reflexivity.
Qed.

Lemma read_art_seg_cells (hh Y : heap) (qs : list ArticulationSegmentInfo) :
  forall (X : heap) (l : loc),
    l = length X ->
    hh = X ++ art_seg_block l qs ++ Y ->
    Forall2 (fun l a => read_art_seg hh l = Some a) (art_seg_locs l qs) qs.
Proof.
  induction qs as [| a qs IH]; intros X l Hl Hhh; [constructor |].
  cbn [art_seg_locs art_seg_block art_seg_cells app] in *. constructor.
  - apply (read_art_seg_intro _ l (l + 1) (l + 2)); rewrite Hhh.
    + apply list_lookup_middle. exact Hl.
    + apply lookup_app_second. lia.
    + replace (X ++ CArtSeg (Some (as_type a)) (Some (l + 1)) (Some (l + 2))
                 :: CAtoms (as_phonemes a) :: CTimes (as_boundaries a)
                 :: art_seg_block (l + 3) qs ++ Y)
        with ((X ++ [CArtSeg (Some (as_type a)) (Some (l + 1)) (Some (l + 2))])
                ++ CAtoms (as_phonemes a) :: CTimes (as_boundaries a)
                :: art_seg_block (l + 3) qs ++ Y)
        by (rewrite <- app_assoc; reflexivity).
      apply lookup_app_second. rewrite length_app. cbn [length]. lia.
  - apply (IH (X ++ art_seg_cells l a) (l + 3)).
    + rewrite length_app. cbn [art_seg_cells length]. lia.
    + rewrite Hhh, <- app_assoc. reflexivity.
Qed.

(** The cells of [layout] hold the contents they were laid out for. *)
Lemma read_layout (h : heap) (v : SegmentInfo) :
  read_segment (h ++ layout (length h) v) (length h) = Some v.
Proof.
  unfold layout. set (base := length h). set (k := length (phoneme_list v)).
  apply (read_segment_intro _ base (base + 1) (base + 2 + k)
           (seq (base + 2) k) (art_seg_locs (base + 3 + k) (art_seg_list v))).
  - apply list_lookup_middle. reflexivity.
  - apply lookup_app_second. reflexivity.
  - match goal with
    | |- (h ++ ?c :: ?r :: ?m ++ ?x :: ?blk) !! _ = _ =>
        replace (h ++ c :: r :: m ++ x :: blk) with ((h ++ [c; r]) ++ m ++ x :: blk)
          by (rewrite <- app_assoc; reflexivity)
    end.
    apply lookup_mid2. subst base k.
    rewrite length_app, length_map. cbn [length]. lia.
  - match goal with
    | |- context [h ++ ?c :: ?r :: ?m ++ ?Y] =>
        apply (read_phoneme_cells _ Y (phoneme_list v) (h ++ [c; r]))
    end.
    + subst base. rewrite length_app. cbn [length]. lia.
    + rewrite <- app_assoc. reflexivity.
  - match goal with
    | |- context [h ++ ?c :: ?r :: ?m ++ ?x :: ?blk] =>
        apply (read_art_seg_cells _ [] (art_seg_list v) (h ++ c :: r :: m ++ [x]))
    end.
    + subst base k. rewrite length_app. cbn [length].
      rewrite length_app, length_map. cbn [length]. lia.
    + rewrite app_nil_r, <- !app_assoc. cbn [app]. rewrite <- !app_assoc. reflexivity.
Qed.

Lemma py_index_Some (x : str) (xs : list str) :
  py_in x xs = true -> exists i, py_index x xs = Some i /\ i < length xs.
Proof.
  induction xs as [| y xs IH]; [discriminate |].
  cbn [py_in existsb py_index length]. destruct (str_eqb x y).
  - intros _. exists 0. split; [reflexivity | lia].
  - cbn [orb]. intros H. destruct (IH H) as (i & Hi & Hlt).
    exists (S i). rewrite Hi. split; [reflexivity | lia].
Qed.

Lemma substitute_total (old_phonemes new_phonemes : list str) (x : str) :
  length old_phonemes <= length new_phonemes ->
  py_in x old_phonemes = true ->
  substitute old_phonemes new_phonemes x
  = Returns (rename_atom old_phonemes new_phonemes x).
Proof.
  intros Hlen Hin. unfold rename_atom. rewrite Hin.
  unfold substitute. destruct (py_index_Some _ _ Hin) as (i & -> & Hi).
  unfold py_nth. destruct (lookup_lt_is_Some_2 new_phonemes i) as [y Hy]; [lia |].
  rewrite Hy. reflexivity.
Qed.

Lemma rename_atom_not_in (old_phonemes new_phonemes : list str) (x : str) :
  py_in x old_phonemes = false -> rename_atom old_phonemes new_phonemes x = x.
Proof. intros H. unfold rename_atom. rewrite H. reflexivity. Qed.

Lemma rename_entries_total (old_phonemes new_phonemes : list str)
    (ps : list (str * Q * Q)) :
  length old_phonemes <= length new_phonemes ->
  rename_entries old_phonemes new_phonemes ps
  = (Returns tt,
     List.map (fun p : str * Q * Q =>
                 (rename_atom old_phonemes new_phonemes p.1.1, p.1.2, p.2)) ps).
Proof.
  intros Hlen. induction ps as [| p ps IH]; [reflexivity |].
  cbn [rename_entries List.map]. rewrite IH.
  destruct (py_in p.1.1 old_phonemes) eqn:Hin.
  - rewrite (substitute_total _ _ _ Hlen Hin). reflexivity.
  - rewrite (rename_atom_not_in _ _ _ Hin). destruct p as [[a b] e]. reflexivity.
Qed.

Lemma rename_atoms_total (old_phonemes new_phonemes : list str) (atoms : list str) :
  length old_phonemes <= length new_phonemes ->
  rename_atoms old_phonemes new_phonemes atoms
  = (Returns tt, List.map (rename_atom old_phonemes new_phonemes) atoms).
Proof.
  intros Hlen. induction atoms as [| x atoms IH]; [reflexivity |].
  cbn [rename_atoms List.map]. rewrite IH.
  destruct (py_in x old_phonemes) eqn:Hin.
  - rewrite (substitute_total _ _ _ Hlen Hin). reflexivity.
  - rewrite (rename_atom_not_in _ _ _ Hin). reflexivity.
Qed.

Lemma rename_art_segs_total (old_phonemes new_phonemes : list str)
    (qs : list ArticulationSegmentInfo) :
  length old_phonemes <= length new_phonemes ->
  rename_art_segs old_phonemes new_phonemes qs
  = (Returns tt,
     List.map (fun a => renamed_art_seg a
                          (List.map (rename_atom old_phonemes new_phonemes)
                                    (as_phonemes a))) qs).
Proof.
  intros Hlen. induction qs as [| a qs IH]; [reflexivity |].
  cbn [rename_art_segs List.map]. rewrite (rename_atoms_total _ _ _ Hlen), IH.
  reflexivity.
Qed.

(** When the list of new atoms is at least as long as the list of old
    ones, no substitution raises, and the two loops rename every atom. *)
Lemma replace_phoneme_run_total (old_phonemes new_phonemes : list str)
    (v : SegmentInfo) :
  length old_phonemes <= length new_phonemes ->
  replace_phoneme_run old_phonemes new_phonemes v
  = (Returns tt, replace_phoneme_value old_phonemes new_phonemes v).
Proof.
  intros Hlen. unfold replace_phoneme_run.
  rewrite (rename_entries_total _ _ _ Hlen), (rename_art_segs_total _ _ _ Hlen).
  reflexivity.
Qed.

Lemma art_seg_locs_ge (l : loc) (qs : list ArticulationSegmentInfo) :
  Forall (fun x => l <= x) (art_seg_locs l qs).
Proof.
  revert l. induction qs as [| a qs IH]; intros l; [constructor |].
  cbn [art_seg_locs]. constructor; [lia |].
  eapply Forall_impl; [apply IH |]. cbv beta. intros x Hx. lia.
Qed.

Lemma art_seg_block_refs (base l : loc) (qs : list ArticulationSegmentInfo) :
  base <= l -> refs_from base (art_seg_block l qs).
Proof.
  revert l. induction qs as [| a qs IH]; intros l Hl; [constructor |].
  cbn [art_seg_block art_seg_cells app]. repeat constructor; try lia.
  apply IH. lia.
Qed.

(** No cell of [layout] refers to a cell below its base. *)
Lemma layout_refs (base : loc) (v : SegmentInfo) : refs_from base (layout base v).
Proof.
  unfold layout, refs_from. repeat constructor; try lia.
  - cbn [cell_refs]. apply Forall_forall. intros x Hx.
    apply list_elem_of_In, in_seq in Hx. lia.
  - apply Forall_app. split.
    + apply Forall_forall. intros c Hc. apply list_elem_of_In, in_map_iff in Hc.
      destruct Hc as (p & <- & _). constructor.
    + constructor.
      * cbn [cell_refs]. eapply Forall_impl; [apply art_seg_locs_ge |].
        cbv beta. intros x Hx. lia.
      * apply art_seg_block_refs. lia.
Qed.

(** C9, as stated, fails: with two old atoms and one new atom, the entry
    that holds the second old atom makes [replace_phoneme] raise
    [IndexError] instead of returning a segment. *)
Lemma replace_phoneme_counterexample :
  let v := {| wav_offset := 100; wav_cutoff := 300;
              phoneme_list := [(lit "a", 100, 120); (lit "b", 120, 150)]%Q;
              art_seg_list := [] |} in
  read_segment (layout 0 v) 0 = Some v /\
  (replace_phoneme 0 [lit "a"; lit "b"] [lit "x"] (layout 0 v)).1 = Raises IndexError.
Proof. split; vm_compute; reflexivity. Qed.

(** C9 (amended): on a heap in which [self] is a segment with the contents
    [v], [replace_phoneme] only appends cells: the heap it leaves is the
    old heap followed by new cells, so every object that existed, the
    receiver and all that it refers to included, is unchanged and [self]
    still has the contents [v]; no new cell holds a reference to an old
    one. When the list of new atoms is at least as long as the list of old
    atoms it returns, the result is a new object, and its contents are
    those of the receiver with every old atom renamed. *)
Theorem replace_phoneme_leaves_receiver (h : heap) (self : loc) (v : SegmentInfo)
    (old_phonemes new_phonemes : list str) :
  read_segment h self = Some v ->
  exists ext : heap,
    (replace_phoneme self old_phonemes new_phonemes h).2 = h ++ ext /\
    read_segment (h ++ ext) self = Some v /\
    refs_from (length h) ext /\
    (length old_phonemes <= length new_phonemes ->
       (replace_phoneme self old_phonemes new_phonemes h).1 = Returns (length h) /\
       read_segment (h ++ ext) (length h)
       = Some (replace_phoneme_value old_phonemes new_phonemes v)).
Proof.
  intros Hv. rewrite (replace_phoneme_spec h self v old_phonemes new_phonemes Hv).
  destruct (replace_phoneme_run old_phonemes new_phonemes v) as [r v'] eqn:Hrun.
  exists (layout (length h) v'). cbn [fst snd].
  split; [reflexivity |].
  split; [apply read_segment_extend; exact Hv |].
  split; [apply layout_refs |].
  intros Hlen. rewrite (replace_phoneme_run_total _ _ v Hlen) in Hrun.
  injection Hrun as <- <-. split; [reflexivity | apply read_layout].
Qed.

Lemma replace_phoneme_leaves_receiver_witness :
  let v := {| wav_offset := 100; wav_cutoff := 300;
              phoneme_list := [(lit "a", 100, 120); (lit "k'", 120, 225)]%Q;
              art_seg_list :=
                [{| as_type := lit "vc"; as_phonemes := [lit "a"; lit "k'"];
                    as_boundaries := [100; 120; 225]%Q |}] |} in
  exists ext : heap,
    (replace_phoneme 0 [lit "k'"] [lit "k"] (layout 0 v)).2 = layout 0 v ++ ext /\
    read_segment (layout 0 v ++ ext) 0 = Some v /\
    refs_from (length (layout 0 v)) ext /\
    (length [lit "k'"] <= length [lit "k"] ->
       (replace_phoneme 0 [lit "k'"] [lit "k"] (layout 0 v)).1
       = Returns (length (layout 0 v)) /\
       read_segment (layout 0 v ++ ext) (length (layout 0 v))
       = Some (replace_phoneme_value [lit "k'"] [lit "k"] v)).
Proof.
  intros v.
  apply (replace_phoneme_leaves_receiver (layout 0 v) 0 v [lit "k'"] [lit "k"]).
  vm_compute. reflexivity.
Defined.

(* ===================================================================== *)
(** * Properties: coverage completion *)
(* ===================================================================== *)

(** What one iteration of the loop over the missing VC keys hands to the
    emitter when an alternative is found: a new segment, built from the
    donor by [replace_phoneme([alternative_c], [consonant])]. *)
Lemma substitute_vc_spec (vowel_variant_list consonant_variant_list : list (list str))
    (cvvc_map : gmap str CvvcEntry) (vc_name vowel consonant0 : str)
    (alternative_vc alternative_v alternative_c : str) (info : CvvcEntry)
    (h : heap) (v : SegmentInfo) :
  split_space1 vc_name = Some (vowel, consonant0) ->
  find_alternative_vc vowel_variant_list consonant_variant_list vc_name cvvc_map
  = Returns alternative_vc ->
  alternative_vc <> [] ->
  split_space1 alternative_vc = Some (alternative_v, alternative_c) ->
  cvvc_map !! alternative_vc = Some info ->
  read_segment h (seg_info info) = Some v ->
  substitute_vc vowel_variant_list consonant_variant_list cvvc_map vc_name h
  = (Returns (Some (entry_wav_file info, length h)),
     h ++ layout (length h) (replace_phoneme_value [alternative_c] [consonant0] v)).
Proof.
  intros Hsplit Hfind Hne Hsplit' Hmap Hv. unfold substitute_vc.
  rewrite Hsplit. unfold mbind at 1, M_mbind. eapply bind_returns; [apply run_lift |].
  cbv beta iota. rewrite Hfind.
  unfold mbind at 1, M_mbind. eapply bind_returns; [apply run_lift |]. cbv beta.
  destruct alternative_vc as [| ch alt]; [contradiction |].
  rewrite Hsplit'. unfold mbind at 1, M_mbind. eapply bind_returns; [apply run_lift |].
  cbv beta iota. rewrite Hmap.
  unfold mbind at 1, M_mbind. eapply bind_returns; [apply run_lift |]. cbv beta.
  unfold mbind, M_mbind. eapply bind_returns.
  { rewrite (replace_phoneme_spec h (seg_info info) v _ _ Hv).
    rewrite (replace_phoneme_run_total [alternative_c] [consonant0] v) by reflexivity.
    reflexivity. }
  reflexivity.
Qed.

(** That call renames the substitute consonant and nothing else: every
    other atom of the donor, its vowel included, stays. *)
Lemma rename_consonant_only (alternative_c consonant0 x : str) :
  rename_atom [alternative_c] [consonant0] x
  = if str_eqb x alternative_c then consonant0 else x.
Proof.
  unfold rename_atom, substitute. cbn [py_in existsb py_index].
  destruct (str_eqb x alternative_c); reflexivity.
Qed.

(** C2, at a failing input. Let the nasal codas n, m, N form a group of
    vowel variants, and let the only recorded VC unit be [N k]. For the
    missing key [m k] the search finds [N k], whose vowel differs from the
    requested one, and the segment handed to the emitter is a new object
    with exactly the contents of the donor: its atoms are still [N] and
    [k], in the flat list and in the articulation segment, and it is
    emitted under the donor's file name. *)
Theorem vc_substitute_keeps_donor_vowel :
  let nasals := [[lit "n"; lit "m"; lit "N"]] in
  let donor :=
    {| wav_offset := 100; wav_cutoff := 300;
       phoneme_list := [(lit "N", 100, 120); (lit "k", 120, 225)]%Q;
       art_seg_list :=
         [{| as_type := lit "vc"; as_phonemes := [lit "N"; lit "k"];
             as_boundaries := [100; 120; 225]%Q |}] |}%Q in
  let h := layout 0 donor in
  let cvvc_map : gmap str CvvcEntry :=
    {[ lit "N k" := {| seg_info := 0; entry_wav_file := lit "nk.wav" |} ]} in
  let run := substitute_vc nasals [] cvvc_map (lit "m k") h in
  cvvc_map !! lit "m k" = None /\
  find_alternative_vc nasals [] (lit "m k") cvvc_map = Returns (lit "N k") /\
  run.1 = Returns (Some (lit "nk.wav", 8)) /\
  read_segment run.2 8 = Some donor /\
  read_segment run.2 0 = Some donor /\
  em_file_name (generate_articulation_files 1000 donor) = lit "vc_n#_k".
Proof. vm_compute. repeat split. Qed.

(** The sibling loop over the missing VR keys does rename the vowel: with
    the same group, the missing key [m -] is filled from [N -] and the
    atom [N] becomes [m]. *)
Lemma vr_substitute_renames_vowel :
  let nasals := [[lit "n"; lit "m"; lit "N"]] in
  let donor :=
    {| wav_offset := 100; wav_cutoff := 300;
       phoneme_list := [(lit "N", 100, 120); (Sil, 120, 140)]%Q;
       art_seg_list :=
         [{| as_type := lit "vr"; as_phonemes := [lit "N"; Sil];
             as_boundaries := [110; 120; 140]%Q |}] |}%Q in
  let cvvc_map : gmap str CvvcEntry :=
    {[ lit "N -" := {| seg_info := 0; entry_wav_file := lit "n.wav" |} ]} in
  let run := substitute_vr nasals cvvc_map (lit "m") (layout 0 donor) in
  run.1 = Returns (Some (lit "n.wav", 8)) /\
  (phoneme_list <$> read_segment run.2 8)
  = Some [(lit "m", 100, 120); (Sil, 120, 140)]%Q.
Proof. vm_compute. repeat split. Qed.

(* ===================================================================== *)
(** * Further properties: quantization *)
(* ===================================================================== *)

Local Open Scope Q_scope.

(** The first loop, one iteration and all of them: the indices visited so
    far are rounded, the others untouched. *)
Lemma round_step_middle (n : nat) (done rest : list Q) (x : Q) :
  round_step n (done ++ x :: rest) (length done)
  = done ++ round_at n (length done) x :: rest.
Proof.
  unfold round_step, round_at.
  rewrite list_lookup_middle by reflexivity.
  destruct (length done =? 0)%nat; [| destruct (length done =? n - 1)%nat];
    apply insert_middle; reflexivity.
Qed.

Lemma round_loop (n : nat) (rest done : list Q) :
  fold_left (round_step n) (seq (length done) (length rest)) (done ++ rest)
  = done ++ round_from n (length done) rest.
Proof.
  revert done. induction rest as [| x rest IH]; intros done; [reflexivity |].
  cbn [length seq fold_left round_from].
  rewrite round_step_middle.
  specialize (IH (done ++ [round_at n (length done) x])).
  rewrite length_app in IH. cbn [length] in IH.
  replace (length done + 1)%nat with (S (length done)) in IH by lia.
  rewrite <- app_assoc in IH. cbn [app] in IH.
  rewrite IH. rewrite <- app_assoc. reflexivity.
Qed.

(** The second loop: iteration [i] reads the boundaries [i - 1] and [i],
    which no earlier iteration has written, and writes [i - 1]. *)
Lemma min_step_middle (done rest : list Q) (x y : Q) :
  min_step (done ++ x :: y :: rest) (S (length done))
  = done ++ pull x y :: y :: rest.
Proof.
  unfold min_step, pull.
  replace (S (length done) - 1)%nat with (length done) by lia.
  rewrite (list_lookup_middle done (y :: rest) x (length done)) by reflexivity.
  replace (done ++ x :: y :: rest) with ((done ++ [x]) ++ y :: rest)
    by (rewrite <- app_assoc; reflexivity).
  rewrite (list_lookup_middle (done ++ [x]) rest y (S (length done)))
    by (rewrite length_app; cbn; lia).
  rewrite <- app_assoc. cbn [app].
  destruct (Qlt_le_dec (y - x) min_length); [| reflexivity].
  apply insert_middle. reflexivity.
Qed.

Lemma min_loop (rest done : list Q) (x : Q) :
  fold_left min_step (seq (S (length done)) (length rest)) (done ++ x :: rest)
  = done ++ pull_back (x :: rest).
Proof.
  revert done x. induction rest as [| y rest IH]; intros done x; [reflexivity |].
  cbn [length seq fold_left].
  rewrite min_step_middle.
  specialize (IH (done ++ [pull x y]) y).
  rewrite length_app in IH. cbn [length] in IH.
  replace (length done + 1)%nat with (S (length done)) in IH by lia.
  rewrite <- app_assoc in IH. cbn [app] in IH.
  rewrite IH. rewrite <- app_assoc. reflexivity.
Qed.

Lemma round_from_length (n i : nat) (bs : list Q) :
  length (round_from n i bs) = length bs.
Proof. revert i. induction bs as [| b bs IH]; intros i; cbn; [| rewrite IH]; reflexivity. Qed.

Lemma pull_back_length (bs : list Q) : length (pull_back bs) = length bs.
Proof.
  induction bs as [| x [| y tl] IH]; try reflexivity.
  change (S (length (pull_back (y :: tl))) = S (length (y :: tl))).
  rewrite IH. reflexivity.
Qed.

Lemma quantize_boundary_closed_form (bs : list Q) :
  quantize_boundary bs = pull_back (round_from (length bs) 0 bs).
Proof.
  unfold quantize_boundary.
  pose proof (round_loop (length bs) bs []) as HR.
  cbn [length app] in HR. rewrite HR. clear HR.
  pose proof (round_from_length (length bs) 0 bs) as HL.
  destruct (round_from (length bs) 0 bs) as [| r rs] eqn:E.
  - destruct bs; [reflexivity | discriminate HL].
  - cbn [length] in HL.
    replace (length bs - 1)%nat with (length rs) by lia.
    exact (min_loop rs [] r).
Qed.

Lemma round_from_lookup (n : nat) (bs : list Q) (i j : nat) :
  round_from n i bs !! j = round_at n (i + j) <$> bs !! j.
Proof.
  revert i j. induction bs as [| b bs IH]; intros i j; [reflexivity |].
  destruct j as [| j]; cbn [round_from].
  - cbn. rewrite Nat.add_0_r. reflexivity.
  - cbn [lookup list_lookup]. rewrite IH.
    replace (S i + j)%nat with (i + S j)%nat by lia. reflexivity.
Qed.

Lemma pull_back_lookup (rs : list Q) (i : nat) :
  pull_back rs !! i
  = match rs !! i, rs !! S i with
    | Some x, Some y => Some (pull x y)
    | Some x, None => Some x
    | None, _ => None
    end.
Proof.
  revert i. induction rs as [| x [| y tl] IH]; intros i.
  - reflexivity.
  - destruct i as [| i]; reflexivity.
  - destruct i as [| i]; [reflexivity |].
    change (pull_back (y :: tl) !! i =
            match (y :: tl) !! i with
            | Some x0 => match (y :: tl) !! S i with
                         | Some y0 => Some (pull x0 y0) | None => Some x0 end
            | None => None end).
    apply IH.
Qed.

(** The two loops of [quantize_boundary] in one formula: an output boundary
    is its rounded value, pulled back to 10 ms before the rounded value of
    its successor when the two are closer than that; the last boundary is
    its rounded value. *)
Lemma quantize_boundary_lookup (bs : list Q) (i : nat) :
  let n := length bs in
  quantize_boundary bs !! i
  = match bs !! i, bs !! S i with
    | Some b, Some b' => Some (pull (round_at n i b) (round_at n (S i) b'))
    | Some b, None => Some (round_at n i b)
    | None, _ => None
    end.
Proof.
  cbn zeta. rewrite quantize_boundary_closed_form, pull_back_lookup, !round_from_lookup.
  cbn [Nat.add].
  destruct (bs !! i); [| reflexivity]. destruct (bs !! S i); reflexivity.
Qed.

(** X1: the two loops of [quantize_boundary] do not interfere, and the
    second one does not cascade. An output boundary depends on its own
    input, on the input that follows it and on the number of boundaries,
    and on nothing else: two lists of the same length that agree at the
    indices [i] and [i + 1] give the same boundary [i], whatever stands
    before and after. In particular a boundary that the second loop pulls
    back never causes its predecessor to be pulled back. *)
Theorem quantize_boundary_local (bs bs' : list Q) (i : nat) :
  length bs = length bs' ->
  bs !! i = bs' !! i ->
  bs !! S i = bs' !! S i ->
  quantize_boundary bs !! i = quantize_boundary bs' !! i.
Proof.
  intros Hlen Hi Hs.
  pose proof (quantize_boundary_lookup bs i) as L.
  pose proof (quantize_boundary_lookup bs' i) as L'.
  cbn zeta in L, L'. rewrite L, L', Hlen, Hi, Hs. reflexivity.
Qed.

Lemma quantize_boundary_local_witness :
  quantize_boundary [0; 112; 115; 300] !! 1%nat
  = quantize_boundary [110; 112; 115; 120] !! 1%nat.
Proof.
  apply (quantize_boundary_local [0; 112; 115; 300] [110; 112; 115; 120] 1);
    reflexivity.
Defined.

Theorem quantize_boundary_length (bs : list Q) :
  length (quantize_boundary bs) = length bs.
Proof.
  rewrite quantize_boundary_closed_form, pull_back_length, round_from_length. reflexivity.
Qed.

(** Rounding to the sample grid moves a time by less than one sample
    period, down or up, and rounding down is monotone. *)
Lemma to_samples (b : Q) : b / 1000 * 44100 == b * (441 # 10).
Proof. field. Qed.

Lemma from_samples (t : Q) : t * 1000 / 44100 == t * (10 # 441).
Proof. field. Qed.

Ltac samples :=
  unfold floor_to_sample, ceil_to_sample, sample_period, sample_rate in *;
  repeat match goal with
         | |- context [?t * 1000 / 44100] =>
             lazymatch goal with
             | _ : t * 1000 / 44100 == _ |- _ => fail
             | _ => pose proof (from_samples t)
             end
         | |- context [?b / 1000 * 44100] =>
             lazymatch goal with
             | _ : b / 1000 * 44100 == _ |- _ => fail
             | _ => pose proof (to_samples b)
             end
         end.

Lemma floor_to_sample_le (b : Q) : floor_to_sample b <= b.
Proof.
  pose proof (Qfloor_le (b / 1000 * 44100)) as H.
  samples. set (t := inject_Z (Qfloor (b / 1000 * 44100))) in *. lra.
Qed.

Lemma floor_to_sample_gt (b : Q) : b - sample_period < floor_to_sample b.
Proof.
  pose proof (Qlt_floor (b / 1000 * 44100)) as H.
  rewrite inject_Z_plus in H. change (inject_Z 1) with 1 in H.
  samples. set (t := inject_Z (Qfloor (b / 1000 * 44100))) in *.
  assert (1000 / 44100 == 10 # 441) by reflexivity. lra.
Qed.

Lemma ceil_to_sample_ge (b : Q) : b <= ceil_to_sample b.
Proof.
  pose proof (Qle_ceiling (b / 1000 * 44100)) as H.
  samples. set (t := inject_Z (Qceiling (b / 1000 * 44100))) in *. lra.
Qed.

Lemma ceil_to_sample_lt (b : Q) : ceil_to_sample b < b + sample_period.
Proof.
  pose proof (Qceiling_lt (b / 1000 * 44100)) as H.
  unfold Z.sub in H. rewrite inject_Z_plus in H. change (inject_Z (Z.opp 1)) with (-1) in H.
  samples. set (t := inject_Z (Qceiling (b / 1000 * 44100))) in *.
  assert (1000 / 44100 == 10 # 441) by reflexivity. lra.
Qed.

Lemma floor_to_sample_mono (a b : Q) : a <= b -> floor_to_sample a <= floor_to_sample b.
Proof.
  intros H.
  assert (Hx : a / 1000 * 44100 <= b / 1000 * 44100).
  { pose proof (to_samples a). pose proof (to_samples b). lra. }
  apply Qfloor_resp_le in Hx. rewrite Zle_Qle in Hx.
  samples.
  set (s := inject_Z (Qfloor (a / 1000 * 44100))) in *.
  set (t := inject_Z (Qfloor (b / 1000 * 44100))) in *. lra.
Qed.

Lemma floor_le_ceil_to_sample (b : Q) : floor_to_sample b <= ceil_to_sample b.
Proof.
  pose proof (floor_to_sample_le b). pose proof (ceil_to_sample_ge b). lra.
Qed.

Lemma pull_le_l (x y : Q) : pull x y <= x.
Proof. unfold pull, min_length. destruct (Qlt_le_dec (y - x) 10); lra. Qed.

Lemma pull_gap (x y : Q) : min_length <= y - pull x y.
Proof. unfold pull, min_length. destruct (Qlt_le_dec (y - x) 10); lra. Qed.

Lemma pull_keep (x y : Q) : min_length <= y - x -> pull x y = x.
Proof.
  unfold pull, min_length. intros H.
  destruct (Qlt_le_dec (y - x) 10) as [Hlt |]; [| reflexivity].
  exfalso. lra.
Qed.

Lemma round_at_inner (n i : nat) (b : Q) :
  (S i < n)%nat -> round_at n i b = floor_to_sample b.
Proof.
  intros H. unfold round_at.
  destruct (i =? 0)%nat; [reflexivity |].
  destruct (i =? n - 1)%nat eqn:E; [| reflexivity].
  apply Nat.eqb_eq in E. lia.
Qed.

Lemma round_at_last (n i : nat) (b : Q) :
  (0 < i)%nat -> (S i = n)%nat -> round_at n i b = ceil_to_sample b.
Proof.
  intros H0 H. unfold round_at.
  destruct (i =? 0)%nat eqn:E0; [apply Nat.eqb_eq in E0; lia |].
  destruct (i =? n - 1)%nat eqn:E; [reflexivity |].
  apply Nat.eqb_neq in E. lia.
Qed.

Lemma round_at_ge_floor (n i : nat) (b : Q) : floor_to_sample b <= round_at n i b.
Proof.
  unfold round_at.
  destruct (i =? 0)%nat; [lra |].
  destruct (i =? n - 1)%nat; [apply floor_le_ceil_to_sample | lra].
Qed.

Lemma round_from_nondecreasing (n : nat) (bs : list Q) (i : nat) :
  (i + length bs = n)%nat -> nondecreasing bs -> nondecreasing (round_from n i bs).
Proof.
  unfold nondecreasing. revert i.
  induction bs as [| x bs IH]; intros i Hn Hnd; [exact I |].
  destruct bs as [| y tl]; [exact I |].
  destruct Hnd as [Hxy Htl]. cbn [length] in Hn.
  change (0 <= round_at n (S i) y - round_at n i x
          /\ gaps_ge 0 (round_from n (S i) (y :: tl))).
  split.
  - rewrite (round_at_inner n i x) by lia.
    pose proof (round_at_ge_floor n (S i) y).
    assert (x <= y) as Hle by lra.
    pose proof (floor_to_sample_mono x y Hle). lra.
  - apply IH; [cbn [length]; lia | exact Htl].
Qed.

Lemma pull_back_nondecreasing (rs : list Q) :
  nondecreasing rs -> nondecreasing (pull_back rs).
Proof.
  unfold nondecreasing.
  induction rs as [| x rs IH]; intros Hnd; [exact I |].
  destruct rs as [| y tl]; [exact I |].
  destruct Hnd as [Hxy Htl]. specialize (IH Htl).
  destruct tl as [| z tl'].
  - cbn. split; [| exact I]. pose proof (pull_gap x y). unfold min_length in *. lra.
  - change (0 <= pull y z - pull x y /\ gaps_ge 0 (pull_back (y :: z :: tl'))).
    split; [| exact IH].
    destruct Htl as [Hyz _].
    unfold pull, min_length.
    destruct (Qlt_le_dec (z - y) 10), (Qlt_le_dec (y - x) 10); lra.
Qed.

(** X2: a non-decreasing sequence of boundaries stays non-decreasing. *)
Theorem quantize_boundary_nondecreasing (bs : list Q) :
  nondecreasing bs -> nondecreasing (quantize_boundary bs).
Proof.
  intros H. rewrite quantize_boundary_closed_form.
  apply pull_back_nondecreasing, round_from_nondecreasing; [reflexivity | exact H].
Qed.

Lemma quantize_boundary_nondecreasing_witness :
  nondecreasing [0; 12; 15] /\ nondecreasing (quantize_boundary [0; 12; 15]).
Proof.
  assert (H : nondecreasing [0; 12; 15]) by (vm_compute; repeat split; discriminate).
  split; [exact H | exact (quantize_boundary_nondecreasing [0; 12; 15] H)].
Defined.

(** X3: the last two boundaries of the result are at least 10 ms apart,
    whatever the input is. *)
Theorem quantize_boundary_last_gap (bs : list Q) (i : nat) (x y : Q) :
  S (S i) = length bs ->
  quantize_boundary bs !! i = Some x ->
  quantize_boundary bs !! S i = Some y ->
  min_length <= y - x.
Proof.
  intros Hn Hx Hy.
  pose proof (quantize_boundary_lookup bs i) as Li.
  pose proof (quantize_boundary_lookup bs (S i)) as Ls.
  cbn zeta in Li, Ls. rewrite Hx in Li. rewrite Hy in Ls.
  rewrite (lookup_ge_None_2 bs (S (S i))) in Ls by lia.
  destruct (bs !! i) as [b |]; [| discriminate Li].
  destruct (bs !! S i) as [b' |]; [| discriminate Ls].
  injection Li as ->. injection Ls as ->.
  apply pull_gap.
Qed.

Lemma quantize_boundary_last_gap_witness :
  exists x y : Q,
    quantize_boundary [0; 12; 15] !! 1%nat = Some x /\
    quantize_boundary [0; 12; 15] !! 2%nat = Some y /\
    min_length <= y - x.
Proof.
  eexists _, _. split; [vm_compute; reflexivity |]. split; [vm_compute; reflexivity |].
  apply (quantize_boundary_last_gap [0; 12; 15] 1); reflexivity.
Defined.

Lemma round_from_gaps (n : nat) (bs : list Q) (i : nat) :
  (i + length bs = n)%nat ->
  gaps_ge (min_length + sample_period) bs -> gaps_ge min_length (round_from n i bs).
Proof.
  revert i.
  induction bs as [| x bs IH]; intros i Hn Hg; [exact I |].
  destruct bs as [| y tl]; [exact I |].
  destruct Hg as [Hxy Htl]. cbn [length] in Hn.
  change (min_length <= round_at n (S i) y - round_at n i x
          /\ gaps_ge min_length (round_from n (S i) (y :: tl))).
  split.
  - rewrite (round_at_inner n i x) by lia.
    pose proof (round_at_ge_floor n (S i) y).
    pose proof (floor_to_sample_gt y). pose proof (floor_to_sample_le x).
    unfold min_length in *. lra.
  - apply IH; [cbn [length]; lia | exact Htl].
Qed.

Lemma pull_back_id (rs : list Q) : gaps_ge min_length rs -> pull_back rs = rs.
Proof.
  induction rs as [| x rs IH]; intros Hg; [reflexivity |].
  destruct rs as [| y tl]; [reflexivity |].
  destruct Hg as [Hxy Htl].
  change (pull x y :: pull_back (y :: tl) = x :: y :: tl).
  rewrite (pull_keep x y Hxy), (IH Htl). reflexivity.
Qed.

(** X4: when every gap of the input is at least 10 ms plus one sample
    period, every gap of the result is at least 10 ms: rounding narrows a
    gap by less than one sample period, and the second loop then finds
    nothing to pull back. *)
Theorem quantize_boundary_wide_gaps (bs : list Q) :
  gaps_ge (min_length + sample_period) bs ->
  gaps_ge min_length (quantize_boundary bs).
Proof.
  intros H.
  pose proof (round_from_gaps (length bs) bs 0 eq_refl H) as Hr.
  rewrite quantize_boundary_closed_form, (pull_back_id _ Hr).
  exact Hr.
Qed.

Lemma quantize_boundary_wide_gaps_witness :
  gaps_ge (min_length + sample_period) [0; 12; 30] /\
  gaps_ge min_length (quantize_boundary [0; 12; 30]).
Proof.
  assert (H : gaps_ge (min_length + sample_period) [0; 12; 30])
    by (vm_compute; repeat split; discriminate).
  split; [exact H | exact (quantize_boundary_wide_gaps [0; 12; 30] H)].
Defined.

(** X5: how far a boundary moves. A boundary other than the last is never
    moved later. The last boundary of two or more is moved later by less
    than one sample period, and a single boundary is moved earlier by less
    than one sample period. *)
Theorem quantize_boundary_moves (bs : list Q) (i : nat) (b x : Q) :
  bs !! i = Some b ->
  quantize_boundary bs !! i = Some x ->
  ((S i < length bs)%nat -> x <= b) /\
  ((S i = length bs)%nat -> (0 < i)%nat -> b <= x /\ x < b + sample_period) /\
  ((S i = length bs)%nat -> i = 0%nat -> b - sample_period < x /\ x <= b).
Proof.
  intros Hb Hx.
  pose proof (quantize_boundary_lookup bs i) as Li. cbn zeta in Li.
  rewrite Hx, Hb in Li.
  split; [| split].
  - intros Hlt.
    destruct (bs !! S i) as [b' |] eqn:E.
    + injection Li as ->. rewrite (round_at_inner _ i b Hlt).
      pose proof (pull_le_l (floor_to_sample b) (round_at (length bs) (S i) b')).
      pose proof (floor_to_sample_le b). lra.
    + apply lookup_ge_None_1 in E. lia.
  - intros Hl Hpos.
    rewrite (lookup_ge_None_2 bs (S i)) in Li by lia.
    injection Li as ->. rewrite (round_at_last _ i b Hpos Hl).
    split; [apply ceil_to_sample_ge | apply ceil_to_sample_lt].
  - intros Hl ->.
    rewrite (lookup_ge_None_2 bs 1) in Li by lia.
    injection Li as ->. change (round_at (length bs) 0 b) with (floor_to_sample b).
    split; [apply floor_to_sample_gt | apply floor_to_sample_le].
Qed.

Lemma quantize_boundary_moves_witness :
  exists x : Q,
    quantize_boundary [0; 12; 15] !! 2%nat = Some x /\
    15 <= x /\ x < 15 + sample_period.
Proof.
  eexists. split; [vm_compute; reflexivity |].
  apply (quantize_boundary_moves [0; 12; 15] 2 15); [reflexivity .. | lia].
Defined.

(* ===================================================================== *)
(** * Further properties: file names *)
(* ===================================================================== *)

Lemma is_escaped_away_false (d : char) :
  (d < 65 \/ 90 < d)%N ->
  d <> 92%N -> d <> 47%N -> d <> 63%N -> d <> 58%N -> d <> 60%N -> d <> 62%N ->
  is_escaped_away d = false.
Proof.
  intros Hd. intros. unfold is_escaped_away, is_upper.
  apply orb_false_iff. split.
  - apply andb_false_iff. destruct Hd; [left | right]; apply N.leb_gt; lia.
  - apply bool_decide_eq_false. rewrite !elem_of_cons, elem_of_nil. tauto.
Qed.

Lemma escape_char_clean (c : char) :
  forallb (fun d => negb (is_escaped_away d)) (escape_char c) = true.
Proof.
  unfold escape_char.
  repeat match goal with
         | |- context [(?a =? ?b)%N] => destruct (N.eqb_spec a b); subst
         end; try reflexivity.
  destruct ((65 <=? c) && (c <=? 90))%N eqn:E.
  - apply andb_true_iff in E as [E1 E2].
    apply N.leb_le in E1, E2.
    cbn [forallb]. rewrite (is_escaped_away_false (c + 32)) by lia. reflexivity.
  - apply andb_false_iff in E.
    cbn [forallb]. rewrite (is_escaped_away_false c); try assumption; [reflexivity |].
    destruct E as [E | E]; apply N.leb_gt in E; lia.
Qed.

(** X6: a name escaped for the file system holds no uppercase Latin letter
    and none of the characters [\ / ? : < >], whatever the atom was. *)
Theorem escape_xsampa_clean (xsampa : str) :
  forallb (fun c => negb (is_escaped_away c)) (escape_xsampa xsampa) = true.
Proof.
  unfold escape_xsampa.
  induction (replace_Sil xsampa) as [| c s IH]; [reflexivity |].
  cbn [flat_map]. rewrite forallb_app, escape_char_clean, IH. reflexivity.
Qed.

(** What [unescape_xsampa] undoes, step by step. *)
Lemma escape_char_base (c : char) :
  escape_char c
  = if is_upper (escape_base c) then [(escape_base c + 32)%N; 35%N] else [escape_base c].
Proof. reflexivity. Qed.

Lemma is_escape_mark_false (c : char) :
  is_escape_mark c = false ->
  c <> 45%N /\ c <> 126%N /\ c <> 33%N /\ c <> 59%N /\ c <> 40%N /\ c <> 41%N /\ c <> 35%N.
Proof.
  unfold is_escape_mark. intros H. apply bool_decide_eq_false in H.
  rewrite !elem_of_cons, elem_of_nil in H. tauto.
Qed.

Lemma escape_base_not_hash (c : char) : c <> 35%N -> escape_base c <> 35%N.
Proof.
  intros H. unfold escape_base.
  repeat match goal with
         | |- context [(?a =? ?b)%N] => destruct (N.eqb_spec a b); subst
         end; try discriminate; exact H.
Qed.

Lemma escape_head_not_hash (s : str) (d : char) (rest : str) :
  forallb (fun c => negb (is_escape_mark c)) s = true ->
  flat_map escape_char s = d :: rest -> d <> 35%N.
Proof.
  destruct s as [| c s]; [discriminate |].
  cbn [forallb flat_map]. intros Hs Hd.
  apply andb_true_iff in Hs as [Hc _]. apply negb_true_iff in Hc.
  apply is_escape_mark_false in Hc.
  pose proof (escape_base_not_hash c) as Hb.
  rewrite escape_char_base in Hd.
  destruct (is_upper (escape_base c)) eqn:E; injection Hd as <- _.
  - unfold is_upper in E. apply andb_true_iff in E as [E _]. apply N.leb_le in E. lia.
  - tauto.
Qed.

Lemma sub_lower_hash_escape (s : str) :
  forallb (fun c => negb (is_escape_mark c)) s = true ->
  sub_lower_hash (flat_map escape_char s) = List.map escape_base s.
Proof.
  induction s as [| c s IH]; [reflexivity |].
  intros Hs. pose proof Hs as Hcs.
  cbn [forallb] in Hs. apply andb_true_iff in Hs as [Hc Hs].
  specialize (IH Hs).
  cbn [flat_map List.map]. rewrite escape_char_base.
  destruct (is_upper (escape_base c)) eqn:E.
  - cbn [app sub_lower_hash].
    assert (is_lower (escape_base c + 32) = true) as ->.
    { unfold is_upper in E. unfold is_lower.
      apply andb_true_iff in E as [E1 E2]. apply N.leb_le in E1, E2.
      apply andb_true_iff. split; apply N.leb_le; lia. }
    cbn [andb N.eqb Pos.eqb]. rewrite N.add_sub, IH. reflexivity.
  - cbn [app].
    destruct (flat_map escape_char s) as [| d rest] eqn:ET.
    + cbn [sub_lower_hash]. rewrite <- IH. reflexivity.
    + pose proof (escape_head_not_hash s d rest Hs ET) as Hd.
      cbn [sub_lower_hash].
      destruct (N.eqb_spec d 35); [contradiction |].
      rewrite andb_false_r. rewrite <- IH. reflexivity.
Qed.

Lemma unescape_base (c : char) :
  is_escape_mark c = false ->
  (fun c => if (c =? 41)%N then 62%N else c)
    ((fun c => if (c =? 40)%N then 60%N else c)
      ((fun c => if (c =? 59)%N then 58%N else c)
        ((fun c => if (c =? 33)%N then 63%N else c)
          ((fun c => if (c =? 126)%N then 47%N else c)
            ((fun c => if (c =? 45)%N then 92%N else c) (escape_base c)))))) = c.
Proof.
  intros H. apply is_escape_mark_false in H.
  unfold escape_base.
  repeat match goal with
         | |- context [(c =? ?b)%N] => destruct (N.eqb_spec c b); subst
         end; cbn; try reflexivity; tauto.
Qed.

(** X7: escaping and then unescaping gives the atom back, provided the
    atom holds none of the marks [- ~ ! ; ( ) #] that the escaping writes
    and does not contain [Sil] (which [replace_Sil] would change). *)
Theorem unescape_escape_xsampa (xsampa : str) :
  forallb (fun c => negb (is_escape_mark c)) xsampa = true ->
  replace_Sil xsampa = xsampa ->
  unescape_xsampa (escape_xsampa xsampa) = xsampa.
Proof.
  intros Hs HSil. unfold unescape_xsampa, escape_xsampa.
  rewrite HSil, (sub_lower_hash_escape xsampa Hs).
  unfold replace_char. rewrite !List.map_map.
  rewrite <- (List.map_id xsampa) at 2.
  apply List.map_ext_in. intros c Hc.
  apply unescape_base.
  rewrite forallb_forall in Hs. specialize (Hs c Hc).
  apply negb_true_iff in Hs. exact Hs.
Qed.

Lemma unescape_escape_xsampa_witness :
  unescape_xsampa (escape_xsampa (lit "N\")) = lit "N\" /\
  escape_xsampa (lit "N\") = lit "n#-".
Proof.
  split; [| reflexivity].
  apply unescape_escape_xsampa; reflexivity.
Defined.

(** The atom [Sil] does not come back: [escape_xsampa] turns it into
    [sil] first, and [sil] has nothing to unescape. *)
Lemma unescape_escape_Sil :
  escape_xsampa Sil = lit "sil" /\ unescape_xsampa (escape_xsampa Sil) = lit "sil".
Proof. split; reflexivity. Qed.

(* ===================================================================== *)
(** * Further properties: the dictionary and the search for alternatives *)
(* ===================================================================== *)

(** Membership as the source tests it. *)
Lemma py_in_elem_of (x : str) (xs : list str) : py_in x xs = true <-> x ∈ xs.
Proof.
  unfold py_in. rewrite existsb_exists, list_elem_of_In. split.
  - intros [y [Hy E]]. apply str_eqb_eq in E. subst. exact Hy.
  - intros H. exists x. split; [exact H | apply str_eqb_refl].
Qed.

Lemma py_in_not_elem_of (x : str) (xs : list str) : py_in x xs = false <-> x ∉ xs.
Proof.
  rewrite <- py_in_elem_of. destruct (py_in x xs); split; congruence.
Qed.

(** X8: both look-ups of the dictionary return the first entry whose key
    is the requested one, and [None] exactly when no entry has it. *)
Theorem dictionary_lookup_first (hiragana_map : list JPhonemeMapItem) (key : str) :
  match get_hiragana_info hiragana_map key with
  | Some item =>
      exists before after, hiragana_map = before ++ item :: after /\
        kana item = key /\ Forall (fun it => kana it <> key) before
  | None => Forall (fun it => kana it <> key) hiragana_map
  end /\
  match get_romaji_info hiragana_map key with
  | Some item =>
      exists before after, hiragana_map = before ++ item :: after /\
        romaji item = key /\ Forall (fun it => romaji it <> key) before
  | None => Forall (fun it => romaji it <> key) hiragana_map
  end.
Proof.
  split.
  - induction hiragana_map as [| it rest IH]; [constructor |].
    cbn [get_hiragana_info]. destruct (str_eqb (kana it) key) eqn:E.
    + apply str_eqb_eq in E. exists [], rest. repeat split; [exact E | constructor].
    + assert (kana it <> key) as Hne
        by (intros H; apply str_eqb_eq in H; congruence).
      destruct (get_hiragana_info rest key) as [item |].
      * destruct IH as (before & after & -> & Hk & Hb).
        exists (it :: before), after. repeat split; [exact Hk | constructor; assumption].
      * constructor; assumption.
  - induction hiragana_map as [| it rest IH]; [constructor |].
    cbn [get_romaji_info]. destruct (str_eqb (romaji it) key) eqn:E.
    + apply str_eqb_eq in E. exists [], rest. repeat split; [exact E | constructor].
    + assert (romaji it <> key) as Hne
        by (intros H; apply str_eqb_eq in H; congruence).
      destruct (get_romaji_info rest key) as [item |].
      * destruct IH as (before & after & -> & Hk & Hb).
        exists (it :: before), after. repeat split; [exact Hk | constructor; assumption].
      * constructor; assumption.
Qed.

(** The two loops of [get_vowel_variants]: collecting the groups, and
    removing repetitions. *)
Lemma deduplicate_loop (xs acc : list str) :
  NoDup acc ->
  let r := fold_left (fun unique x => if py_in x unique then unique else unique ++ [x])
                     xs acc in
  NoDup r /\ (forall x, x ∈ r <-> x ∈ acc \/ x ∈ xs) /\ acc `prefix_of` r.
Proof.
  revert acc. induction xs as [| y xs IH]; intros acc Hacc; cbn [fold_left].
  - split; [exact Hacc |]. split; [| reflexivity].
    intros x. rewrite elem_of_nil. tauto.
  - destruct (py_in y acc) eqn:E.
    + apply py_in_elem_of in E.
      destruct (IH acc Hacc) as (Hn & Hm & Hp).
      split; [exact Hn |]. split; [| exact Hp].
      intros x. rewrite Hm, elem_of_cons. split; [tauto |].
      intros [H | [-> | H]]; tauto.
    + apply py_in_not_elem_of in E.
      assert (NoDup (acc ++ [y])) as Hacc'.
      { apply NoDup_app. split; [exact Hacc |]. split; [| apply NoDup_singleton].
        intros x Hx Hy. apply list_elem_of_singleton in Hy. subst. contradiction. }
      destruct (IH (acc ++ [y]) Hacc') as (Hn & Hm & Hp).
      split; [exact Hn |]. split.
      * intros x. rewrite Hm, elem_of_app, list_elem_of_singleton, elem_of_cons. tauto.
      * etransitivity; [| exact Hp]. apply prefix_app_r. reflexivity.
Qed.

Lemma collect_groups_loop (atom : str) (table : list (list str)) (acc : list str) :
  let r := fold_left (fun variants variant_list =>
                        if py_in atom variant_list then variants ++ variant_list
                        else variants) table acc in
  (forall x, x ∈ r <-> x ∈ acc \/ exists g, g ∈ table /\ atom ∈ g /\ x ∈ g)
  /\ acc `prefix_of` r.
Proof.
  revert acc. induction table as [| g table IH]; intros acc; cbn [fold_left].
  - split; [| reflexivity]. intros x. split; [tauto |].
    intros [H | (g & Hg & _)]; [exact H | apply elem_of_nil in Hg; contradiction].
  - destruct (py_in atom g) eqn:E.
    + apply py_in_elem_of in E.
      destruct (IH (acc ++ g)) as (Hm & Hp). split.
      * intros x. rewrite Hm, elem_of_app. split.
        -- intros [[H | H] | (g' & Hg' & Ha & Hx)].
           ++ tauto.
           ++ right. exists g. rewrite elem_of_cons. tauto.
           ++ right. exists g'. rewrite elem_of_cons. tauto.
        -- intros [H | (g' & Hg' & Ha & Hx)]; [tauto |].
           apply elem_of_cons in Hg' as [-> | Hg']; [tauto |].
           right. exists g'. tauto.
      * etransitivity; [| exact Hp]. apply prefix_app_r. reflexivity.
    + apply py_in_not_elem_of in E.
      destruct (IH acc) as (Hm & Hp). split; [| exact Hp].
      intros x. rewrite Hm. split.
      * intros [H | (g' & Hg' & Ha & Hx)]; [tauto |].
        right. exists g'. rewrite elem_of_cons. tauto.
      * intros [H | (g' & Hg' & Ha & Hx)]; [tauto |].
        apply elem_of_cons in Hg' as [-> | Hg']; [contradiction |].
        right. exists g'. tauto.
Qed.

Lemma get_variants_head (variant_table : list (list str)) (atom : str) :
  exists rest, get_variants variant_table atom = atom :: rest.
Proof.
  unfold get_variants, deduplicate.
  destruct (collect_groups_loop atom variant_table [atom]) as (_ & [more Hc]).
  cbn [app] in Hc. rewrite Hc. cbn [fold_left py_in existsb app].
  destruct (deduplicate_loop more [atom]) as (_ & _ & [rest Hr]).
  { apply NoDup_singleton. }
  cbv zeta in Hr. exists rest. exact Hr.
Qed.

(** X9: the candidates that [get_vowel_variants] and
    [get_consonant_variants] return for an atom: the atom itself comes
    first, no candidate is repeated, and the candidates are exactly the
    atom and the members of every group of the table that holds it. *)
Theorem get_variants_spec (variant_table : list (list str)) (atom : str) :
  (exists rest, get_variants variant_table atom = atom :: rest) /\
  NoDup (get_variants variant_table atom) /\
  (forall x, x ∈ get_variants variant_table atom <->
             x = atom \/ exists g, g ∈ variant_table /\ atom ∈ g /\ x ∈ g).
Proof.
  split; [apply get_variants_head |].
  unfold get_variants, deduplicate.
  destruct (collect_groups_loop atom variant_table [atom]) as (Hm & _).
  cbv zeta in Hm.
  set (collected := fold_left _ variant_table [atom]) in *.
  split.
  - apply (deduplicate_loop collected []). constructor.
  - intros x.
    destruct (deduplicate_loop collected []) as (_ & Hd & _); [constructor |].
    cbv zeta in Hd. rewrite Hd, Hm, elem_of_nil, list_elem_of_singleton. tauto.
Qed.

(** [split(" ", 1)] cuts at the first space. *)
Lemma split_space1_Some (s a b : str) :
  split_space1 s = Some (a, b) -> s = a ++ SPACE :: b /\ SPACE ∉ a.
Proof.
  revert a. induction s as [| c s IH]; intros a; cbn [split_space1]; [discriminate |].
  destruct (N.eqb_spec c SPACE) as [-> | Hc].
  - intros [= <- <-]. split; [reflexivity | apply not_elem_of_nil].
  - destruct (split_space1 s) as [[a' b'] |]; [| discriminate].
    intros [= <- <-]. destruct (IH a' eq_refl) as [-> Ha].
    split; [reflexivity |].
    rewrite not_elem_of_cons. split; [congruence | exact Ha].
Qed.

Lemma split_space1_None (s : str) : split_space1 s = None <-> SPACE ∉ s.
Proof.
  induction s as [| c s IH]; cbn [split_space1].
  - split; [intros _; apply not_elem_of_nil | reflexivity].
  - destruct (N.eqb_spec c SPACE) as [-> | Hc].
    + split; [discriminate |]. intros H. exfalso. apply H. apply list_elem_of_here.
    + rewrite not_elem_of_cons.
      destruct (split_space1 s) as [[a b] |].
      * split; [discriminate |]. intros [_ H]. apply IH in H. discriminate H.
      * split; [| reflexivity]. intros _. split; [congruence | apply IH; reflexivity].
Qed.

Lemma split_space1_app (a b : str) :
  SPACE ∉ a -> split_space1 (a ++ SPACE :: b) = Some (a, b).
Proof.
  induction a as [| c a IH]; intros Ha; [reflexivity |].
  apply not_elem_of_cons in Ha as [Hc Ha].
  cbn [app split_space1].
  destruct (N.eqb_spec c SPACE); [congruence |].
  rewrite (IH Ha). reflexivity.
Qed.

Lemma search_vowels_Some {V} (m : gmap str V) (c : str) (vs : list str) (k : str) :
  search_vowels m c vs = Some k ->
  is_Some (m !! k) /\ exists v, v ∈ vs /\ k = v ++ lit " " ++ c.
Proof.
  induction vs as [| v vs IH]; cbn [search_vowels]; [discriminate |].
  case_bool_decide as Hk.
  - intros [= <-]. split; [exact Hk |]. exists v. split; [apply list_elem_of_here | reflexivity].
  - intros H. destruct (IH H) as (Hs & v' & Hv' & ->).
    split; [exact Hs |]. exists v'. split; [apply list_elem_of_further, Hv' | reflexivity].
Qed.

Lemma search_vowels_None {V} (m : gmap str V) (c : str) (vs : list str) :
  search_vowels m c vs = None ->
  forall v, v ∈ vs -> m !! (v ++ lit " " ++ c) = None.
Proof.
  induction vs as [| v vs IH]; cbn [search_vowels]; intros H v' Hv'.
  - apply elem_of_nil in Hv'. contradiction.
  - case_bool_decide as Hk; [discriminate |].
    apply elem_of_cons in Hv' as [-> | Hv'].
    + apply eq_None_not_Some. exact Hk.
    + apply IH; assumption.
Qed.

Lemma search_consonants_spec {V} (m : gmap str V) (vs cs : list str) :
  let r := search_consonants m vs cs in
  (r = [] /\ forall v c, v ∈ vs -> c ∈ cs -> m !! (v ++ lit " " ++ c) = None)
  \/ (is_Some (m !! r) /\ exists v c, v ∈ vs /\ c ∈ cs /\ r = v ++ lit " " ++ c).
Proof.
  induction cs as [| c cs IH]; cbn [search_consonants].
  - left. split; [reflexivity |]. intros v c _ Hc. apply elem_of_nil in Hc. contradiction.
  - destruct (search_vowels m c vs) as [k |] eqn:E.
    + right. destruct (search_vowels_Some m c vs k E) as (Hs & v & Hv & ->).
      split; [exact Hs |]. exists v, c. split; [exact Hv |].
      split; [apply list_elem_of_here | reflexivity].
    + pose proof (search_vowels_None m c vs E) as Hnone.
      destruct IH as [[Hr Hall] | (Hs & v & c' & Hv & Hc' & Hr)].
      * left. split; [exact Hr |]. intros v c' Hv Hc'.
        apply elem_of_cons in Hc' as [-> | Hc']; [apply Hnone, Hv | apply Hall; assumption].
      * right. split; [exact Hs |]. exists v, c'.
        split; [exact Hv |]. split; [apply list_elem_of_further, Hc' | exact Hr].
Qed.

(** X10: what [find_alternative_vc] returns. A name without a space
    cannot be unpacked ([ValueError]). Otherwise the result is either a key
    that is present in the hit list and is made of a variant of the vowel,
    a space and a variant of the consonant, or the empty string, and then
    no such combination is present. *)
Theorem find_alternative_vc_spec {V} (vowel_variant_list consonant_variant_list : list (list str))
    (vc_name : str) (vc_hit_list : gmap str V) :
  match split_space1 vc_name with
  | None =>
      find_alternative_vc vowel_variant_list consonant_variant_list vc_name vc_hit_list
      = Raises ValueError
  | Some (vowel, consonant0) =>
      exists r,
        find_alternative_vc vowel_variant_list consonant_variant_list vc_name vc_hit_list
        = Returns r /\
        ((r = [] /\
          forall v c, v ∈ get_vowel_variants vowel_variant_list vowel ->
                      c ∈ get_consonant_variants consonant_variant_list consonant0 ->
                      vc_hit_list !! (v ++ lit " " ++ c) = None)
         \/ (is_Some (vc_hit_list !! r) /\
             exists v c, v ∈ get_vowel_variants vowel_variant_list vowel /\
                         c ∈ get_consonant_variants consonant_variant_list consonant0 /\
                         r = v ++ lit " " ++ c))
  end.
Proof.
  unfold find_alternative_vc.
  destruct (split_space1 vc_name) as [[vowel consonant0] |]; [| reflexivity].
  eexists. split; [reflexivity |]. apply search_consonants_spec.
Qed.

Lemma search_vr_spec {V} (m : gmap str V) (vs : list str) :
  let r := search_vr m vs in
  (r ∈ vs /\ is_Some (m !! (r ++ lit " -")))
  \/ (r = [] /\ forall v, v ∈ vs -> m !! (v ++ lit " -") = None).
Proof.
  induction vs as [| v vs IH]; cbn [search_vr].
  - right. split; [reflexivity |]. intros v Hv. apply elem_of_nil in Hv. contradiction.
  - case_bool_decide as Hk.
    + left. split; [apply list_elem_of_here | exact Hk].
    + destruct IH as [[Hr Hs] | [Hr Hall]].
      * left. split; [apply list_elem_of_further, Hr | exact Hs].
      * right. split; [exact Hr |]. intros v' Hv'.
        apply elem_of_cons in Hv' as [-> | Hv'];
          [apply eq_None_not_Some; exact Hk | apply Hall, Hv'].
Qed.

(** X11: what [find_alternative_vr] returns: a variant [r] of the vowel
    whose key [r -] is present, or the empty string when no variant has its
    key present. *)
Theorem find_alternative_vr_spec {V} (vowel_variant_list : list (list str))
    (vowel : str) (vr_hit_list : gmap str V) :
  let r := find_alternative_vr vowel_variant_list vowel vr_hit_list in
  (r ∈ get_vowel_variants vowel_variant_list vowel /\
   is_Some (vr_hit_list !! (r ++ lit " -")))
  \/ (r = [] /\
      forall v, v ∈ get_vowel_variants vowel_variant_list vowel ->
                vr_hit_list !! (v ++ lit " -") = None).
Proof. apply search_vr_spec. Qed.

(** X12: the search tries the requested consonant before its variants.
    When some vowel variant is recorded with the requested consonant, the
    alternative that is found keeps the requested consonant. *)
Theorem find_alternative_vc_keeps_consonant {V}
    (vowel_variant_list consonant_variant_list : list (list str))
    (vc_name vowel consonant0 v : str) (vc_hit_list : gmap str V) :
  split_space1 vc_name = Some (vowel, consonant0) ->
  v ∈ get_vowel_variants vowel_variant_list vowel ->
  is_Some (vc_hit_list !! (v ++ lit " " ++ consonant0)) ->
  exists v', v' ∈ get_vowel_variants vowel_variant_list vowel /\
    is_Some (vc_hit_list !! (v' ++ lit " " ++ consonant0)) /\
    find_alternative_vc vowel_variant_list consonant_variant_list vc_name vc_hit_list
    = Returns (v' ++ lit " " ++ consonant0).
Proof.
  intros Hsplit Hv Hin. unfold find_alternative_vc. rewrite Hsplit.
  unfold get_consonant_variants.
  destruct (get_variants_head consonant_variant_list consonant0) as [cs ->].
  cbn [search_consonants].
  destruct (search_vowels vc_hit_list consonant0
              (get_vowel_variants vowel_variant_list vowel)) as [k |] eqn:E.
  - destruct (search_vowels_Some _ _ _ _ E) as (Hs & v' & Hv' & ->).
    exists v'. split; [exact Hv' |]. split; [exact Hs | reflexivity].
  - pose proof (search_vowels_None _ _ _ E v Hv) as Hnone.
    rewrite Hnone in Hin. destruct Hin as [? Hin]. discriminate Hin.
Qed.

Lemma find_alternative_vc_keeps_consonant_witness :
  exists v' : str,
    find_alternative_vc [[lit "a"; lit "o"]] [[lit "k"; lit "g"]] (lit "a k")
      ({[ lit "o k" := tt; lit "a g" := tt ]} : gmap str unit)
    = Returns (v' ++ lit " " ++ lit "k").
Proof.
  destruct (find_alternative_vc_keeps_consonant
              [[lit "a"; lit "o"]] [[lit "k"; lit "g"]]
              (lit "a k") (lit "a") (lit "k") (lit "o")
              ({[ lit "o k" := tt; lit "a g" := tt ]} : gmap str unit))
    as (v' & _ & _ & H).
  - reflexivity.
  - vm_compute. apply list_elem_of_further, list_elem_of_here.
  - vm_compute. eexists. reflexivity.
  - exists v'. exact H.
Defined.

(* ===================================================================== *)
(** * Further properties: the patterns and the classifier *)
(* ===================================================================== *)

(** The matcher and the meaning of the patterns: emptiness, derivatives. *)
Lemma nullable_at_matches (r : regex) (rest : str) :
  nullable_at rest r = true -> matches r [] rest.
Proof.
  induction r; cbn [nullable_at]; intros H; try discriminate.
  - constructor.
  - apply andb_true_iff in H as [H1 H2].
    apply (matches_cat r1 r2 [] [] rest); [apply IHr1, H1 | apply IHr2, H2].
  - apply orb_true_iff in H as [H | H];
      [apply matches_alt_l, IHr1, H | apply matches_alt_r, IHr2, H].
  - apply matches_plus_one, IHr, H.
  - constructor.
  - constructor. destruct rest as [| c [| d rest]]; [left; reflexivity | | discriminate].
    apply N.eqb_eq in H. subst. right. reflexivity.
Qed.

Lemma matches_nullable_at (r : regex) (p rest : str) :
  matches r p rest -> p = [] -> nullable_at rest r = true.
Proof.
  induction 1 as [ | | r1 r2 p1 p2 rest _ IH1 _ IH2 | | | | r p1 p2 rest _ IH1 _ IH2 | | | rest H];
    intros E; cbn [nullable_at]; try discriminate; try reflexivity.
  - apply app_eq_nil in E as [-> ->].
    specialize (IH1 eq_refl). specialize (IH2 eq_refl). cbn [app] in IH1.
    rewrite IH1, IH2. reflexivity.
  - rewrite IHmatches by exact E. reflexivity.
  - rewrite IHmatches by exact E. apply orb_true_r.
  - apply IHmatches, E.
  - apply app_eq_nil in E as [-> ->]. apply (IH1 eq_refl).
  - destruct H as [-> | ->]; reflexivity.
Qed.

Lemma matches_Empty (p rest : str) : ~ matches Empty p rest.
Proof. intros H. inversion H. Qed.

Lemma deriv_matches (r : regex) (c : char) (pre rest : str) :
  matches (deriv (c :: pre ++ rest) c r) pre rest -> matches r (c :: pre) rest.
Proof.
  revert pre rest.
  induction r; intros pre rest; cbn [deriv]; intros H;
    try (exfalso; exact (matches_Empty _ _ H)).
  - destruct (in_charset c cs) eqn:E; [| exfalso; exact (matches_Empty _ _ H)].
    inversion H; subst. constructor. exact E.
  - inversion H as [ | | | ? ? ? ? HL | ? ? ? ? HR | | | | | ]; subst.
    + inversion HL as [ | | ? ? p1 p2 ? H1 H2 | | | | | | | ]; subst.
      change (matches (Cat r1 r2) ((c :: p1) ++ p2) rest).
      apply matches_cat; [| exact H2].
      apply IHr1. rewrite <- app_assoc in H1. exact H1.
    + destruct (nullable_at (c :: pre ++ rest) r1) eqn:E;
        [| exfalso; exact (matches_Empty _ _ HR)].
      change (matches (Cat r1 r2) ([] ++ c :: pre) rest).
      apply matches_cat; [apply nullable_at_matches, E | apply IHr2, HR].
  - inversion H; subst; [apply matches_alt_l, IHr1 | apply matches_alt_r, IHr2]; assumption.
  - inversion H as [ | | ? ? p1 p2 ? H1 H2 | | | | | | | ]; subst.
    rewrite <- app_assoc in H1. apply IHr in H1.
    inversion H2; subst.
    + rewrite app_nil_r. apply matches_plus_one. exact H1.
    + change (matches (Plus r) ((c :: p1) ++ p2) rest).
      apply matches_plus_more; assumption.
  - apply matches_opt_some, IHr, H.
Qed.

Lemma matches_deriv (r : regex) (p rest : str) :
  matches r p rest ->
  forall c pre, p = c :: pre -> matches (deriv (c :: pre ++ rest) c r) pre rest.
Proof.
  induction 1 as [ | cs c0 rest Hc | r1 r2 p1 p2 rest H1 IH1 H2 IH2 | r1 r2 p rest H IH
                 | r1 r2 p rest H IH | r p rest H IH | r p1 p2 rest H1 IH1 H2 IH2
                 | | r p rest H IH | ];
    intros c pre E; cbn [deriv]; try discriminate.
  - injection E as -> <-. rewrite Hc. constructor.
  - destruct p1 as [| c1 p1].
    + cbn [app] in E. subst p2.
      apply matches_alt_r.
      pose proof (matches_nullable_at r1 [] _ H1 eq_refl) as Hn.
      cbn [app] in Hn. rewrite Hn.
      apply IH2. reflexivity.
    + injection E as -> <-.
      apply matches_alt_l. apply matches_cat; [| exact H2].
      rewrite <- app_assoc. apply IH1. reflexivity.
  - apply matches_alt_l, IH, E.
  - apply matches_alt_r, IH, E.
  - subst p.
    replace pre with (pre ++ []) at 2 by apply app_nil_r.
    apply matches_cat; [| constructor]. apply IH. reflexivity.
  - destruct p1 as [| c1 p1].
    + cbn [app] in E. apply (IH2 c pre E).
    + injection E as -> <-.
      apply matches_cat; [| apply matches_opt_some, H2].
      rewrite <- app_assoc. apply IH1. reflexivity.
  - apply IH, E.
Qed.

(** The matcher agrees with the meaning of the patterns: [re_match r s]
    holds exactly when [r] matches a prefix of [s]. *)
Lemma re_match_matches (r : regex) (s : str) :
  re_match r s = true <-> exists pre rest, s = pre ++ rest /\ matches r pre rest.
Proof.
  revert r. induction s as [| c s IH]; intros r.
  - cbn [re_match]. rewrite orb_false_r. split.
    + intros H. exists [], []. split; [reflexivity | apply nullable_at_matches, H].
    + intros (pre & rest & E & H). symmetry in E. apply app_eq_nil in E as [-> ->].
      apply (matches_nullable_at r [] [] H eq_refl).
  - cbn [re_match]. rewrite orb_true_iff, IH. split.
    + intros [H | (pre & rest & -> & H)].
      * exists [], (c :: s). split; [reflexivity | apply nullable_at_matches, H].
      * exists (c :: pre), rest. split; [reflexivity | apply deriv_matches, H].
    + intros (pre & rest & E & H). destruct pre as [| c' pre].
      * left. cbn [app] in E. subst rest. apply (matches_nullable_at r [] _ H eq_refl).
      * right. injection E as <- ->. exists pre, rest.
        split; [reflexivity | apply (matches_deriv r _ _ H), eq_refl].
Qed.

Lemma matches_plus_cls (cs : charset) (p rest : str) :
  matches (Plus (Cls cs)) p rest <->
  p <> [] /\ forallb (fun c => in_charset c cs) p = true.
Proof.
  split.
  - intros H. remember (Plus (Cls cs)) as r eqn:Er.
    induction H as [ | | | | | r p rest H _ | r p1 p2 rest H1 _ H2 IH2 | | | ];
      try discriminate; injection Er as ->.
    + inversion H as [ | ? ? ? Hc | | | | | | | | ]; subst.
      split; [discriminate |]. cbn [forallb]. rewrite Hc. reflexivity.
    + inversion H1 as [ | ? ? ? Hc | | | | | | | | ]; subst.
      destruct (IH2 eq_refl) as [_ Hall].
      split; [discriminate |]. cbn [app forallb]. rewrite Hc, Hall. reflexivity.
  - intros [Hne Hall]. revert rest.
    induction p as [| c p IH]; intros rest; [contradiction |].
    cbn [forallb] in Hall. apply andb_true_iff in Hall as [Hc Hall].
    destruct p as [| d p].
    + apply matches_plus_one. constructor. exact Hc.
    + change (matches (Plus (Cls cs)) ([c] ++ d :: p) rest).
      apply matches_plus_more; [constructor; exact Hc |].
      apply IH; [discriminate | exact Hall].
Qed.

(** [[0-9]+$] at the start of the subject: the subject is a run of digits,
    perhaps followed by one newline. *)
Lemma re_digits_spec (s : str) :
  re_match re_digits s = true <->
  exists ds, ds <> [] /\ forallb (fun c => in_charset c DIGIT) ds = true /\
             (s = ds \/ s = ds ++ [NEWLINE]).
Proof.
  rewrite re_match_matches. unfold re_digits. split.
  - intros (pre & rest & -> & H).
    inversion H as [ | | ? ? p1 p2 ? H1 H2 | | | | | | | ]; subst.
    inversion H2 as [ | | | | | | | | | ? Hrest]; subst.
    apply matches_plus_cls in H1 as [Hne Hall].
    exists p1. split; [exact Hne |]. split; [exact Hall |].
    rewrite app_nil_r. destruct Hrest as [-> | ->]; [left; apply app_nil_r | right; reflexivity].
  - intros (ds & Hne & Hall & Hs).
    assert (forall rest, rest = [] \/ rest = [NEWLINE] ->
                         matches (Cat (Plus (Cls DIGIT)) Eol) ds rest) as Hm.
    { intros rest Hrest. rewrite <- (app_nil_r ds).
      apply matches_cat; [| constructor; exact Hrest].
      apply matches_plus_cls. split; [exact Hne | exact Hall]. }
    destruct Hs as [-> | ->].
    + exists ds, []. split; [symmetry; apply app_nil_r | apply Hm; left; reflexivity].
    + exists ds, [NEWLINE]. split; [reflexivity | apply Hm; right; reflexivity].
Qed.

Lemma drop_digits_all (ds : str) :
  forallb (fun c => in_charset c DIGIT) ds = true -> drop_digits ds = [].
Proof.
  induction ds as [| c ds IH]; [reflexivity |].
  cbn [forallb drop_digits]. intros H. apply andb_true_iff in H as [Hc H].
  rewrite Hc. exact (IH H).
Qed.

Lemma forallb_rev {A} (f : A -> bool) (l : list A) :
  forallb f l = true -> forallb f (rev l) = true.
Proof.
  rewrite !forallb_forall. intros H x Hx. apply H. apply in_rev. exact Hx.
Qed.

Lemma digit_not_newline (c : char) : in_charset c DIGIT = true -> (c =? NEWLINE)%N = false.
Proof.
  unfold in_charset, DIGIT. cbn [existsb fst snd]. rewrite orb_false_r.
  intros H. apply andb_true_iff in H as [H _]. apply N.leb_le in H.
  apply N.eqb_neq. unfold NEWLINE. lia.
Qed.

Lemma sub_trailing_digits_all (ds : str) :
  forallb (fun c => in_charset c DIGIT) ds = true ->
  sub_trailing_digits ds = [] /\ sub_trailing_digits (ds ++ [NEWLINE]) = [NEWLINE].
Proof.
  intros H. pose proof (forallb_rev _ _ H) as Hr. unfold sub_trailing_digits. split.
  - destruct (rev ds) as [| c s'] eqn:E; [reflexivity |].
    cbn [forallb] in Hr. apply andb_true_iff in Hr as [Hc Hs].
    rewrite (digit_not_newline c Hc).
    change (c :: s') with ([c] ++ s') in E.
    rewrite (drop_digits_all (c :: s')); [reflexivity |].
    cbn [forallb]. rewrite Hc, Hs. reflexivity.
  - rewrite rev_unit. cbn [N.eqb NEWLINE Pos.eqb].
    rewrite (drop_digits_all _ Hr). reflexivity.
Qed.

(** X14: an alias that is empty or made of digits only raises
    [IndexError]: the digits are removed and the first character of the
    empty string is read. *)
Theorem digit_alias_raises (hiragana_map : list JPhonemeMapItem) (oto_entry : OtoInfo) :
  forallb (fun c => in_charset c DIGIT) (alias oto_entry) = true ->
  get_oto_entry_phoneme_info hiragana_map oto_entry = Raises IndexError.
Proof.
  intros H. unfold get_oto_entry_phoneme_info.
  destruct (alias oto_entry) as [| c ds] eqn:E; [reflexivity |].
  assert (re_match re_digits (c :: ds) = true) as ->.
  { apply re_digits_spec. exists (c :: ds). split; [discriminate |]. split; [exact H | left; reflexivity]. }
  rewrite (proj1 (sub_trailing_digits_all (c :: ds) H)). reflexivity.
Qed.

Lemma digit_alias_raises_witness :
  get_oto_entry_phoneme_info sample_hiragana_map (sample_entry (lit "12")) = Raises IndexError.
Proof. apply digit_alias_raises. reflexivity. Defined.

Lemma rx_type_kana_tag (atoms : list str) (t : string) :
  rx_type_kana atoms = Returns t -> In t type_tags.
Proof.
  unfold rx_type_kana, type_tags.
  destruct atoms as [| a [| b l]]; try destruct (xsampa_is_vowel a);
    intros [= <-]; cbn; tauto.
Qed.

Lemma rx_type_romaji_tag (x : str) (atoms : list str) (t : string) :
  rx_type_romaji x atoms = Returns t -> In t type_tags.
Proof.
  unfold rx_type_romaji, type_tags.
  destruct atoms as [| a [| b [| c l]]]; try destruct (xsampa_is_vowel a);
    intros [= <-] || discriminate; cbn; tauto.
Qed.

(** Every branch that returns an object either leaves it as it was (the
    V-C-V branch) or assigns the three attributes together. *)
Lemma classify_alias_invariant (hiragana_map : list JPhonemeMapItem)
    (ret : OtoEntryPhonemeInfo) (item_alias : str) (r : OtoEntryPhonemeInfo) :
  classify_alias hiragana_map ret item_alias = Returns (Some r) ->
  r = ret \/
  exists t infos,
    In t type_tags /\ (length infos = 1 \/ length infos = 2)%nat /\
    r = classified ret t infos (List.concat (List.map phoneme infos)).
Proof.
  intros H. unfold classify_alias in H.
  destruct item_alias as [| ch rest]; [discriminate H |].
  cbn [py_nth lookup list_lookup mbind result_mbind result_bind] in H.
  remember (ch :: rest) as item_alias eqn:Ealias.
  assert (forall t (pi : JPhonemeMapItem), In t type_tags ->
            exists t' infos, In t' type_tags /\ (length infos = 1 \/ length infos = 2)%nat /\
              classified ret t [pi] (phoneme pi)
              = classified ret t' infos (List.concat (List.map phoneme infos))) as One.
  { intros t pi Ht. exists t, [pi]. split; [exact Ht |]. split; [left; reflexivity |].
    cbn [List.map List.concat]. rewrite app_nil_r. reflexivity. }
  assert (forall t (i1 i2 : JPhonemeMapItem), In t type_tags ->
            exists t' infos, In t' type_tags /\ (length infos = 1 \/ length infos = 2)%nat /\
              classified ret t [i1; i2] (phoneme i1 ++ phoneme i2)
              = classified ret t' infos (List.concat (List.map phoneme infos))) as Two.
  { intros t i1 i2 Ht. exists t, [i1; i2]. split; [exact Ht |]. split; [right; reflexivity |].
    cbn [List.map List.concat]. rewrite app_nil_r. reflexivity. }
  destruct (ch =? HYPHEN)%N.
  { destruct (re_match re_kana_word _).
    - destruct (get_hiragana_info _ _) as [pi|]; [| discriminate H].
      cbn [mbind result_mbind result_bind] in H.
      destruct (rx_type_kana (phoneme pi)) as [t|] eqn:Et; [| discriminate H].
      injection H as <-. right. apply One. exact (rx_type_kana_tag _ _ Et).
    - destruct (get_romaji_info _ _) as [pi|]; [| discriminate H].
      cbn [mbind result_mbind result_bind] in H.
      destruct (rx_type_romaji _ (phoneme pi)) as [t|] eqn:Et; [| discriminate H].
      injection H as <-. right. apply One. exact (rx_type_romaji_tag _ _ _ Et). }
  destruct (_ =? HYPHEN)%N.
  { destruct (re_match re_vr _); [| discriminate H].
    destruct (get_romaji_info _ _) as [pi|]; [| discriminate H].
    destruct (length (phoneme pi) =? 1)%nat; [| discriminate H].
    injection H as <-. right. apply One. cbn. tauto. }
  destruct (re_match re_vv item_alias).
  { destruct (get_romaji_info _ _) as [i1|]; [| discriminate H].
    destruct (if re_match re_latin_vowel _ then _ else _) as [i2|]; [| discriminate H].
    injection H as <-. right. apply Two. cbn. tauto. }
  destruct (re_match re_nv item_alias).
  { destruct (get_hiragana_info _ KANA_N) as [i1|]; [| discriminate H].
    destruct (get_hiragana_info _ _) as [i2|]; [| discriminate H].
    injection H as <-. right. apply Two. cbn. tauto. }
  destruct (re_match re_vcv item_alias).
  { injection H as <-. left. reflexivity. }
  destruct (re_match re_vc item_alias && negb (re_match re_n_vowel item_alias)).
  { destruct (get_romaji_info _ (char_at _ _)) as [vi|] eqn:Ev; [| discriminate H].
    destruct (get_romaji_info _ (drop _ _)) as [ci|] eqn:Ec; [| discriminate H].
    unfold py_nth in H.
    destruct (phoneme vi !! 0%nat) as [v0|] eqn:Ev0; [| discriminate H].
    cbn [mbind result_mbind result_bind] in H.
    destruct (phoneme ci !! 0%nat) as [c0|] eqn:Ec0; [| discriminate H].
    cbn [mbind result_mbind result_bind] in H.
    injection H as <-. right.
    match goal with
    | |- context [classified ret "vc" [?a; ?b] _] => apply (Two "vc"%string a b)
    end. cbn. tauto. }
  destruct (re_match re_cv item_alias); [| discriminate H].
  destruct (if re_match re_latin_space_word _ then _ else _) as [pi|]; [| discriminate H].
  injection H as <-. right. apply One. cbn. tauto.
Qed.

Lemma classify_alias_blank (hiragana_map : list JPhonemeMapItem) (ret : OtoEntryPhonemeInfo)
    (item_alias : str) :
  item_alias = [] \/ item_alias = [NEWLINE] ->
  exists ex, classify_alias hiragana_map ret item_alias = Raises ex.
Proof. intros [-> | ->]; eexists; reflexivity. Qed.

(** X13: what a returned object looks like. The attribute
    [is_alternative] is never set on it: the test for an alternative take
    uses [re.match], which is anchored at the start, so it only fires on an
    alias made of digits, and such an alias raises afterwards. Apart from
    the untouched object of the V-C-V branch, the object carries one of the
    seven type tags, one or two dictionary entries, and a phoneme list that
    is the concatenation of the phoneme lists of these entries. *)
Theorem classified_entry_invariant (hiragana_map : list JPhonemeMapItem)
    (oto_entry : OtoInfo) (r : OtoEntryPhonemeInfo) :
  get_oto_entry_phoneme_info hiragana_map oto_entry = Returns (Some r) ->
  ep_is_alternative r = None /\
  (r = new_entry \/
   exists t infos,
     In t type_tags /\ (length infos = 1 \/ length infos = 2)%nat /\
     ep_type r = Some (lit t) /\
     ep_phoneme_info_list r = Some infos /\
     ep_phoneme_list r = Some (List.concat (List.map phoneme infos))).
Proof.
  unfold get_oto_entry_phoneme_info. intros H.
  destruct (re_match re_digits (alias oto_entry)) eqn:E.
  - exfalso. apply re_digits_spec in E as (ds & _ & Hall & Hs).
    destruct (sub_trailing_digits_all ds Hall) as [H1 H2].
    destruct (classify_alias_blank hiragana_map
                {| ep_type := ep_type new_entry;
                   ep_phoneme_info_list := ep_phoneme_info_list new_entry;
                   ep_phoneme_list := ep_phoneme_list new_entry;
                   ep_is_alternative := Some true |}
                (sub_trailing_digits (alias oto_entry))) as [ex Hex].
    { destruct Hs as [-> | ->]; [left; exact H1 | right; exact H2]. }
    rewrite Hex in H. discriminate H.
  - apply classify_alias_invariant in H as [-> | (t & infos & Ht & Hl & ->)].
    + split; [reflexivity | left; reflexivity].
    + split; [reflexivity |]. right. exists t, infos. repeat split; assumption.
Qed.

Lemma classified_entry_invariant_witness :
  exists r, get_oto_entry_phoneme_info sample_hiragana_map (sample_entry (lit "ka"))
            = Returns (Some r) /\ ep_is_alternative r = None.
Proof.
  eexists. split; [vm_compute; reflexivity |].
  apply (classified_entry_invariant sample_hiragana_map (sample_entry (lit "ka"))).
  vm_compute. reflexivity.
Defined.

(** What a match tells about the characters of the subject. *)
Lemma in_charset_app (c : char) (cs1 cs2 : charset) :
  in_charset c (cs1 ++ cs2) = in_charset c cs1 || in_charset c cs2.
Proof. unfold in_charset. apply existsb_app. Qed.

Lemma matches_alphabet (r : regex) (p rest : str) :
  matches r p rest -> forallb (fun c => in_charset c (alphabet r)) p = true.
Proof.
  induction 1; cbn [alphabet forallb]; try reflexivity.
  - rewrite H. reflexivity.
  - rewrite forallb_app. apply andb_true_iff. split.
    + rewrite forallb_forall in IHmatches1 |- *. intros c Hc.
      rewrite in_charset_app, (IHmatches1 c Hc). reflexivity.
    + rewrite forallb_forall in IHmatches2 |- *. intros c Hc.
      rewrite in_charset_app, (IHmatches2 c Hc). apply orb_true_r.
  - rewrite forallb_forall in IHmatches |- *. intros c Hc.
    rewrite in_charset_app, (IHmatches c Hc). reflexivity.
  - rewrite forallb_forall in IHmatches |- *. intros c Hc.
    rewrite in_charset_app, (IHmatches c Hc). apply orb_true_r.
  - exact IHmatches.
  - rewrite forallb_app. cbn [alphabet] in IHmatches2. rewrite IHmatches1, IHmatches2. reflexivity.
  - exact IHmatches.
Qed.

Lemma matches_anchored (r : regex) (p rest : str) :
  matches r p rest -> anchored r = true -> rest = [] \/ rest = [NEWLINE].
Proof.
  induction 1; cbn [anchored]; intros Ha; try discriminate.
  - apply IHmatches2, Ha.
  - assumption.
Qed.

Lemma charset_disjoint_spec (cs1 cs2 : charset) (c : char) :
  charset_disjoint cs1 cs2 = true -> in_charset c cs1 = true -> in_charset c cs2 = false.
Proof.
  unfold charset_disjoint, in_charset. intros Hd H1.
  apply existsb_exists in H1 as (r1 & Hr1 & Hc1).
  rewrite forallb_forall in Hd. specialize (Hd r1 Hr1).
  rewrite forallb_forall in Hd.
  apply not_true_is_false. intros H2.
  apply existsb_exists in H2 as (r2 & Hr2 & Hc2).
  specialize (Hd r2 Hr2).
  apply andb_true_iff in Hc1 as [A1 B1]. apply andb_true_iff in Hc2 as [A2 B2].
  apply N.leb_le in A1, B1, A2, B2.
  apply orb_true_iff in Hd as [Hd | Hd]; apply N.ltb_lt in Hd; lia.
Qed.

(** A subject that holds a character outside the alphabet of an anchored
    pattern, other than a newline, does not match it. *)
Lemma re_match_foreign (r : regex) (s : str) (c : char) :
  anchored r = true -> In c s -> in_charset c (alphabet r) = false -> c <> NEWLINE ->
  re_match r s = false.
Proof.
  intros Ha Hc Hout Hnl. apply not_true_is_false. intros H.
  apply re_match_matches in H as (pre & rest & -> & Hm).
  pose proof (matches_alphabet _ _ _ Hm) as Hal. rewrite forallb_forall in Hal.
  apply in_app_or in Hc as [Hc | Hc].
  - rewrite (Hal c Hc) in Hout. discriminate Hout.
  - destruct (matches_anchored _ _ _ Hm Ha) as [-> | ->]; [destruct Hc |].
    destruct Hc as [<- | []]. contradiction.
Qed.

Lemma lstrip_keeps (c : char) (s : str) :
  In c s -> py_isspace c = false -> In c (lstrip s).
Proof.
  induction s as [| d s IH]; [intros [] |].
  intros [-> | Hc] Hsp; cbn [lstrip].
  - rewrite Hsp. left. reflexivity.
  - destruct (py_isspace d); [apply IH; assumption | right; exact Hc].
Qed.

Lemma strip_keeps (c : char) (s : str) :
  In c s -> py_isspace c = false -> In c (strip s).
Proof.
  intros Hc Hsp. unfold strip.
  apply in_rev. rewrite rev_involutive.
  apply lstrip_keeps; [| exact Hsp]. apply -> in_rev.
  apply lstrip_keeps; assumption.
Qed.

Lemma removelast_keeps {A} (c : A) (s : list A) (d : A) :
  In c s -> c <> List.last s d -> In c (removelast s).
Proof.
  induction s as [| x s IH]; [intros [] |].
  destruct s as [| y s].
  - intros [-> | []] Hne. cbn in Hne. contradiction.
  - intros Hc Hne. change (In c (x :: removelast (y :: s))).
    destruct Hc as [-> | Hc]; [left; reflexivity | right].
    apply IH; [exact Hc | exact Hne].
Qed.

Lemma digit_facts (c : char) :
  in_charset c DIGIT = true ->
  c <> NEWLINE /\ c <> HYPHEN /\ py_isspace c = false.
Proof.
  unfold in_charset, DIGIT. cbn [existsb fst snd]. rewrite orb_false_r.
  intros H. apply andb_true_iff in H as [H1 H2]. apply N.leb_le in H1, H2.
  unfold NEWLINE, HYPHEN. split; [lia |]. split; [lia |].
  assert (forall a b, (b < 48 \/ 57 < a)%N -> ((a <=? c) && (c <=? b))%N = false) as Hrange.
  { intros a b Hab. apply andb_false_iff.
    destruct Hab; [right | left]; apply N.leb_gt; lia. }
  assert (forall a, (a < 48 \/ 57 < a)%N -> (c =? a)%N = false) as Heq.
  { intros a Ha. apply N.eqb_neq. lia. }
  unfold py_isspace.
  rewrite !Hrange by lia. rewrite !Heq by lia. reflexivity.
Qed.

(** X15: a numbered alias is never classified. When the alias does not
    start with [-] and holds a digit anywhere, every pattern of the grammar
    fails and the classifier raises, so the unit is skipped. *)
Theorem numbered_alias_raises (hiragana_map : list JPhonemeMapItem) (oto_entry : OtoInfo)
    (first d : char) (rest : str) :
  alias oto_entry = first :: rest ->
  first <> HYPHEN ->
  In d (alias oto_entry) ->
  in_charset d DIGIT = true ->
  exists ex, get_oto_entry_phoneme_info hiragana_map oto_entry = Raises ex.
Proof.
  intros Ealias Hfirst Hd Hdigit.
  destruct (digit_facts d Hdigit) as (Hnl & Hhy & Hsp).
  assert (forall r, anchored r = true ->
                    charset_disjoint DIGIT (alphabet r) = true ->
                    re_match r (alias oto_entry) = false) as Dead.
  { intros r Ha Hdis. apply (re_match_foreign r _ d Ha Hd); [| exact Hnl].
    exact (charset_disjoint_spec _ _ d Hdis Hdigit). }
  unfold get_oto_entry_phoneme_info.
  destruct (re_match re_digits (alias oto_entry)) eqn:E.
  - apply re_digits_spec in E as (ds & _ & Hall & Hs).
    destruct (sub_trailing_digits_all ds Hall) as [H1 H2].
    apply classify_alias_blank.
    destruct Hs as [-> | ->]; [left; exact H1 | right; exact H2].
  - unfold classify_alias. rewrite Ealias.
    cbn [py_nth lookup list_lookup mbind result_mbind result_bind].
    rewrite <- Ealias.
    destruct (N.eqb_spec first HYPHEN); [contradiction |].
    destruct (List.last (alias oto_entry) 0%N =? HYPHEN)%N eqn:El.
    + apply N.eqb_eq in El.
      assert (re_match re_vr (strip (removelast (alias oto_entry))) = false) as ->.
      { apply (re_match_foreign re_vr _ d); [reflexivity | | | exact Hnl].
        - apply strip_keeps; [| exact Hsp].
          apply (removelast_keeps d _ 0%N Hd). congruence.
        - exact (charset_disjoint_spec DIGIT (alphabet re_vr) d eq_refl Hdigit). }
      eexists. reflexivity.
    + rewrite (Dead re_vv), (Dead re_nv), (Dead re_vcv), (Dead re_vc), (Dead re_cv)
        by reflexivity.
      cbn [andb]. eexists. reflexivity.
Qed.

Lemma numbered_alias_raises_witness :
  exists ex, get_oto_entry_phoneme_info sample_hiragana_map (sample_entry (lit "ka2"))
             = Raises ex.
Proof.
  apply (numbered_alias_raises sample_hiragana_map (sample_entry (lit "ka2"))
           107%N 50%N (lit "a2")).
  - reflexivity.
  - discriminate.
  - cbn. tauto.
  - reflexivity.
Defined.

(* ===================================================================== *)
(** * Further properties: derived segments and their emission *)
(* ===================================================================== *)

Ltac form_tail :=
  eexists; (split; [cbn; tauto |]);
  (split; [| split; [reflexivity | split; reflexivity]]); reflexivity.

(** Every segment that the deriver builds has the same form. *)
Lemma segment_of_entry_form (plosive_consonant_list : list str)
    (hiragana_map : list JPhonemeMapItem) (e : OtoInfo) (s : SegmentInfo) :
  segment_of_entry plosive_consonant_list hiragana_map e = Returns s ->
  exists (a b : str) (t0 t1 t2 : Q) (t : string) (bs : list Q),
    In t art_seg_tags /\ length bs = 3%nat /\
    wav_offset s = offset e /\
    phoneme_list s = [(a, t0, t1); (b, t1, t2)] /\
    art_seg_list s =
      [{| as_type := lit t; as_phonemes := [a; b];
          as_boundaries := quantize_boundary bs |}].
Proof.
  unfold segment_of_entry.
  destruct (get_oto_entry_phoneme_info hiragana_map e) as [[r |] | ex];
    cbn [mbind result_mbind result_bind getattr]; try discriminate.
  destruct (ep_type r) as [t |]; cbn [mbind result_mbind result_bind getattr];
    try discriminate.
  destruct (ep_phoneme_list r) as [atoms |];
    cbn [mbind result_mbind result_bind getattr].
  2: { repeat (destruct (str_eqb t _)); discriminate. }
  unfold py_nth.
  destruct (atoms !! 0%nat) as [a0 |]; destruct (atoms !! 1%nat) as [a1 |];
    cbn [mbind result_mbind result_bind];
    repeat (destruct (str_eqb t _); cbn [mbind result_mbind result_bind]);
    intros [= <-] || discriminate;
    cbn [wav_offset phoneme_list art_seg_list];
    do 5 eexists;
    first [ solve [exists "rc"%string; form_tail] | solve [exists "rv"%string; form_tail]
          | solve [exists "vv"%string; form_tail] | solve [exists "cv"%string; form_tail]
          | solve [exists "vc"%string; form_tail] | solve [exists "vr"%string; form_tail] ].
Qed.

(** X16: the form of every derived segment. It has two phoneme entries,
    the second starting where the first ends; one articulation segment
    whose two atoms are those of the entries, whose tag is one of [rc],
    [rv], [vv], [cv], [vc], [vr] (never [rcv]), and which has three
    boundaries, the last two at least 10 ms apart. *)
Theorem derived_segment_invariant (plosive_consonant_list : list str)
    (hiragana_map : list JPhonemeMapItem) (e : OtoInfo) (s : SegmentInfo) :
  segment_of_entry plosive_consonant_list hiragana_map e = Returns s ->
  exists (a b : str) (t0 t1 t2 : Q) (seg : ArticulationSegmentInfo) (b0 b1 b2 : Q),
    phoneme_list s = [(a, t0, t1); (b, t1, t2)] /\
    art_seg_list s = [seg] /\
    as_phonemes seg = [a; b] /\
    In (as_type seg) (List.map lit art_seg_tags) /\
    as_boundaries seg = [b0; b1; b2] /\
    min_length <= b2 - b1.
Proof.
  intros H.
  destruct (segment_of_entry_form _ _ _ _ H)
    as (a & b & t0 & t1 & t2 & t & bs & Ht & Hbs & _ & Hp & Ha).
  destruct bs as [| x [| y [| z [| ? ?]]]]; try discriminate Hbs.
  exists a, b, t0, t1, t2.
  eexists. rewrite quantize_boundary_closed_form in Ha.
  cbn [length round_from pull_back] in Ha.
  do 3 eexists. split; [exact Hp |]. split; [exact Ha |].
  cbn [as_phonemes as_type as_boundaries].
  split; [reflexivity |]. split; [apply in_map, Ht |]. split; [reflexivity |].
  apply pull_gap.
Qed.

Lemma derived_segment_invariant_witness :
  exists s,
    segment_of_entry [] sample_hiragana_map (sample_entry (lit "ka")) = Returns s /\
    exists (a b : str) (t0 t1 t2 : Q) (seg : ArticulationSegmentInfo) (b0 b1 b2 : Q),
      phoneme_list s = [(a, t0, t1); (b, t1, t2)] /\
      art_seg_list s = [seg] /\
      as_phonemes seg = [a; b] /\
      In (as_type seg) (List.map lit art_seg_tags) /\
      as_boundaries seg = [b0; b1; b2] /\
      min_length <= b2 - b1.
Proof.
  eexists. split; [reflexivity |].
  apply (derived_segment_invariant [] sample_hiragana_map (sample_entry (lit "ka"))).
  reflexivity.
Defined.

(** X17: the name and the transition list of a derived segment. The
    segment has one articulation segment, and the file name is the tag of
    that articulation segment and the two escaped atoms, joined by [_]; the
    prefixes [rcv_] and [unknown_] never occur, so a unit classified [rcv]
    is written under the name of an [rc] unit. The transition list is the
    line of the two atoms and one bracketed pair. *)
Theorem derived_segment_artifacts (plosive_consonant_list : list str)
    (hiragana_map : list JPhonemeMapItem) (e : OtoInfo) (s : SegmentInfo) (wav_length : Q) :
  segment_of_entry plosive_consonant_list hiragana_map e = Returns s ->
  exists (a b : str) (seg : ArticulationSegmentInfo),
    art_seg_list s = [seg] /\
    In (as_type seg) (List.map lit art_seg_tags) /\
    List.map atom_of (phoneme_list s) = [a; b] /\
    em_file_name (generate_articulation_files wav_length s)
    = as_type seg ++ lit "_" ++ escape_xsampa a ++ lit "_" ++ escape_xsampa b /\
    em_trans_content (generate_articulation_files wav_length s)
    = a ++ lit " " ++ b ++ [NEWLINE] ++ lit "[" ++ a ++ lit " " ++ b ++ lit "]".
Proof.
  intros H.
  destruct (segment_of_entry_form _ _ _ _ H)
    as (a & b & t0 & t1 & t2 & t & bs & Ht & _ & _ & Hp & Ha).
  exists a, b. eexists. split; [exact Ha |].
  cbn [as_type]. split; [apply in_map, Ht |].
  unfold generate_articulation_files, get_segment_file_name,
    generate_articulation_trans_file, trans_content, trans_pair_line.
  cbn [em_file_name em_trans_content]. rewrite Hp, Ha.
  cbn [List.map atom_of fst snd as_type join length Nat.sub seq app lookup list_lookup Nat.add].
  split; [reflexivity |]. split; [rewrite <- !app_assoc; reflexivity |].
  rewrite <- !app_assoc. reflexivity.
Qed.

Lemma derived_segment_artifacts_witness :
  exists s,
    segment_of_entry [] sample_hiragana_map (sample_entry (lit "- ka")) = Returns s /\
    em_file_name (generate_articulation_files 1000 s) = lit "rc_sil_k" /\
    exists (a b : str) (seg : ArticulationSegmentInfo),
      art_seg_list s = [seg] /\
      In (as_type seg) (List.map lit art_seg_tags) /\
      List.map atom_of (phoneme_list s) = [a; b] /\
      em_file_name (generate_articulation_files 1000 s)
      = as_type seg ++ lit "_" ++ escape_xsampa a ++ lit "_" ++ escape_xsampa b /\
      em_trans_content (generate_articulation_files 1000 s)
      = a ++ lit " " ++ b ++ [NEWLINE] ++ lit "[" ++ a ++ lit " " ++ b ++ lit "]".
Proof.
  eexists. split; [reflexivity |]. split; [reflexivity |].
  apply (derived_segment_artifacts [] sample_hiragana_map (sample_entry (lit "- ka"))).
  reflexivity.
Defined.

Lemma matches_requires_char (c : char) (r : regex) (p rest : str) :
  matches r p rest -> requires_char c r = true -> In c p.
Proof.
  induction 1 as [ | cs c0 rest Hc | r1 r2 p1 p2 rest _ IH1 _ IH2 | r1 r2 p rest _ IH
                 | r1 r2 p rest _ IH | r p rest _ IH | r p1 p2 rest _ IH1 _ IH2
                 | | | ];
    cbn [requires_char]; intros Hr; try discriminate.
  - destruct cs as [| [lo hi] [| ? ?]]; try discriminate.
    apply andb_true_iff in Hr as [Hlo Hhi].
    apply N.eqb_eq in Hlo, Hhi. subst.
    unfold in_charset in Hc. cbn [existsb fst snd] in Hc. rewrite orb_false_r in Hc.
    apply andb_true_iff in Hc as [A B]. apply N.leb_le in A, B.
    left. lia.
  - apply in_or_app. apply orb_true_iff in Hr as [Hr | Hr]; [left; apply IH1, Hr | right; apply IH2, Hr].
  - apply andb_true_iff in Hr as [Hr _]. apply IH, Hr.
  - apply andb_true_iff in Hr as [_ Hr]. apply IH, Hr.
  - apply IH, Hr.
  - apply in_or_app. left. apply IH1, Hr.
Qed.

(** A subject without the character that an anchored pattern requires does
    not match it. *)
Lemma re_match_lacking (r : regex) (s : str) (c : char) :
  requires_char c r = true -> ~ In c s -> re_match r s = false.
Proof.
  intros Hr Hc. apply not_true_is_false. intros H.
  apply re_match_matches in H as (pre & rest & -> & Hm).
  apply Hc, in_or_app. left. exact (matches_requires_char c r pre rest Hm Hr).
Qed.

Lemma kana_facts (c : char) :
  in_charset c KANA = true ->
  c <> HYPHEN /\ c <> SPACE /\ c <> NEWLINE /\
  in_charset c DIGIT = false /\ in_charset c LATIN_SPACE = false.
Proof.
  intros H.
  split; [intros ->; discriminate H |]. split; [intros ->; discriminate H |].
  split; [intros ->; discriminate H |].
  split; [exact (charset_disjoint_spec KANA DIGIT c eq_refl H)
         | exact (charset_disjoint_spec KANA LATIN_SPACE c eq_refl H)].
Qed.

Lemma remove_spaces_none (s : str) : ~ In SPACE s -> remove_spaces s = s.
Proof.
  unfold remove_spaces. induction s as [| c s IH]; [reflexivity |].
  intros H. cbn [List.filter].
  destruct (N.eqb_spec c SPACE) as [-> | Hc]; [exfalso; apply H; left; reflexivity |].
  cbn [negb]. rewrite IH; [reflexivity |]. intros Hin. apply H. right. exact Hin.
Qed.

(** A syllabary alias without any mark is read by the C-V branch. *)
Lemma classify_kana_alias (hiragana_map : list JPhonemeMapItem) (e : OtoInfo)
    (item : JPhonemeMapItem) :
  alias e <> [] ->
  forallb (fun c => in_charset c KANA) (alias e) = true ->
  get_hiragana_info hiragana_map (alias e) = Some item ->
  get_oto_entry_phoneme_info hiragana_map e
  = Returns (Some (classified new_entry "cv" [item] (phoneme item))).
Proof.
  intros Hne Hall Hitem.
  rewrite forallb_forall in Hall.
  assert (forall d, In d (alias e) -> d <> HYPHEN /\ d <> SPACE /\ d <> NEWLINE /\
            in_charset d DIGIT = false /\ in_charset d LATIN_SPACE = false) as Hk
    by (intros d Hd; apply kana_facts, Hall, Hd).
  assert (~ In SPACE (alias e)) as Hnosp
    by (intros Hin; destruct (Hk _ Hin) as (_ & Hs & _); contradiction).
  destruct (alias e) as [| c rest] eqn:Ealias; [contradiction |].
  assert (In c (c :: rest)) as Hc by (left; reflexivity).
  destruct (Hk c Hc) as (Hhy & Hsp & Hnl & Hdig & Hlat).
  unfold get_oto_entry_phoneme_info. rewrite Ealias.
  rewrite (re_match_foreign re_digits (c :: rest) c eq_refl Hc Hdig Hnl).
  unfold classify_alias.
  cbn [py_nth lookup list_lookup mbind result_mbind result_bind].
  destruct (N.eqb_spec c HYPHEN); [contradiction |].
  assert (In (List.last (c :: rest) 0%N) (c :: rest)) as Hlast.
  { destruct (exists_last (l := c :: rest)) as (l' & x & El); [discriminate |].
    rewrite El, last_last. apply in_or_app. right. left. reflexivity. }
  destruct (N.eqb_spec (List.last (c :: rest) 0%N) HYPHEN) as [El | _].
  { destruct (Hk _ Hlast) as (Hl & _). contradiction. }
  rewrite (re_match_lacking re_vv _ SPACE eq_refl Hnosp),
          (re_match_lacking re_nv _ SPACE eq_refl Hnosp),
          (re_match_lacking re_vcv _ SPACE eq_refl Hnosp),
          (re_match_lacking re_vc _ SPACE eq_refl Hnosp).
  cbn [andb].
  assert (re_match re_cv (c :: rest) = true) as ->.
  { apply re_match_matches. exists (c :: rest), [].
    split; [symmetry; apply app_nil_r |].
    rewrite <- (app_nil_r (c :: rest)).
    apply matches_cat; [| constructor; left; reflexivity].
    apply matches_alt_r. apply matches_plus_cls.
    split; [discriminate |]. apply forallb_forall. exact Hall. }
  rewrite (re_match_foreign re_latin_space_word (c :: rest) c eq_refl Hc Hlat Hnl).
  rewrite (remove_spaces_none _ Hnosp), Hitem. reflexivity.
Qed.

(** X18: a syllabary alias without any mark whose dictionary entry has a
    single atom (a bare vowel or the syllabic nasal) is classified [cv]
    with that one atom; the deriver then reads a second atom, which raises
    [IndexError], and the unit yields no segment. *)
Theorem bare_kana_unit_dropped (plosive_consonant_list : list str)
    (hiragana_map : list JPhonemeMapItem) (e : OtoInfo) (item : JPhonemeMapItem) (a : str) :
  alias e <> [] ->
  forallb (fun c => in_charset c KANA) (alias e) = true ->
  get_hiragana_info hiragana_map (alias e) = Some item ->
  phoneme item = [a] ->
  get_oto_entry_phoneme_info hiragana_map e
  = Returns (Some (classified new_entry "cv" [item] [a])) /\
  segment_of_entry plosive_consonant_list hiragana_map e = Raises IndexError /\
  generate_articulation_segment_info plosive_consonant_list hiragana_map [e] = [].
Proof.
  intros Hne Hall Hitem Ha.
  pose proof (classify_kana_alias hiragana_map e item Hne Hall Hitem) as Hc.
  rewrite Ha in Hc.
  assert (segment_of_entry plosive_consonant_list hiragana_map e = Raises IndexError) as Hs.
  { unfold segment_of_entry. rewrite Hc. reflexivity. }
  split; [exact Hc |]. split; [exact Hs |].
  unfold generate_articulation_segment_info. cbn [fold_left]. rewrite Hs. reflexivity.
Qed.

Lemma bare_kana_unit_dropped_witness :
  segment_of_entry [] sample_hiragana_map (sample_entry [12354%N]) = Raises IndexError.
Proof.
  refine (proj1 (proj2 (bare_kana_unit_dropped [] sample_hiragana_map
                          (sample_entry [12354%N])
                          (mkItem [12354%N] (lit "a") [lit "a"] (lit "vowel")) (lit "a")
                          _ _ _ _))); [discriminate | reflexivity ..].
Defined.

Lemma segment_info_loop (plosive_consonant_list : list str)
    (hiragana_map : list JPhonemeMapItem) (oto_list : list OtoInfo) (acc : list SegmentInfo) :
  fold_left
    (fun seg_info_list oto_item =>
       match segment_of_entry plosive_consonant_list hiragana_map oto_item with
       | Returns seg_info => seg_info_list ++ [seg_info]
       | Raises _ => seg_info_list
       end) oto_list acc
  = acc ++ generate_articulation_segment_info plosive_consonant_list hiragana_map oto_list.
Proof.
  unfold generate_articulation_segment_info.
  revert acc. induction oto_list as [| e l IH]; intros acc; cbn [fold_left].
  - symmetry. apply app_nil_r.
  - destruct (segment_of_entry plosive_consonant_list hiragana_map e) as [s | ex].
    + rewrite (IH (acc ++ [s])), (IH ([] ++ [s])), <- app_assoc. reflexivity.
    + apply IH.
Qed.

(** X19: the units of an index are processed independently and in order:
    the segments of a concatenated index are the segments of its parts,
    concatenated, and each unit yields at most one segment. *)
Theorem segment_info_batch (plosive_consonant_list : list str)
    (hiragana_map : list JPhonemeMapItem) (l1 l2 : list OtoInfo) :
  generate_articulation_segment_info plosive_consonant_list hiragana_map (l1 ++ l2)
  = generate_articulation_segment_info plosive_consonant_list hiragana_map l1
    ++ generate_articulation_segment_info plosive_consonant_list hiragana_map l2 /\
  (length (generate_articulation_segment_info plosive_consonant_list hiragana_map l1)
   <= length l1)%nat.
Proof.
  split.
  - unfold generate_articulation_segment_info at 1. rewrite fold_left_app.
    fold (generate_articulation_segment_info plosive_consonant_list hiragana_map l1).
    apply segment_info_loop.
  - induction l1 as [| e l IH]; [cbn; lia |].
    unfold generate_articulation_segment_info. cbn [fold_left].
    rewrite segment_info_loop, length_app.
    destruct (segment_of_entry plosive_consonant_list hiragana_map e); cbn [length app]; lia.
Qed.

(** X20: the slice and the silence around it. The slice never starts
    before the clip or ends after it, no silence is negative, and slice
    and silence together always span from 100 ms before the start of the
    segment to 100 ms after its cutoff. *)
Theorem emitter_padding (wav_length : Q) (seg : SegmentInfo) :
  let e := generate_articulation_files wav_length seg in
  0 <= em_append_silent_start e /\
  0 <= em_wav_start_time e /\
  em_wav_start_time e - em_append_silent_start e == wav_offset seg - bleed_time /\
  0 <= em_append_silent_end e /\
  em_wav_end_time e <= wav_length /\
  em_wav_end_time e + em_append_silent_end e == wav_cutoff seg + bleed_time.
Proof.
  unfold generate_articulation_files, bleed_time, pymax, pymin.
  cbn [em_append_silent_start em_wav_start_time em_append_silent_end em_wav_end_time].
  destruct (Qlt_le_dec (wav_offset seg) 100);
    destruct (Qlt_le_dec 0 (wav_offset seg - 100));
    destruct (Qlt_le_dec wav_length (wav_cutoff seg + 100));
    destruct (Qlt_le_dec (wav_cutoff seg + 100) wav_length);
    repeat split; lra.
Qed.

(** Every emitted time is the derived time moved by the same amount; atoms
    and tags are unchanged. *)
Lemma emitter_shifts_uniformly (wav_length : Q) (seg : SegmentInfo) :
  let e := generate_articulation_files wav_length seg in
  Forall2 (fun p q : str * Q * Q =>
             q.1.1 = p.1.1 /\ q.1.2 - p.1.2 == bleed_time - wav_offset seg /\
             q.2 - p.2 == bleed_time - wav_offset seg)
          (phoneme_list seg) (em_phoneme_list e) /\
  Forall2 (fun a a' : ArticulationSegmentInfo =>
             as_type a' = as_type a /\ as_phonemes a' = as_phonemes a /\
             Forall2 (fun b b' => b' - b == bleed_time - wav_offset seg)
                     (as_boundaries a) (as_boundaries a'))
          (art_seg_list seg) (em_art_seg_list e).
Proof.
  unfold generate_articulation_files, bleed_time.
  cbn [em_phoneme_list em_art_seg_list].
  set (delta := if Qlt_le_dec (wav_offset seg) 100 then _ else _).
  assert (forall x, x + delta - x == 100 - wav_offset seg) as Hd.
  { intros x. unfold delta. destruct (Qlt_le_dec (wav_offset seg) 100); ring. }
  split.
  - induction (phoneme_list seg) as [| p ps IH]; constructor; [| exact IH].
    cbn [fst snd]. split; [reflexivity |]. split; apply Hd.
  - induction (art_seg_list seg) as [| a l IH]; constructor; [| exact IH].
    cbn [as_type as_phonemes as_boundaries]. split; [reflexivity |]. split; [reflexivity |].
    induction (as_boundaries a) as [| b bs IHb]; constructor; [apply Hd | exact IHb].
Qed.

(* ===================================================================== *)
(** * Further properties: copies and coverage completion *)
(* ===================================================================== *)

(** X21: [SegmentInfo.copy] on a complete segment returns a new object
    with the same contents, leaves the receiver as it was, and no cell of
    the copy refers to a cell that existed before: the two share no list. *)
Theorem copy_is_independent (h : heap) (self : loc) (v : SegmentInfo) :
  read_segment h self = Some v ->
  exists ext : heap,
    copy self h = (Returns (length h), h ++ ext) /\
    (self < length h)%nat /\
    read_segment (h ++ ext) (length h) = Some v /\
    read_segment (h ++ ext) self = Some v /\
    refs_from (length h) ext.
Proof.
  intros Hv. exists (layout (length h) v).
  split; [apply copy_spec; exact Hv |].
  split.
  { destruct (read_segment_Some h self v Hv) as (p & q & en & ar & Hl & _).
    apply lookup_lt_Some in Hl. exact Hl. }
  split; [apply read_layout |].
  split; [apply read_segment_extend; exact Hv | apply layout_refs].
Qed.

Lemma copy_is_independent_witness :
  let v := {| wav_offset := 100; wav_cutoff := 300;
              phoneme_list := [(lit "a", 100, 120); (lit "k", 120, 225)];
              art_seg_list := [{| as_type := lit "vc"; as_phonemes := [lit "a"; lit "k"];
                                  as_boundaries := [100; 120; 225] |}] |} in
  exists ext : heap,
    copy 0 (layout 0 v) = (Returns (length (layout 0 v)), layout 0 v ++ ext) /\
    (0 < length (layout 0 v))%nat /\
    read_segment (layout 0 v ++ ext) (length (layout 0 v)) = Some v /\
    read_segment (layout 0 v ++ ext) 0 = Some v /\
    refs_from (length (layout 0 v)) ext.
Proof.
  intros v. apply (copy_is_independent (layout 0 v) 0 v). reflexivity.
Defined.

Lemma split_space1_is_Some (s : str) : In SPACE s -> is_Some (split_space1 s).
Proof.
  intros H. destruct (split_space1 s) eqn:E; [eexists; reflexivity |].
  apply split_space1_None in E. exfalso. apply E. apply list_elem_of_In. exact H.
Qed.

(** X22: one iteration of the loop over the missing VC keys never raises
    when the key has a space and every entry of the coverage map refers to
    a complete segment. Either no alternative exists and nothing happens,
    or the alternative key is present in the map ([cvvc_map[alternative_vc]]
    cannot fail), can be unpacked at its first space, and the step returns
    a new segment: the donor with the alternative consonant renamed. *)
Theorem substitute_vc_returns (vowel_variant_list consonant_variant_list : list (list str))
    (cvvc_map : gmap str CvvcEntry) (vc_name vowel consonant0 : str) (h : heap) :
  split_space1 vc_name = Some (vowel, consonant0) ->
  map_readable h cvvc_map ->
  (find_alternative_vc vowel_variant_list consonant_variant_list vc_name cvvc_map = Returns []
   /\ substitute_vc vowel_variant_list consonant_variant_list cvvc_map vc_name h
      = (Returns None, h))
  \/ exists alternative_vc alternative_v alternative_c info v,
       find_alternative_vc vowel_variant_list consonant_variant_list vc_name cvvc_map
       = Returns alternative_vc /\
       split_space1 alternative_vc = Some (alternative_v, alternative_c) /\
       cvvc_map !! alternative_vc = Some info /\
       read_segment h (seg_info info) = Some v /\
       substitute_vc vowel_variant_list consonant_variant_list cvvc_map vc_name h
       = (Returns (Some (entry_wav_file info, length h)),
          h ++ layout (length h) (replace_phoneme_value [alternative_c] [consonant0] v)).
Proof.
  intros Hsplit Hmap.
  pose proof (search_consonants_spec cvvc_map
                (get_vowel_variants vowel_variant_list vowel)
                (get_consonant_variants consonant_variant_list consonant0)) as Hs.
  cbv zeta in Hs.
  assert (find_alternative_vc vowel_variant_list consonant_variant_list vc_name cvvc_map
          = Returns (search_consonants cvvc_map
                       (get_vowel_variants vowel_variant_list vowel)
                       (get_consonant_variants consonant_variant_list consonant0))) as Hfind.
  { unfold find_alternative_vc. rewrite Hsplit. reflexivity. }
  destruct Hs as [[Hr _] | ([info Hinfo] & v' & c' & _ & _ & Hr)].
  - left. rewrite Hr in Hfind. split; [exact Hfind |].
    unfold substitute_vc. rewrite Hsplit, Hfind. reflexivity.
  - right.
    destruct (Hmap _ _ Hinfo) as [v Hv].
    destruct (split_space1_is_Some (search_consonants cvvc_map
                (get_vowel_variants vowel_variant_list vowel)
                (get_consonant_variants consonant_variant_list consonant0)))
      as [[av ac] Hav].
    { rewrite Hr. apply in_or_app. right. left. reflexivity. }
    eexists _, av, ac, info, v.
    split; [exact Hfind |]. split; [exact Hav |]. split; [exact Hinfo |].
    split; [exact Hv |].
    apply (substitute_vc_spec vowel_variant_list consonant_variant_list cvvc_map
             vc_name vowel consonant0 _ av ac info h v Hsplit Hfind); try assumption.
    rewrite Hr. destruct v'; discriminate.
Qed.

Lemma substitute_vc_returns_witness :
  (substitute_vc [[lit "n"; lit "m"; lit "N"]] [] sample_vc_map (lit "m k")
     (layout 0 sample_vc_donor)).1
  = Returns (Some (lit "nk.wav", 8%nat)).
Proof.
  destruct (substitute_vc_returns [[lit "n"; lit "m"; lit "N"]] [] sample_vc_map
              (lit "m k") (lit "m") (lit "k") (layout 0 sample_vc_donor) eq_refl)
    as [[_ H] | (alt & av & ac & info & v & _ & _ & _ & _ & H)].
  - intros k info Hk. unfold sample_vc_map, sample_vr_map in Hk.
    apply lookup_singleton_Some in Hk as [<- <-].
    eexists. vm_compute. reflexivity.
  - reflexivity.
  - reflexivity.
Defined.

Lemma substitute_vr_found (vowel_variant_list : list (list str))
    (cvvc_map : gmap str CvvcEntry) (vowel : str) (ch : char) (alt : str)
    (info : CvvcEntry) (h : heap) (v : SegmentInfo) :
  find_alternative_vr vowel_variant_list vowel cvvc_map = ch :: alt ->
  cvvc_map !! ((ch :: alt) ++ lit " -") = Some info ->
  read_segment h (seg_info info) = Some v ->
  substitute_vr vowel_variant_list cvvc_map vowel h
  = (Returns (Some (entry_wav_file info, length h)),
     h ++ layout (length h) (replace_phoneme_value [ch :: alt] [vowel] v)).
Proof.
  intros Hfind Hmap Hv. unfold substitute_vr. rewrite Hfind. cbv zeta iota beta.
  rewrite Hmap.
  unfold mbind at 1, M_mbind. eapply bind_returns; [apply run_lift |]. cbv beta.
  unfold mbind, M_mbind. eapply bind_returns.
  { rewrite (replace_phoneme_spec h (seg_info info) v _ _ Hv).
    rewrite (replace_phoneme_run_total [ch :: alt] [vowel] v) by reflexivity.
    reflexivity. }
  reflexivity.
Qed.

(** X23: one iteration of the loop over the missing VR keys never raises
    either: the key of the vowel that [find_alternative_vr] returns is
    present in the map, and the step returns the donor with that vowel
    renamed to the requested one. *)
Theorem substitute_vr_returns (vowel_variant_list : list (list str))
    (cvvc_map : gmap str CvvcEntry) (vowel : str) (h : heap) :
  map_readable h cvvc_map ->
  (find_alternative_vr vowel_variant_list vowel cvvc_map = []
   /\ substitute_vr vowel_variant_list cvvc_map vowel h = (Returns None, h))
  \/ exists alternative_vr info v,
       find_alternative_vr vowel_variant_list vowel cvvc_map = alternative_vr /\
       alternative_vr <> [] /\
       cvvc_map !! (alternative_vr ++ lit " -") = Some info /\
       read_segment h (seg_info info) = Some v /\
       substitute_vr vowel_variant_list cvvc_map vowel h
       = (Returns (Some (entry_wav_file info, length h)),
          h ++ layout (length h) (replace_phoneme_value [alternative_vr] [vowel] v)).
Proof.
  intros Hmap.
  destruct (find_alternative_vr vowel_variant_list vowel cvvc_map) as [| ch alt] eqn:Hfind.
  - left. split; [reflexivity |]. unfold substitute_vr. rewrite Hfind. reflexivity.
  - right.
    pose proof (search_vr_spec cvvc_map (get_vowel_variants vowel_variant_list vowel)) as Hs.
    cbv zeta in Hs. fold (find_alternative_vr vowel_variant_list vowel cvvc_map) in Hs.
    rewrite Hfind in Hs.
    destruct Hs as [[_ [info Hinfo]] | [Hr _]]; [| discriminate Hr].
    destruct (Hmap _ _ Hinfo) as [v Hv].
    exists (ch :: alt), info, v.
    split; [reflexivity |]. split; [discriminate |]. split; [exact Hinfo |].
    split; [exact Hv |].
    exact (substitute_vr_found vowel_variant_list cvvc_map vowel ch alt info h v
             Hfind Hinfo Hv).
Qed.

Lemma substitute_vr_returns_witness :
  (substitute_vr [[lit "n"; lit "m"; lit "N"]] sample_vr_map (lit "m")
     (layout 0 sample_vr_donor)).1
  = Returns (Some (lit "n.wav", 8%nat)).
Proof.
  destruct (substitute_vr_returns [[lit "n"; lit "m"; lit "N"]] sample_vr_map
              (lit "m") (layout 0 sample_vr_donor))
    as [[_ H] | (alt & info & v & _ & _ & _ & _ & H)].
  - intros k info Hk. unfold sample_vc_map, sample_vr_map in Hk.
    apply lookup_singleton_Some in Hk as [<- <-].
    eexists. vm_compute. reflexivity.
  - reflexivity.
  - reflexivity.
Defined.

(* ===================================================================== *)
(** * Further properties: the run of the whole program *)
(* ===================================================================== *)

(** A loop that threads a state through the heap monad returns when each
    of its iterations does, and keeps what each iteration keeps. *)
Lemma foldl_returns {S X} (P : S -> heap -> Prop) (f : M S -> X -> M S) (xs : list X) :
  (forall (m : M S) h0 s h x,
      In x xs -> m h0 = (Returns s, h) -> P s h ->
      exists s' h', f m x h0 = (Returns s', h') /\ P s' h') ->
  forall (m : M S) (h0 : heap) (s : S) (h : heap),
    m h0 = (Returns s, h) -> P s h ->
    exists s' h', foldl f m xs h0 = (Returns s', h') /\ P s' h'.
Proof.
  induction xs as [| x xs IH]; intros Hstep m h0 s h Hm HP.
  - exists s, h. split; [exact Hm | exact HP].
  - cbn [foldl].
    destruct (Hstep m h0 s h x (or_introl eq_refl) Hm HP) as (s1 & h1 & Hs & HP1).
    apply (IH (fun m h0 s h x' Hx => Hstep m h0 s h x' (or_intror Hx)) (f m x) h0 s1 h1);
      assumption.
Qed.

Lemma map_readable_extend (h ext : heap) (cvvc_map : gmap str CvvcEntry) :
  map_readable h cvvc_map -> map_readable (h ++ ext) cvvc_map.
Proof.
  intros H k info Hk. destruct (H k info Hk) as [v Hv].
  exists v. apply read_segment_extend. exact Hv.
Qed.

(** Placing segments on the heap, one after the other. *)
Lemma map_each_alloc_segment (vs : list SegmentInfo) (h : heap) :
  exists ls ext,
    map_each vs alloc_segment h = (Returns ls, h ++ ext) /\
    Forall2 (fun l v => read_segment (h ++ ext) l = Some v) ls vs.
Proof.
  revert h. induction vs as [| v vs IH]; intros h.
  - exists [], []. rewrite app_nil_r. split; [reflexivity | constructor].
  - destruct (IH (h ++ layout (length h) v)) as (ls & ext & Hrun & Hall).
    exists (length h :: ls), (layout (length h) v ++ ext).
    cbn [map_each]. unfold M_bind at 1. unfold alloc_segment at 1.
    unfold M_bind at 1. rewrite Hrun. unfold M_ret.
    rewrite <- app_assoc in *. split; [reflexivity |].
    constructor; [| exact Hall].
    rewrite app_assoc. apply read_segment_extend, read_layout.
Qed.

Lemma record_segment_returns (wav_file_resolved : str) (seg : loc) (v : SegmentInfo)
    (cvvc_map : gmap str CvvcEntry) :
  recordable v ->
  exists m', record_segment wav_file_resolved seg v cvvc_map = Returns m' /\
    forall k info, m' !! k = Some info ->
                   cvvc_map !! k = Some info \/ seg_info info = seg.
Proof.
  unfold recordable, record_segment.
  generalize (art_seg_list v). intros qs. revert cvvc_map.
  induction qs as [| a qs IH]; intros cvvc_map Hrec; cbn [fold_left].
  - exists cvvc_map. split; [reflexivity |]. intros k info Hk. left. exact Hk.
  - apply Forall_cons in Hrec as [Ha Hqs].
    cbn [mbind result_mbind result_bind].
    set (entry := {| seg_info := seg; entry_wav_file := wav_file_resolved |}).
    assert (forall key, exists m', fold_left
              (fun acc art_seg =>
                 m ← acc;
                 if str_eqb (as_type art_seg) (lit "vc") || str_eqb (as_type art_seg) (lit "cv")
                 then Returns (<[join (lit " ") (as_phonemes art_seg) := entry]> m)
                 else if str_eqb (as_type art_seg) (lit "vr")
                 then a0 ← py_nth (as_phonemes art_seg) 0;
                      Returns (<[a0 ++ lit " -" := entry]> m)
                 else Returns m) qs (Returns (<[key := entry]> cvvc_map)) = Returns m' /\
              forall k info, m' !! k = Some info ->
                             cvvc_map !! k = Some info \/ seg_info info = seg) as Hins.
    { intros key. destruct (IH (<[key := entry]> cvvc_map) Hqs) as (m' & Hm' & Hk).
      exists m'. split; [exact Hm' |]. intros k info Hin.
      destruct (Hk k info Hin) as [Hold | Hnew]; [| right; exact Hnew].
      rewrite lookup_insert in Hold.
      destruct (decide (key = k)); [| left; exact Hold].
      injection Hold as <-. right. reflexivity. }
    destruct (str_eqb (as_type a) (lit "vc") || str_eqb (as_type a) (lit "cv")).
    + apply Hins.
    + destruct (str_eqb (as_type a) (lit "vr")) eqn:Evr.
      * apply str_eqb_eq in Evr. specialize (Ha Evr).
        destruct (as_phonemes a) as [| a0 rest]; [contradiction |].
        cbn [py_nth lookup list_lookup mbind result_mbind result_bind]. apply Hins.
      * apply IH. exact Hqs.
Qed.

Lemma derived_recordable (plosive_consonant_list : list str)
    (hiragana_map : list JPhonemeMapItem) (e : OtoInfo) (s : SegmentInfo) :
  segment_of_entry plosive_consonant_list hiragana_map e = Returns s -> recordable s.
Proof.
  intros H.
  destruct (segment_of_entry_form _ _ _ _ H)
    as (a & b & t0 & t1 & t2 & t & bs & _ & _ & _ & _ & Ha).
  unfold recordable. rewrite Ha. constructor; [| constructor].
  intros _. discriminate.
Qed.

Lemma segment_info_all (P : SegmentInfo -> Prop) (plosive_consonant_list : list str)
    (hiragana_map : list JPhonemeMapItem) (oto_list : list OtoInfo) :
  (forall e s, segment_of_entry plosive_consonant_list hiragana_map e = Returns s -> P s) ->
  Forall P (generate_articulation_segment_info plosive_consonant_list hiragana_map oto_list).
Proof.
  intros HP. induction oto_list as [| e l IH]; [constructor |].
  unfold generate_articulation_segment_info. cbn [fold_left].
  rewrite segment_info_loop.
  destruct (segment_of_entry plosive_consonant_list hiragana_map e) as [s | ex] eqn:E.
  - cbn [app]. constructor; [exact (HP e s E) | exact IH].
  - exact IH.
Qed.

Lemma emit_returns (clip_length : str -> Q) (wav_file_resolved : str) (seg : loc)
    (h : heap) (v : SegmentInfo) :
  read_segment h seg = Some v ->
  emit clip_length wav_file_resolved seg h
  = (Returns (generate_articulation_files (clip_length wav_file_resolved) v), h).
Proof.
  intros Hv. unfold emit, mbind, M_mbind, M_bind, inspect. rewrite Hv. reflexivity.
Qed.

Lemma process_clip_returns (plosive_consonant_list : list str)
    (hiragana_map : list JPhonemeMapItem) (clip_length : str -> Q)
    (state : gmap str CvvcEntry * list Emission) (oto_list : list OtoInfo) (h : heap) :
  map_readable h state.1 ->
  exists state' ext,
    process_clip plosive_consonant_list hiragana_map clip_length state oto_list h
    = (Returns state', h ++ ext) /\
    map_readable (h ++ ext) state'.1.
Proof.
  intros Hmap. unfold process_clip.
  destruct oto_list as [| first rest].
  { exists state, []. rewrite app_nil_r. split; [reflexivity | exact Hmap]. }
  set (oto_list := first :: rest).
  cbv zeta.
  pose proof (segment_info_all recordable plosive_consonant_list hiragana_map oto_list
                (derived_recordable plosive_consonant_list hiragana_map)) as Hrec.
  destruct (map_each_alloc_segment
              (generate_articulation_segment_info plosive_consonant_list hiragana_map oto_list) h)
    as (ls & ext & Halloc & Hread).
  assert (forall l, In l ls -> exists v, read_segment (h ++ ext) l = Some v /\ recordable v)
    as Hls.
  { clear Halloc. revert Hrec.
    induction Hread as [| l v ls vs Hl _ IH]; intros Hrec l' Hin; [destruct Hin |].
    apply Forall_cons in Hrec as [Hv Hvs].
    destruct Hin as [<- | Hin]; [exists v; split; assumption | exact (IH Hvs l' Hin)]. }
  unfold mbind at 1, M_mbind at 1, M_bind at 1. rewrite Halloc.
  destruct (foldl_returns
              (fun (s : gmap str CvvcEntry * list Emission) h' =>
                 h' = h ++ ext /\ map_readable h' s.1)
              (fun (acc : M (gmap str CvvcEntry * list Emission)) (seg : loc) =>
                 '(cvvc_map, emitted) ← acc;
                 e ← emit clip_length (wav_file first) seg;
                 v ← inspect seg;
                 cvvc_map ← lift (record_segment (wav_file first) seg v cvvc_map);
                 mret (cvvc_map, emitted ++ [e]))
              ls) with (m := mret state : M _) (h0 := h ++ ext) (s := state) (h := h ++ ext)
    as (s' & h' & Hrun & -> & Hmap').
  - intros m h0 [cvvc_map emitted] h1 seg Hin Hm [-> Hm1].
    destruct (Hls seg Hin) as (v & Hv & Hrv).
    destruct (record_segment_returns (wav_file first) seg v cvvc_map Hrv) as (m' & Hm' & Hk).
    exists (m', emitted ++ [generate_articulation_files (clip_length (wav_file first)) v]),
           (h ++ ext).
    split.
    + unfold mbind at 1, M_mbind at 1, M_bind at 1. rewrite Hm.
      unfold mbind at 1, M_mbind at 1, M_bind at 1. rewrite (emit_returns _ _ _ _ v Hv).
      unfold mbind at 1, M_mbind at 1, M_bind at 1. unfold inspect. rewrite Hv.
      unfold mbind at 1, M_mbind at 1, M_bind at 1. unfold lift. rewrite Hm'.
      reflexivity.
    + split; [reflexivity |]. intros k info Hin'. cbn [fst] in *.
      destruct (Hk k info Hin') as [Hold | Hnew].
      * exact (Hm1 k info Hold).
      * rewrite Hnew. exists v. exact Hv.
  - reflexivity.
  - split; [reflexivity | apply map_readable_extend, Hmap].
  - exists s', ext. split; [exact Hrun | exact Hmap'].
Qed.

(** One iteration of each completion loop, as far as the run of the whole
    program needs it: it returns, the heap only grows, and a segment that
    it returns is complete. *)
Lemma substitute_vc_runs (vowel_variant_list consonant_variant_list : list (list str))
    (cvvc_map : gmap str CvvcEntry) (vc_name : str) (h : heap) :
  In SPACE vc_name ->
  map_readable h cvvc_map ->
  exists found ext,
    substitute_vc vowel_variant_list consonant_variant_list cvvc_map vc_name h
    = (Returns found, h ++ ext) /\
    forall clip l, found = Some (clip, l) -> is_Some (read_segment (h ++ ext) l).
Proof.
  intros Hsp Hmap.
  destruct (split_space1_is_Some vc_name Hsp) as [[vowel consonant0] Hsplit].
  pose proof (search_consonants_spec cvvc_map
                (get_vowel_variants vowel_variant_list vowel)
                (get_consonant_variants consonant_variant_list consonant0)) as Hs.
  cbv zeta in Hs.
  assert (find_alternative_vc vowel_variant_list consonant_variant_list vc_name cvvc_map
          = Returns (search_consonants cvvc_map
                       (get_vowel_variants vowel_variant_list vowel)
                       (get_consonant_variants consonant_variant_list consonant0))) as Hfind.
  { unfold find_alternative_vc. rewrite Hsplit. reflexivity. }
  destruct Hs as [[Hr _] | ([info Hinfo] & v' & c' & _ & _ & Hr)].
  - exists None, []. rewrite app_nil_r. split; [| discriminate].
    rewrite Hr in Hfind. unfold substitute_vc. rewrite Hsplit, Hfind. reflexivity.
  - destruct (Hmap _ _ Hinfo) as [v Hv].
    destruct (split_space1_is_Some (search_consonants cvvc_map
                (get_vowel_variants vowel_variant_list vowel)
                (get_consonant_variants consonant_variant_list consonant0)))
      as [[av ac] Hav].
    { rewrite Hr. apply in_or_app. right. left. reflexivity. }
    eexists _, _. split.
    + apply (substitute_vc_spec vowel_variant_list consonant_variant_list cvvc_map
               vc_name vowel consonant0 _ av ac info h v Hsplit Hfind); try assumption.
      rewrite Hr. destruct v'; discriminate.
    + intros clip l [= _ <-]. eexists. apply read_layout.
Qed.

Lemma substitute_vr_runs (vowel_variant_list : list (list str))
    (cvvc_map : gmap str CvvcEntry) (vowel : str) (h : heap) :
  map_readable h cvvc_map ->
  exists found ext,
    substitute_vr vowel_variant_list cvvc_map vowel h = (Returns found, h ++ ext) /\
    forall clip l, found = Some (clip, l) -> is_Some (read_segment (h ++ ext) l).
Proof.
  intros Hmap.
  destruct (find_alternative_vr vowel_variant_list vowel cvvc_map) as [| ch alt] eqn:Hfind.
  - exists None, []. rewrite app_nil_r. split; [| discriminate].
    unfold substitute_vr. rewrite Hfind. reflexivity.
  - pose proof (search_vr_spec cvvc_map (get_vowel_variants vowel_variant_list vowel)) as Hs.
    cbv zeta in Hs. fold (find_alternative_vr vowel_variant_list vowel cvvc_map) in Hs.
    rewrite Hfind in Hs.
    destruct Hs as [[_ [info Hinfo]] | [Hr _]]; [| discriminate Hr].
    destruct (Hmap _ _ Hinfo) as [v Hv].
    eexists _, _. split.
    + exact (substitute_vr_found vowel_variant_list cvvc_map vowel ch alt info h v
               Hfind Hinfo Hv).
    + intros clip l [= _ <-]. eexists. apply read_layout.
Qed.

(** The body of both completion loops after the search: emit what was
    found. *)
Lemma completion_step (clip_length : str -> Q) (cvvc_map : gmap str CvvcEntry)
    (search : M (option (str * loc))) (m : M (list Emission))
    (h0 h : heap) (emitted : list Emission) :
  m h0 = (Returns emitted, h) ->
  map_readable h cvvc_map ->
  (exists found ext,
      search h = (Returns found, h ++ ext) /\
      forall clip l, found = Some (clip, l) -> is_Some (read_segment (h ++ ext) l)) ->
  exists emitted' ext,
    (emitted ← m;
     found ← search;
     match found with
     | Some (clip, new_seg_info) =>
         e ← emit clip_length clip new_seg_info; mret (emitted ++ [e])
     | None => mret emitted
     end) h0 = (Returns emitted', h ++ ext) /\
    map_readable (h ++ ext) cvvc_map.
Proof.
  intros Hm Hmap (found & ext & Hrun & Hfound).
  unfold mbind at 1, M_mbind at 1, M_bind at 1. rewrite Hm.
  unfold mbind at 1, M_mbind at 1, M_bind at 1. rewrite Hrun.
  destruct found as [[clip l] |].
  - destruct (Hfound clip l eq_refl) as [v Hv].
    eexists _, ext. split; [| apply map_readable_extend, Hmap].
    unfold mbind at 1, M_mbind at 1, M_bind at 1.
    rewrite (emit_returns _ _ _ _ v Hv). reflexivity.
  - eexists _, ext. split; [reflexivity | apply map_readable_extend, Hmap].
Qed.

(** X24: the run of the whole program on an index never raises, whatever
    the index, the dictionary, the tables and the clips are, provided that
    every required VC key has a space: a unit that cannot be classified or
    derived is skipped, every key that is looked up in the coverage map is
    present, and every segment that is read is complete. (Reading the
    files and cutting the audio are not part of the model.) *)
Theorem generate_articulation_from_oto_returns
    (vowel_variant_list consonant_variant_list : list (list str))
    (vc_list vr_list plosive_consonant_list : list str)
    (hiragana_map : list JPhonemeMapItem) (clip_length : str -> Q)
    (oto_dict : list (str * list OtoInfo)) (h : heap) :
  (forall vc, In vc vc_list -> In SPACE vc) ->
  exists emitted ext,
    generate_articulation_from_oto vowel_variant_list consonant_variant_list
      vc_list vr_list plosive_consonant_list hiragana_map clip_length oto_dict h
    = (Returns emitted, h ++ ext).
Proof.
  intros Hvc. unfold generate_articulation_from_oto.
  (* the pass over the clips *)
  destruct (foldl_returns
              (fun (s : gmap str CvvcEntry * list Emission) h' =>
                 (exists ext, h' = h ++ ext) /\ map_readable h' s.1)
              (fun (acc : M (gmap str CvvcEntry * list Emission))
                   (item : str * list OtoInfo) =>
                 state ← acc;
                 process_clip plosive_consonant_list hiragana_map clip_length state item.2)
              oto_dict)
    with (m := mret (∅, []) : M (gmap str CvvcEntry * list Emission))
         (h0 := h) (s := (∅, []) : gmap str CvvcEntry * list Emission) (h := h)
    as ([cvvc_map emitted] & h1 & Hrun1 & [ext1 ->] & Hmap1).
  { intros m h0 s hs item _ Hm [[ext ->] Hmap].
    destruct (process_clip_returns plosive_consonant_list hiragana_map clip_length
                s item.2 (h ++ ext) Hmap) as (s' & ext' & Hp & Hmap').
    exists s', ((h ++ ext) ++ ext'). split.
    - unfold mbind, M_mbind, M_bind. rewrite Hm. exact Hp.
    - split; [exists (ext ++ ext'); rewrite app_assoc; reflexivity | exact Hmap']. }
  { reflexivity. }
  { split; [exists []; symmetry; apply app_nil_r |].
    intros k info Hk. cbn [fst] in Hk. rewrite lookup_empty in Hk. discriminate Hk. }
  unfold mbind at 1, M_mbind at 1, M_bind at 1. rewrite Hrun1. cbv zeta. cbn [fst] in Hmap1.
  set (vc_miss_list := List.filter _ vc_list).
  set (vr_miss_list := List.filter _ vr_list).
  (* the loop over the missing VC keys *)
  destruct (foldl_returns
              (fun (_ : list Emission) h' =>
                 (exists ext, h' = h ++ ext) /\ map_readable h' cvvc_map)
              (fun (acc : M (list Emission)) (vc_name : str) =>
                 emitted ← acc;
                 found ← substitute_vc vowel_variant_list consonant_variant_list
                           cvvc_map vc_name;
                 match found with
                 | Some (clip, new_seg_info) =>
                     e ← emit clip_length clip new_seg_info; mret (emitted ++ [e])
                 | None => mret emitted
                 end)
              vc_miss_list)
    with (m := mret emitted : M (list Emission))
         (h0 := h ++ ext1) (s := emitted) (h := h ++ ext1)
    as (emitted2 & h2 & Hrun2 & [ext2 ->] & Hmap2).
  { intros m h0 s hs vc_name Hin Hm [[ext ->] Hmap].
    assert (In SPACE vc_name) as Hsp.
    { apply Hvc. unfold vc_miss_list in Hin. apply filter_In in Hin as [Hin _]. exact Hin. }
    destruct (completion_step clip_length cvvc_map
                (substitute_vc vowel_variant_list consonant_variant_list cvvc_map vc_name)
                m h0 (h ++ ext) s Hm Hmap
                (substitute_vc_runs _ _ _ _ _ Hsp Hmap)) as (s' & ext' & Hp & Hmap').
    exists s', ((h ++ ext) ++ ext'). split; [exact Hp |].
    split; [exists (ext ++ ext'); rewrite app_assoc; reflexivity | exact Hmap']. }
  { reflexivity. }
  { split; [exists ext1; reflexivity | exact Hmap1]. }
  unfold mbind at 1, M_mbind at 1, M_bind at 1. rewrite Hrun2.
  (* the loop over the missing VR keys *)
  destruct (foldl_returns
              (fun (_ : list Emission) h' =>
                 (exists ext, h' = h ++ ext) /\ map_readable h' cvvc_map)
              (fun (acc : M (list Emission)) (vowel : str) =>
                 emitted ← acc;
                 found ← substitute_vr vowel_variant_list cvvc_map vowel;
                 match found with
                 | Some (clip, new_seg_info) =>
                     e ← emit clip_length clip new_seg_info; mret (emitted ++ [e])
                 | None => mret emitted
                 end)
              vr_miss_list)
    with (m := mret emitted2 : M (list Emission))
         (h0 := h ++ ext2) (s := emitted2) (h := h ++ ext2)
    as (emitted3 & h3 & Hrun3 & [ext3 ->] & _).
  { intros m h0 s hs vowel _ Hm [[ext ->] Hmap].
    destruct (completion_step clip_length cvvc_map
                (substitute_vr vowel_variant_list cvvc_map vowel)
                m h0 (h ++ ext) s Hm Hmap
                (substitute_vr_runs _ _ _ _ Hmap)) as (s' & ext' & Hp & Hmap').
    exists s', ((h ++ ext) ++ ext'). split; [exact Hp |].
    split; [exists (ext ++ ext'); rewrite app_assoc; reflexivity | exact Hmap']. }
  { reflexivity. }
  { split; [exists ext2; reflexivity | exact Hmap2]. }
  exists emitted3, ext3. exact Hrun3.
Qed.

Lemma generate_articulation_from_oto_returns_witness :
  exists emitted ext,
    generate_articulation_from_oto [] [] [lit "a k"] [lit "a"] [] sample_hiragana_map
      (fun _ => 1000) [(lit "x.wav", [sample_entry (lit "ka"); sample_entry (lit "a ka")])] []
    = (Returns emitted, [] ++ ext).
Proof.
  apply generate_articulation_from_oto_returns.
  intros vc [<- | []]. right. left. reflexivity.
Defined.

(* ===================================================================== *)
(** * Further properties: reading the index *)
(* ===================================================================== *)

(** The stable insertion sort. *)
Lemma insert_by_preutterance_sorted (x : OtoInfo) (l : list OtoInfo) :
  sorted_by_preutterance l -> sorted_by_preutterance (insert_by_preutterance x l).
Proof.
  induction l as [| y l IH]; intros Hs; [exact I |].
  cbn [insert_by_preutterance].
  destruct (Qlt_le_dec (preutterance x) (preutterance y)) as [Hlt | Hle].
  - split; [apply Qlt_le_weak, Hlt | exact Hs].
  - destruct l as [| z l'].
    + cbn. split; [exact Hle | exact I].
    + destruct Hs as [Hyz Hs]. specialize (IH Hs).
      cbn [insert_by_preutterance] in IH |- *.
      destruct (Qlt_le_dec (preutterance x) (preutterance z)).
      * split; [exact Hle | exact IH].
      * split; [exact Hyz | exact IH].
Qed.

Lemma sort_by_preutterance_loop (l acc : list OtoInfo) :
  sorted_by_preutterance acc ->
  sorted_by_preutterance (fold_left (fun sorted x => insert_by_preutterance x sorted) l acc).
Proof.
  revert acc. induction l as [| x l IH]; intros acc Hs; [exact Hs |].
  cbn [fold_left]. apply IH, insert_by_preutterance_sorted, Hs.
Qed.

Lemma insert_by_preutterance_perm (x : OtoInfo) (l : list OtoInfo) :
  insert_by_preutterance x l ≡ₚ x :: l.
Proof.
  induction l as [| y l IH]; [reflexivity |].
  cbn [insert_by_preutterance].
  destruct (Qlt_le_dec (preutterance x) (preutterance y)); [reflexivity |].
  rewrite IH. apply Permutation_swap.
Qed.

Lemma sort_by_preutterance_perm_loop (l acc : list OtoInfo) :
  fold_left (fun sorted x => insert_by_preutterance x sorted) l acc ≡ₚ acc ++ l.
Proof.
  revert acc. induction l as [| x l IH]; intros acc; cbn [fold_left].
  - rewrite app_nil_r. reflexivity.
  - rewrite IH, insert_by_preutterance_perm. rewrite (Permutation_middle acc l x). reflexivity.
Qed.

(** The sort keeps every entry and puts them in order. *)
Lemma sort_by_preutterance_spec (l : list OtoInfo) :
  sorted_by_preutterance (sort_by_preutterance l) /\ sort_by_preutterance l ≡ₚ l.
Proof.
  unfold sort_by_preutterance. split.
  - apply sort_by_preutterance_loop. exact I.
  - apply (sort_by_preutterance_perm_loop l []).
Qed.

(** X25: in the index that [read_oto] returns, the entries of every clip
    are in the order of their preutterance. *)
Theorem read_oto_sorted (resolve : str -> str) (isfile : str -> bool)
    (clip_length : str -> Q) (float : str -> result Q)
    (lines : list str) (oto_dict : list (str * list OtoInfo)) :
  read_oto resolve isfile clip_length float lines = Returns oto_dict ->
  Forall (fun kv => sorted_by_preutterance kv.2) oto_dict.
Proof.
  unfold read_oto.
  destruct (fold_left _ lines (Returns [])) as [d | e];
    cbn [mbind result_mbind result_bind]; [| discriminate].
  intros [= <-]. apply Forall_forall. intros kv Hkv.
  apply list_elem_of_In, in_map_iff in Hkv as (kv0 & <- & _).
  apply sort_by_preutterance_spec.
Qed.

Lemma read_oto_sorted_witness :
  exists oto_dict,
    read_oto (fun w => w) (fun _ => true) (fun _ => 1000)
      (fun s => match s with
                | [c] => Returns (inject_Z (Z.of_N c - 48))
                | _ => Raises ValueError
                end)
      [lit "a.wav=ka,0,0,0,5,0"; lit "a.wav=sa,0,0,0,2,0"]
    = Returns oto_dict /\
    List.map (fun kv => List.map alias kv.2) oto_dict = [[lit "sa"; lit "ka"]] /\
    Forall (fun kv => sorted_by_preutterance kv.2) oto_dict.
Proof.
  eexists. split; [vm_compute; reflexivity |]. split; [reflexivity |].
  apply (read_oto_sorted (fun w => w) (fun _ => true) (fun _ => 1000)
           (fun s => match s with
                     | [c] => Returns (inject_Z (Z.of_N c - 48))
                     | _ => Raises ValueError
                     end)
           [lit "a.wav=ka,0,0,0,5,0"; lit "a.wav=sa,0,0,0,2,0"]).
  vm_compute. reflexivity.
Defined.

Lemma read_oto_abort (resolve : str -> str) (isfile : str -> bool)
    (clip_length : str -> Q) (float : str -> result Q)
    (lines : list str) (e : exn) :
  fold_left (fun acc line => d ← acc; read_oto_line resolve isfile clip_length float d line)
            lines (Raises e) = Raises e.
Proof. induction lines as [| l lines IH]; [reflexivity | exact IH]. Qed.

Lemma py_split_length (sep : char) (s : str) :
  length (py_split sep s) = S (count_occ N.eq_dec s sep).
Proof.
  induction s as [| c s IH]; [reflexivity |].
  cbn [py_split count_occ].
  destruct (N.eqb_spec c sep) as [-> | Hne].
  - destruct (N.eq_dec sep sep); [| contradiction]. cbn [length]. rewrite IH. reflexivity.
  - destruct (N.eq_dec c sep); [contradiction |].
    destruct (py_split sep s) as [| p ps]; [discriminate IH | exact IH].
Qed.

(** X26: one malformed line aborts the whole reading. A line that is
    neither blank nor a comment and does not hold exactly one [=] cannot be
    unpacked into a clip name and its parameters: [read_oto] raises
    [ValueError], whatever comes after it and although the lines before it
    were read. *)
Theorem read_oto_malformed_line (resolve : str -> str) (isfile : str -> bool)
    (clip_length : str -> Q) (float : str -> result Q)
    (before after : list str) (line : str) (c : char) (rest : str)
    (oto_dict : list (str * list OtoInfo)) :
  fold_left (fun acc line => d ← acc; read_oto_line resolve isfile clip_length float d line)
            before (Returns []) = Returns oto_dict ->
  strip line = c :: rest -> c <> 35%N -> c <> 59%N ->
  count_occ N.eq_dec (strip line) 61%N <> 1%nat ->
  read_oto resolve isfile clip_length float (before ++ line :: after) = Raises ValueError.
Proof.
  intros Hbefore Hline Hc1 Hc2 Hcount.
  unfold read_oto. rewrite fold_left_app, Hbefore. cbn [fold_left].
  cbn [mbind result_mbind result_bind].
  assert (read_oto_line resolve isfile clip_length float oto_dict line = Raises ValueError)
    as ->.
  { unfold read_oto_line. rewrite Hline.
    rewrite bool_decide_eq_false_2 by discriminate.
    rewrite bool_decide_eq_false_2 by (cbn; congruence).
    rewrite bool_decide_eq_false_2 by (cbn; congruence).
    cbn [orb]. rewrite <- Hline.
    pose proof (py_split_length 61 (strip line)) as Hlen.
    destruct (py_split 61 (strip line)) as [| a [| b [| x l]]]; try reflexivity.
    cbn [length] in Hlen. exfalso. apply Hcount. lia. }
  rewrite read_oto_abort. reflexivity.
Qed.

Lemma read_oto_malformed_line_witness :
  read_oto (fun w => w) (fun _ => true) (fun _ => 1000) (fun _ => Returns 0)
    [lit "a.wav=ka,0,0,0,0,0"; lit "b.wav=x=y,0,0,0,0,0"; lit "c.wav=sa,0,0,0,0,0"]
  = Raises ValueError.
Proof.
  apply (read_oto_malformed_line (fun w => w) (fun _ => true) (fun _ => 1000)
           (fun _ => Returns 0) [lit "a.wav=ka,0,0,0,0,0"] [lit "c.wav=sa,0,0,0,0,0"]
           (lit "b.wav=x=y,0,0,0,0,0") 98%N (lit ".wav=x=y,0,0,0,0,0")
           [(lit "a.wav", [mkOtoInfo (lit "a.wav") (lit "ka") 0
                             (pymax (0 + 0) 0) (pymin 1000 (0 + -1 * 0))
                             (pymax (0 + 0) 0) (pymax (0 + 0) 0)])]).
  - reflexivity.
  - reflexivity.
  - discriminate.
  - discriminate.
  - vm_compute. discriminate.
Defined.

(** X27: the name of a clip is entered in the index before the clip is
    looked for. A file whose only line names a clip that is not there
    gives an index with that name and an empty list of entries. *)
Theorem read_oto_missing_clip (resolve : str -> str) (isfile : str -> bool)
    (clip_length : str -> Q) (float : str -> result Q)
    (line : str) (c : char) (rest wav_file0 oto_params : str) :
  strip line = c :: rest -> c <> 35%N -> c <> 59%N ->
  py_split 61 (strip line) = [wav_file0; oto_params] ->
  isfile (resolve wav_file0) = false ->
  read_oto resolve isfile clip_length float [line] = Returns [(wav_file0, [])].
Proof.
  intros Hline Hc1 Hc2 Hsplit Hfile.
  unfold read_oto. cbn [fold_left mbind result_mbind result_bind].
  unfold read_oto_line. rewrite Hsplit, Hline.
  rewrite bool_decide_eq_false_2 by discriminate.
  rewrite bool_decide_eq_false_2 by (cbn; congruence).
  rewrite bool_decide_eq_false_2 by (cbn; congruence).
  cbn [orb]. rewrite Hfile. reflexivity.
Qed.

Lemma read_oto_missing_clip_witness :
  read_oto (fun w => w) (fun _ => false) (fun _ => 1000) (fun _ => Returns 0)
    [lit "gone.wav=ka,0,0,0,0,0"]
  = Returns [(lit "gone.wav", [])].
Proof.
  apply (read_oto_missing_clip (fun w => w) (fun _ => false) (fun _ => 1000)
           (fun _ => Returns 0) (lit "gone.wav=ka,0,0,0,0,0")
           103%N (lit "one.wav=ka,0,0,0,0,0") (lit "gone.wav") (lit "ka,0,0,0,0,0"));
    reflexivity || discriminate.
Defined.

(* ===================================================================== *)
(** * Properties: the nasal coda of a V-C alias *)
(* ===================================================================== *)

(** An object that the classifier returns was classified from the alias as
    it stands: the pattern for a numbered take only fires on an alias made
    of digits, which raises. *)
Lemma get_oto_entry_phoneme_info_plain (hiragana_map : list JPhonemeMapItem)
    (oto_entry : OtoInfo) (r : OtoEntryPhonemeInfo) :
  get_oto_entry_phoneme_info hiragana_map oto_entry = Returns (Some r) ->
  classify_alias hiragana_map new_entry (alias oto_entry) = Returns (Some r).
Proof.
  unfold get_oto_entry_phoneme_info. intros H.
  destruct (re_match re_digits (alias oto_entry)) eqn:E; [| exact H].
  exfalso. apply re_digits_spec in E as (ds & _ & Hall & Hs).
  destruct (sub_trailing_digits_all ds Hall) as [H1 H2].
  destruct (classify_alias_blank hiragana_map
              {| ep_type := ep_type new_entry;
                 ep_phoneme_info_list := ep_phoneme_info_list new_entry;
                 ep_phoneme_list := ep_phoneme_list new_entry;
                 ep_is_alternative := Some true |}
              (sub_trailing_digits (alias oto_entry))) as [ex Hex].
  { destruct Hs as [-> | ->]; [left; exact H1 | right; exact H2]. }
  rewrite Hex in H. discriminate H.
Qed.

Lemma In_py_in (x : str) (xs : list str) : In x xs -> py_in x xs = true.
Proof. intros H. apply py_in_elem_of, list_elem_of_In, H. Qed.

Lemma not_In_py_in (x : str) (xs : list str) : ~ In x xs -> py_in x xs = false.
Proof. intros H. apply py_in_not_elem_of. rewrite list_elem_of_In. exact H. Qed.

(** C5, as stated, fails. With [n] resolving to the placeholder [N\], the
    alias [n s] is classified [vc] and its consonant [s] is alveolar, but
    the first atom of the result is still the placeholder, not the
    alveolar nasal [n]; and for the alias [n ky], whose consonant [k'] is
    velar, the first atom is [N'], not the velar nasal [N]. *)
Lemma vc_nasal_counterexample :
  get_romaji_info fricative_sample_map (lit "n")
  = Some (mkItem [12435%N] (lit "n") [NASAL_PLACEHOLDER] (lit "nasal")) /\
  (exists r,
      get_oto_entry_phoneme_info fricative_sample_map (sample_entry (lit "n s"))
      = Returns (Some r) /\
      ep_type r = Some (lit "vc") /\
      ep_phoneme_list r = Some [NASAL_PLACEHOLDER; lit "s"]) /\
  (exists r,
      get_oto_entry_phoneme_info fricative_sample_map (sample_entry (lit "n ky"))
      = Returns (Some r) /\
      ep_type r = Some (lit "vc") /\
      ep_phoneme_list r = Some [lit "N'"; lit "k'"]).
Proof.
  split; [reflexivity |].
  split; eexists; (split; [vm_compute; reflexivity |]); split; reflexivity.
Qed.

(** C5 (amended): the atoms of an alias classified as [vc]. The vowel
    token, the first character of the alias, and the consonant token, what
    follows the space, are both looked up by their Latin spelling. The
    result is the first atom of the vowel entry, rewritten, followed by all
    atoms of the consonant entry, unchanged. The first atom is rewritten
    only when it is the placeholder [N\], and then by the first atom of the
    consonant entry: [n] before the eleven alveolar stops, affricates,
    nasal and taps of the table, [m] before the six labials, [N] before [g]
    and [k], [J] before [J], and [N'] before [g'] and [k']. Before every
    other consonant the placeholder stays. *)
Theorem vc_nasal_resolution (hiragana_map : list JPhonemeMapItem) (e : OtoInfo)
    (r : OtoEntryPhonemeInfo) :
  get_oto_entry_phoneme_info hiragana_map e = Returns (Some r) ->
  ep_type r = Some (lit "vc") ->
  exists vowel_info consonant_info v0 c0 first,
    get_romaji_info hiragana_map (char_at (alias e) 0) = Some vowel_info /\
    get_romaji_info hiragana_map (drop 2 (chomp (alias e))) = Some consonant_info /\
    phoneme vowel_info !! 0%nat = Some v0 /\
    phoneme consonant_info !! 0%nat = Some c0 /\
    ep_phoneme_list r = Some (first :: phoneme consonant_info) /\
    (v0 <> NASAL_PLACEHOLDER -> first = v0) /\
    (v0 = NASAL_PLACEHOLDER ->
       (In c0 alveolar_consonants -> first = lit "n") /\
       (In c0 labial_consonants -> first = lit "m") /\
       (In c0 velar_consonants -> first = lit "N") /\
       (c0 = palatal_consonant -> first = lit "J") /\
       (In c0 palatalized_velar_consonants -> first = lit "N'") /\
       (~ In c0 nasal_table_consonants -> first = NASAL_PLACEHOLDER)).
Proof.
  intros H Ht. apply get_oto_entry_phoneme_info_plain in H.
  destruct (classify_alias_vc hiragana_map new_entry (alias e) r eq_refl H Ht)
    as (vi & ci & v0 & c0 & Ev & Ec & Ev0 & Ec0 & Hl).
  exists vi, ci, v0, c0, (nasal_variant v0 c0).
  split; [exact Ev |]. split; [exact Ec |]. split; [exact Ev0 |].
  split; [exact Ec0 |]. split; [exact Hl |]. split.
  - intros Hv. apply nasal_variant_other. left. exact Hv.
  - intros ->. destruct (nasal_variant_table c0) as (T1 & T2 & T3 & T4 & T5).
    repeat split.
    + intros Hc. apply T1, In_py_in, Hc.
    + intros Hc. apply T2, In_py_in, Hc.
    + intros Hc. apply T3, In_py_in, Hc.
    + exact T4.
    + intros Hc. apply T5, In_py_in, Hc.
    + intros Hc. apply nasal_variant_other. right.
      unfold nasal_table_consonants in Hc. rewrite !in_app_iff in Hc.
      repeat split.
      * apply not_In_py_in. tauto.
      * apply not_In_py_in. tauto.
      * apply not_In_py_in. tauto.
      * intros ->. apply Hc. right. right. right. left. left. reflexivity.
      * apply not_In_py_in. tauto.
Qed.

Lemma vc_nasal_resolution_witness :
  exists vowel_info consonant_info v0 c0 first,
    get_romaji_info sample_hiragana_map (lit "n") = Some vowel_info /\
    get_romaji_info sample_hiragana_map (lit "k") = Some consonant_info /\
    phoneme vowel_info !! 0%nat = Some v0 /\
    phoneme consonant_info !! 0%nat = Some c0 /\
    Some [lit "N"; lit "k"] = Some (first :: phoneme consonant_info) /\
    (v0 <> NASAL_PLACEHOLDER -> first = v0) /\
    (v0 = NASAL_PLACEHOLDER ->
       (In c0 alveolar_consonants -> first = lit "n") /\
       (In c0 labial_consonants -> first = lit "m") /\
       (In c0 velar_consonants -> first = lit "N") /\
       (c0 = palatal_consonant -> first = lit "J") /\
       (In c0 palatalized_velar_consonants -> first = lit "N'") /\
       (~ In c0 nasal_table_consonants -> first = NASAL_PLACEHOLDER)).
Proof.
  apply (vc_nasal_resolution sample_hiragana_map (sample_entry (lit "n k"))
           (classified new_entry "vc"
              [mkItem [12435%N] (lit "n") [lit "N"] (lit "nasal");
               mkItem [] (lit "k") [lit "k"] (lit "consonant")]
              [lit "N"; lit "k"])).
  - reflexivity.
  - reflexivity.
Defined.

(* ===================================================================== *)
(** * Properties: the transition list of the emitted segments *)
(* ===================================================================== *)

Lemma map_paired_readable (h : heap) (cvvc_map : gmap str CvvcEntry) :
  map_paired h cvvc_map -> map_readable h cvvc_map.
Proof. intros H k info Hk. destruct (H k info Hk) as (v & Hv & _). exists v. exact Hv. Qed.










